(** * MinGRU: a shallow embedding of [mingru/functional.py] and [mingru/modules.py]

    The development models torch tensors as a shape together with an
    index-to-value map and the strides in memory, tensor elements as real
    numbers extended with the IEEE special values (infinities and NaN,
    exact arithmetic on the finite part), and Python exceptions as an error
    result.  On top of that tensor layer the functions of [functional.py]
    and the [MinGRU] module are transcribed statement by statement; the data
    generator of [selective_copying.py] is transcribed on lists of integers.

    The exact arithmetic is what the statements that speak of exact real
    arithmetic are about.  Where rounding decides a property, the strict
    positivity of the activation and of the hidden state, the operations
    are taken again with the result rounded to float32 ([round32],
    [g32], [mingru_sequential32]). *)

From Stdlib Require Import Reals Lra Lia List Arith Bool ZArith.
From Stdlib Require Import Permutation Sorted.
Import ListNotations.

Open Scope R_scope.

(** ** Tensor elements *)

(** A tensor element: a real number, or one of the IEEE special values.
    The operations below are exact on [Fin] values, without rounding,
    underflow or overflow; the float32 operations, which round, come after
    the tensor functions. *)
Inductive fval : Type :=
| Fin (r : R)
| PInf
| NInf
| NaN.

Definition fneg (v : fval) : fval :=
  match v with
  | Fin r => Fin (- r)
  | PInf => NInf
  | NInf => PInf
  | NaN => NaN
  end.

Definition fadd (a b : fval) : fval :=
  match a, b with
  | NaN, _ | _, NaN => NaN
  | Fin x, Fin y => Fin (x + y)
  | PInf, NInf | NInf, PInf => NaN
  | PInf, _ | _, PInf => PInf
  | NInf, _ | _, NInf => NInf
  end.

Definition fsub (a b : fval) : fval := fadd a (fneg b).

(** Product of an infinity with a finite factor [x]; [pos] is the sign of
    the infinity. *)
Definition inf_times (pos : bool) (x : R) : fval :=
  if Rlt_dec 0 x then (if pos then PInf else NInf)
  else if Rlt_dec x 0 then (if pos then NInf else PInf)
  else NaN.

Definition fmul (a b : fval) : fval :=
  match a, b with
  | NaN, _ | _, NaN => NaN
  | Fin x, Fin y => Fin (x * y)
  | Fin x, PInf | PInf, Fin x => inf_times true x
  | Fin x, NInf | NInf, Fin x => inf_times false x
  | PInf, PInf | NInf, NInf => PInf
  | PInf, NInf | NInf, PInf => NInf
  end.

Definition fexp (v : fval) : fval :=
  match v with
  | Fin r => Fin (exp r)
  | PInf => PInf
  | NInf => Fin 0
  | NaN => NaN
  end.

(** [log] of zero is minus infinity and of a negative number NaN. *)
Definition flog (v : fval) : fval :=
  match v with
  | Fin r => if Rlt_dec 0 r then Fin (ln r)
             else if Rlt_dec r 0 then NaN else NInf
  | PInf => PInf
  | NInf => NaN
  | NaN => NaN
  end.

Definition sigmoid (x : R) : R := / (1 + exp (- x)).

(** The exact sigmoid, strictly between 0 and 1 on a real number; its
    float32 value, [fsigmoid32], reaches 0 and 1. *)
Definition fsigmoid (v : fval) : fval :=
  match v with
  | Fin r => Fin (sigmoid r)
  | PInf => Fin 1
  | NInf => Fin 0
  | NaN => NaN
  end.

(** [F.softplus] with its default [beta = 1]: [log (1 + exp x)]. *)
Definition softplus (x : R) : R := ln (1 + exp x).

Definition fsoftplus (v : fval) : fval :=
  match v with
  | Fin r => Fin (softplus r)
  | PInf => PInf
  | NInf => Fin 0
  | NaN => NaN
  end.

Definition fmax (a b : fval) : fval :=
  match a, b with
  | NaN, _ | _, NaN => NaN
  | Fin x, Fin y => Fin (Rmax x y)
  | PInf, _ | _, PInf => PInf
  | NInf, v | v, NInf => v
  end.

(** The comparison [x >= 0]; false on NaN. *)
Definition fge0 (v : fval) : bool :=
  match v with
  | Fin r => if Rle_dec 0 r then true else false
  | PInf => true
  | NInf => false
  | NaN => false
  end.

(** The real number carried by a finite element. *)
Definition toR (v : fval) : R :=
  match v with
  | Fin r => r
  | _ => 0
  end.

Definition is_finite (v : fval) : Prop := exists r, v = Fin r.

(** ** Exceptions *)

Inductive exn : Type :=
| RuntimeError       (* torch: shapes that do not fit *)
| ValueError         (* unpacking a tuple of the wrong length; an integer
                        argument of torch outside of int64 *)
| IndexError
| AssertionError
| UnboundLocalError.

Inductive result (A : Type) : Type :=
| Ok (a : A)
| Raise (e : exn).

Arguments Ok {A} a.
Arguments Raise {A} e.

Definition bind {A B : Type} (c : result A) (k : A -> result B) : result B :=
  match c with
  | Ok a => k a
  | Raise e => Raise e
  end.

Notation "x <- c ;; k" := (bind c (fun x => k))
  (at level 61, c at next level, right associativity).
Notation "' ( x , y ) <- c ;; k" := (bind c (fun p => let '(x, y) := p in k))
  (at level 61, x name, y name, c at next level, right associativity).

(** ** Tensors *)

Definition numel (s : list nat) : nat := fold_right Nat.mul 1%nat s.

(** A tensor is its shape, the value at each multi-index and its strides in
    memory.  Only the values at indices inside the shape are meaningful.
    The strides are read by [view] alone; slices keep the strides of the
    tensor they are taken from. *)
Record tensor : Type := mkTensor {
  shape : list nat;
  data : list nat -> fval;
  stride : list nat
}.

(** The strides of a newly allocated tensor of shape [s]: row-major, a
    dimension of size zero counting as one. *)
Fixpoint contiguous_stride (s : list nat) : list nat :=
  match s with
  | [] => []
  | _ :: s' => numel (map (fun d => Nat.max d 1) s') :: contiguous_stride s'
  end.

(** A newly allocated tensor. *)
Abbreviation mkT s d := (mkTensor s d (contiguous_stride s)).

(** [t] has the strides of a newly allocated tensor. *)
Definition contiguous (t : tensor) : Prop :=
  stride t = contiguous_stride (shape t).

Definition in_range (s idx : list nat) : Prop := Forall2 lt idx s.

(** Equality of tensors: same shape, same value at every index in range. *)
Definition teq (a b : tensor) : Prop :=
  shape a = shape b /\
  forall idx, in_range (shape a) idx -> data a idx = data b idx.

Definition finite (t : tensor) : Prop :=
  forall idx, in_range (shape t) idx -> is_finite (data t idx).

Definition positive (t : tensor) : Prop :=
  forall idx, in_range (shape t) idx -> exists r, data t idx = Fin r /\ 0 < r.

(** Elementwise application of a unary function. *)
Definition tmap (f : fval -> fval) (t : tensor) : tensor :=
  mkT (shape t) (fun idx => f (data t idx)).

Definition sigmoid_t : tensor -> tensor := tmap fsigmoid.
Definition softplus_t : tensor -> tensor := tmap fsoftplus.
Definition neg_t : tensor -> tensor := tmap fneg.
Definition log_t : tensor -> tensor := tmap flog.
Definition exp_t : tensor -> tensor := tmap fexp.

(** ** The activation pair of [functional.py] *)

(** One element of [g]: where the mask [x >= 0] holds the element is
    [x + 0.5], elsewhere [sigmoid x]. *)
Definition g_elem (v : fval) : fval :=
  if fge0 v then fadd v (Fin (1 / 2)) else fsigmoid v.

Definition g (x : tensor) : tensor := tmap g_elem x.

(** One element of [log_g]: [(x + 0.5).log()] under the mask,
    [-softplus(-x)] elsewhere. *)
Definition log_g_elem (v : fval) : fval :=
  if fge0 v then flog (fadd v (Fin (1 / 2))) else fneg (fsoftplus (fneg v)).

Definition log_g (x : tensor) : tensor := tmap log_g_elem x.

(** The real function computed by [g] on finite elements. *)
Definition g_real (x : R) : R :=
  if Rle_dec 0 x then x + 1 / 2 else sigmoid x.

(** ** The tensor operations of torch used by the code *)

Fixpoint shape_eqb (s1 s2 : list nat) : bool :=
  match s1, s2 with
  | [], [] => true
  | a :: r1, b :: r2 => (a =? b)%nat && shape_eqb r1 r2
  | _, _ => false
  end.

(** [idx] with [k] added to its component [d]. *)
Fixpoint shift_at (d k : nat) (idx : list nat) : list nat :=
  match idx with
  | [] => []
  | i :: r =>
      match d with
      | O => (i + k)%nat :: r
      | S d' => i :: shift_at d' k r
      end
  end.

(** [s] with its component [d] replaced by [n]. *)
Fixpoint set_at (d n : nat) (s : list nat) : list nat :=
  match s with
  | [] => []
  | i :: r =>
      match d with
      | O => n :: r
      | S d' => i :: set_at d' n r
      end
  end.

(** The slice [start : start + len] along dimension [d]. *)
Definition narrow (d start len : nat) (t : tensor) : tensor :=
  mkTensor (set_at d len (shape t)) (fun idx => data t (shift_at d start idx))
           (stride t).

(** *** Broadcasting *)

Definition bdim (a b : nat) : option nat :=
  if (a =? b)%nat then Some a
  else if (a =? 1)%nat then Some b
  else if (b =? 1)%nat then Some a
  else None.

(** Broadcast of two shapes given last dimension first. *)
Fixpoint bshape_rev (s1 s2 : list nat) : option (list nat) :=
  match s1, s2 with
  | [], s => Some s
  | s, [] => Some s
  | a :: r1, b :: r2 =>
      match bdim a b, bshape_rev r1 r2 with
      | Some d, Some r => Some (d :: r)
      | _, _ => None
      end
  end.

(** Shapes are aligned at their last dimension; a dimension of size one is
    stretched. *)
Definition bshape (s1 s2 : list nat) : option (list nat) :=
  option_map (@rev nat) (bshape_rev (rev s1) (rev s2)).

(** The index into an operand of shape [s] for the index [idx] of the
    broadcast result. *)
Definition bidx (s idx : list nat) : list nat :=
  map (fun '(d, i) => if (d =? 1)%nat then O else i)
      (combine s (skipn (length idx - length s) idx)).

(** Elementwise binary operation with broadcasting. *)
Definition tzip (f : fval -> fval -> fval) (a b : tensor) : result tensor :=
  match bshape (shape a) (shape b) with
  | Some s =>
      Ok (mkT s (fun idx =>
                   f (data a (bidx (shape a) idx)) (data b (bidx (shape b) idx))))
  | None => Raise RuntimeError
  end.

Definition add : tensor -> tensor -> result tensor := tzip fadd.
Definition sub : tensor -> tensor -> result tensor := tzip fsub.
Definition mul : tensor -> tensor -> result tensor := tzip fmul.

(** [c - t] for a Python number [c]. *)
Definition rsub (c : R) (t : tensor) : tensor := tmap (fun v => fsub (Fin c) v) t.

(** *** Linear projection *)

(** Sum of [f 0 .. f (n - 1)]. *)
Fixpoint fsum (n : nat) (f : nat -> fval) : fval :=
  match n with
  | O => Fin 0
  | S k => fadd (fsum k f) (f k)
  end.

(** [F.linear(x, weight, bias)]: [x] has any leading dimensions and [in] as
    its last one, [weight] is [(out, in)], [bias] is [(out)] or absent; the
    result has the leading dimensions of [x] and [out] as its last one. *)
Definition linear (x weight : tensor) (bias : option tensor) : result tensor :=
  match shape weight with
  | [outd; ind] =>
      if (length (shape x) =? 0)%nat || negb (last (shape x) O =? ind)%nat
      then Raise RuntimeError
      else
        let dot idx :=
          fsum ind (fun i => fmul (data x (removelast idx ++ [i]))
                                  (data weight [last idx O; i])) in
        match bias with
        | None => Ok (mkT (removelast (shape x) ++ [outd]) dot)
        | Some b =>
            if shape_eqb (shape b) [outd]
            then Ok (mkT (removelast (shape x) ++ [outd])
                         (fun idx => fadd (dot idx) (data b [last idx O])))
            else Raise RuntimeError
        end
  | _ => Raise RuntimeError
  end.

(** [gate, hidden = t.chunk(2, dim=d)]: chunks of size [ceil(n / 2)]; a
    dimension of size one gives a single chunk and the unpacking fails. *)
Definition chunk2 (d : nat) (t : tensor) : result (tensor * tensor) :=
  match nth_error (shape t) d with
  | None => Raise IndexError
  | Some n =>
      let ss := ((n + 1) / 2)%nat in
      if (n =? 1)%nat then Raise ValueError
      else Ok (narrow d 0 ss t, narrow d ss (n - ss) t)
  end.

(** [torch.cat((a, b), dim=1)]. *)
Definition cat1 (a b : tensor) : result tensor :=
  match shape a, shape b with
  | d0 :: n1 :: r1, e0 :: n2 :: r2 =>
      if (d0 =? e0)%nat && shape_eqb r1 r2
      then Ok (mkT (d0 :: (n1 + n2)%nat :: r1)
                   (fun idx =>
                      match idx with
                      | i :: t :: r =>
                          if (t <? n1)%nat then data a (i :: t :: r)
                          else data b (i :: (t - n1)%nat :: r)
                      | _ => NaN
                      end))
      else Raise RuntimeError
  | _, _ => Raise IndexError
  end.

(** [t[:, 1:]]. *)
Definition tail1 (t : tensor) : result tensor :=
  match nth_error (shape t) 1 with
  | None => Raise IndexError
  | Some n => Ok (narrow 1 1 (n - 1) t)
  end.

(** ** The log-space scan *)

(** Inclusive prefix reduction: [f 0 op f 1 op ... op f t]. *)
Fixpoint prefix (op : fval -> fval -> fval) (f : nat -> fval) (t : nat) : fval :=
  match t with
  | O => f O
  | S k => op (prefix op f k) (f (S k))
  end.

(** The sequence along dimension 1 through the index [idx]. *)
Definition lane (t : tensor) (idx : list nat) (j : nat) : fval :=
  match idx with
  | b :: _ :: r => data t (b :: j :: r)
  | _ => NaN
  end.

Definition pos1 (idx : list nat) : nat := nth 1 idx O.

(** One zero slot put in front along dimension 1. *)
Definition pad_front1 (t : tensor) : tensor :=
  mkT (match shape t with
       | b :: n :: r => b :: S n :: r
       | s => s
       end)
      (fun idx =>
         match idx with
         | b :: S k :: r => data t (b :: k :: r)
         | _ => Fin 0
         end).

Definition cumsum1 (t : tensor) : tensor :=
  mkT (shape t) (fun idx => prefix fadd (lane t idx) (pos1 idx)).

Definition cummax1 (t : tensor) : tensor :=
  mkT (shape t) (fun idx => prefix fmax (lane t idx) (pos1 idx)).

(** Cumulative log-sum-exp along dimension 1 with the running-max shift:
    the running maximum is subtracted before exponentiating, the
    exponentials are summed, the logarithm taken and the maximum added
    back. *)
Definition logcumsumexp1 (t : tensor) : tensor :=
  mkT (shape t)
      (fun idx =>
         let m := data (cummax1 t) idx in
         fadd (flog (prefix fadd (fun j => fexp (fsub (lane t idx j) m))
                            (pos1 idx)))
              m).

(** Modelled from the spec: [parallel_scan_log] of [mingru/scan.py], which
    the code imports and which is not among the sources.  It follows steps
    1 to 6 of the scan of the specification: [A] is the log-coefficients with
    a leading zero, [A*] its cumulative sum, [D = B - A*],
    [C = logcumsumexp D], and the result [exp (A* + C)], the whole
    trajectory including the initial slot. *)
Definition parallel_scan_log (log_coeffs log_values : tensor) : result tensor :=
  let a_star := cumsum1 (pad_front1 log_coeffs) in
  d <- sub log_values a_star ;;
  let c := logcumsumexp1 d in
  log_h <- add a_star c ;;
  Ok (exp_t log_h).

(** ** [functional.py]: the flat MinGRU *)

Definition last_dim (t : tensor) : nat := (length (shape t) - 1)%nat.

Definition mingru_sequential (x h weight : tensor) (bias : option tensor)
  : result tensor :=
  y <- linear x weight bias ;;
  '(gate, hidden) <- chunk2 (last_dim y) y ;;
  let z := sigmoid_t gate in
  let h_tilde := g hidden in
  keep <- mul (rsub 1 z) h ;;
  new <- mul z h_tilde ;;
  add keep new.

Definition mingru_parallel (x h weight : tensor) (bias : option tensor)
  : result tensor :=
  y <- linear x weight bias ;;
  '(gate, hidden) <- chunk2 (last_dim y) y ;;
  let log_z := neg_t (softplus_t (neg_t gate)) in
  let log_coeffs := neg_t (softplus_t gate) in
  let log_h_0 := log_t h in
  let log_tilde_h := log_g hidden in
  v <- add log_z log_tilde_h ;;
  log_values <- cat1 log_h_0 v ;;
  hs <- parallel_scan_log log_coeffs log_values ;;
  tail1 hs.

Definition mingru (x h weight : tensor) (bias : option tensor)
  : result tensor :=
  match nth_error (shape x) 1 with
  | None => Raise IndexError
  | Some len =>
      if (len =? 1)%nat then mingru_sequential x h weight bias
      else mingru_parallel x h weight bias
  end.

(** The time step [x[:, t:t+1]]. *)
Definition step1 (t : nat) (x : tensor) : tensor := narrow 1 t 1 x.

(** The hidden state after [n] applications of the one-step update, fed
    with the time steps [0 .. n - 1] of [x] one after the other. *)
Fixpoint sequential_rollout (x h weight : tensor) (bias : option tensor)
  (n : nat) : result tensor :=
  match n with
  | O => Ok h
  | S k =>
      h_prev <- sequential_rollout x h weight bias k ;;
      mingru_sequential (step1 k x) h_prev weight bias
  end.

(** The strides of a contiguous tensor, last dimension first: running
    products from [acc]. *)
Fixpoint running (r : list nat) (acc : nat) : list nat :=
  match r with
  | [] => []
  | d :: r' => acc :: running r' (acc * d)%nat
  end.

(** ** [functional.py]: the spatial MinGRU *)

(** [t.squeeze(1)]: dimension 1 is removed when its size is one. *)
Definition squeeze1 (t : tensor) : result tensor :=
  match shape t with
  | b :: n :: r =>
      if (n =? 1)%nat
      then Ok (mkTensor (b :: r)
                        (fun idx =>
                           match idx with
                           | i :: r' => data t (i :: O :: r')
                           | [] => NaN
                           end)
                        (match stride t with
                         | sb :: _ :: sr => sb :: sr
                         | st => st
                         end))
      else Ok t
  | _ => Raise IndexError
  end.

(** [t.unsqueeze(1)]. *)
Definition unsqueeze1 (t : tensor) : result tensor :=
  match shape t with
  | b :: r =>
      Ok (mkTensor (b :: 1%nat :: r)
                   (fun idx =>
                      match idx with
                      | i :: _ :: r' => data t (i :: r')
                      | _ => NaN
                      end)
                   (match stride t, r with
                    | sb :: s1 :: sr, n1 :: _ => sb :: (n1 * s1)%nat :: s1 :: sr
                    | sb :: sr, _ => sb :: 1%nat :: sr
                    | [], _ => []
                    end))
  | [] => Raise IndexError
  end.

(** Position of the index [idx] in the row-major layout of shape [s]. *)
Fixpoint ravel (s idx : list nat) : nat :=
  match s, idx with
  | _ :: s', i :: idx' => (i * numel s' + ravel s' idx')%nat
  | _, _ => O
  end.

(** The index at position [n] of the row-major layout of shape [s]. *)
Fixpoint unravel (s : list nat) (n : nat) : list nat :=
  match s with
  | [] => []
  | _ :: s' => (n / numel s')%nat :: unravel s' (n mod numel s')%nat
  end.

(** The dimensions of the view taken up by a chunk of [tensor_numel]
    elements of the tensor whose innermost stride is [chunk_base_stride]:
    the dimensions of the view that remain, last one first, the number of
    elements taken and the strides given to the dimensions taken. *)
Fixpoint view_chunk (newshape_rev : list nat)
  (view_numel tensor_numel chunk_base_stride : nat)
  : list nat * nat * list nat :=
  match newshape_rev with
  | d :: rest =>
      if (view_numel <? tensor_numel)%nat || (d =? 1)%nat
      then
        let '(remaining, n, strides) :=
          view_chunk rest (view_numel * d)%nat tensor_numel
                     chunk_base_stride in
        (remaining, n, (view_numel * chunk_base_stride)%nat :: strides)
      else (newshape_rev, view_numel, [])
  | [] => ([], view_numel, [])
  end.

(** The strides of a view of shape [newshape_rev] of a tensor with the
    dimensions [old], each a size and a stride, both given last dimension
    first.  The dimensions of the tensor are cut into chunks that are
    contiguous in memory, a dimension of size one never ending a chunk, and
    each chunk must be taken up exactly by dimensions of the view. *)
Fixpoint view_chunks (old : list (nat * nat)) (newshape_rev : list nat)
  (chunk_base_stride tensor_numel : nat) : option (list nat) :=
  match old with
  | [] => None
  | (size, _) :: rest =>
      let tensor_numel := (tensor_numel * size)%nat in
      match rest with
      | [] =>
          match view_chunk newshape_rev 1 tensor_numel chunk_base_stride with
          | ([], n, strides) =>
              if (n =? tensor_numel)%nat then Some strides else None
          | _ => None
          end
      | (size', stride') :: _ =>
          if negb (size' =? 1)%nat
             && negb (stride' =? tensor_numel * chunk_base_stride)%nat
          then
            let '(remaining, n, strides) :=
              view_chunk newshape_rev 1 tensor_numel chunk_base_stride in
            if (n =? tensor_numel)%nat
            then option_map (app strides)
                            (view_chunks rest remaining stride' 1)
            else None
          else view_chunks rest newshape_rev chunk_base_stride tensor_numel
      end
  end.

(** The strides of [t.view(s)], if the shape [s] fits the layout of [t]; a
    tensor without elements fits every shape. *)
Definition view_stride (s : list nat) (t : tensor) : option (list nat) :=
  match shape t with
  | [] => Some (map (fun _ => 1%nat) s)
  | _ :: _ =>
      if (numel (shape t) =? 0)%nat
      then Some (if shape_eqb (shape t) s then stride t
                 else contiguous_stride s)
      else option_map (@rev nat)
             (view_chunks (rev (combine (shape t) (stride t))) (rev s)
                          (last (stride t) 1%nat) 1)
  end.

(** [t.view(s)]: the same elements in row-major order, without a copy.
    The number of elements must agree and the layout of [t] must allow the
    shape. *)
Definition view (s : list nat) (t : tensor) : result tensor :=
  if (numel s =? numel (shape t))%nat
  then match view_stride s t with
       | Some st =>
           Ok (mkTensor s
                        (fun idx => data t (unravel (shape t) (ravel s idx)))
                        st)
       | None => Raise RuntimeError
       end
  else Raise RuntimeError.

(** [F.conv2d(x, weight, bias, stride=1, padding="same")] on a batched input
    [(N, Cin, H, W)] with [weight] of shape [(Cout, Cin, k1, k2)]: the input
    is padded with zeros, [(k - 1) / 2] in front and the rest behind, and
    correlated with the kernel.  The callers pass a 4-dimensional input;
    the unbatched 3-dimensional form that torch also accepts is left out. *)
Definition conv2d_same (x weight : tensor) (bias : option tensor)
  : result tensor :=
  match shape x, shape weight with
  | [n; cin; hh; ww], [cout; cin'; k1; k2] =>
      if negb (cin =? cin')%nat then Raise RuntimeError
      else
        let pt := ((k1 - 1) / 2)%nat in
        let pl := ((k2 - 1) / 2)%nat in
        let padded b i p q :=
          if (pt <=? p)%nat && (p <? pt + hh)%nat
             && (pl <=? q)%nat && (q <? pl + ww)%nat
          then data x [b; i; (p - pt)%nat; (q - pl)%nat]
          else Fin 0 in
        let corr idx :=
          match idx with
          | [b; o; y; xx] =>
              fsum cin (fun i =>
                fsum k1 (fun u =>
                  fsum k2 (fun v =>
                    fmul (padded b i (y + u)%nat (xx + v)%nat)
                         (data weight [o; i; u; v]))))
          | _ => NaN
          end in
        match bias with
        | None => Ok (mkT [n; cout; hh; ww] corr)
        | Some b =>
            if shape_eqb (shape b) [cout]
            then Ok (mkT [n; cout; hh; ww]
                         (fun idx => fadd (corr idx) (data b [nth 1 idx O])))
            else Raise RuntimeError
        end
  | _, _ => Raise RuntimeError
  end.

Definition conv_mingru_sequential (x h weight : tensor) (bias : option tensor)
  : result tensor :=
  xs <- squeeze1 x ;;
  y <- conv2d_same xs weight bias ;;
  '(gate, hidden) <- chunk2 1 y ;;
  let z := sigmoid_t gate in
  let h_tilde := g hidden in
  hs <- squeeze1 h ;;
  keep <- mul (rsub 1 z) hs ;;
  new <- mul z h_tilde ;;
  h_t <- add keep new ;;
  unsqueeze1 h_t.

Definition conv_mingru_parallel (x h weight : tensor) (bias : option tensor)
  : result tensor :=
  match shape x with
  | [B; S'; input_dims; H; W] =>
      match nth_error (shape h) 2 with
      | None => Raise IndexError
      | Some hidden_dims =>
          xv <- view [(B * S')%nat; input_dims; H; W] x ;;
          y <- conv2d_same xv weight bias ;;
          yv <- view [B; S'; (hidden_dims * 2)%nat; H; W] y ;;
          '(gate, hidden) <- chunk2 2 yv ;;
          let log_z := neg_t (softplus_t (neg_t gate)) in
          let log_coeffs := neg_t (softplus_t gate) in
          let log_h_0 := log_t h in
          let log_tilde_h := log_g hidden in
          v <- add log_z log_tilde_h ;;
          log_values <- cat1 log_h_0 v ;;
          hs <- parallel_scan_log log_coeffs log_values ;;
          tail1 hs
      end
  | _ => Raise ValueError
  end.

Definition conv_mingru (x h weight : tensor) (bias : option tensor)
  : result tensor :=
  match nth_error (shape x) 1 with
  | None => Raise IndexError
  | Some len =>
      if (len =? 1)%nat then conv_mingru_sequential x h weight bias
      else conv_mingru_parallel x h weight bias
  end.

(** ** [modules.py]: the [MinGRU] module *)

Definition new_zeros (s : list nat) : tensor := mkT s (fun _ => Fin 0).

Definition full_like (t : tensor) (c : R) : tensor :=
  mkT (shape t) (fun _ => Fin c).

(** [t[:, -1:]]. *)
Definition last1 (t : tensor) : result tensor :=
  match nth_error (shape t) 1 with
  | None => Raise IndexError
  | Some n => Ok (narrow 1 (n - 1) (Nat.min n 1) t)
  end.

(** An alignment layer of the residual connection. *)
Inductive align_layer : Type :=
| AlignLinear (weight : tensor) (bias : option tensor)
| AlignIdentity.

Definition align_forward (al : align_layer) (inp : tensor) : result tensor :=
  match al with
  | AlignLinear w b => linear inp w b
  | AlignIdentity => Ok inp
  end.

(** The attributes of a [MinGRU] module after construction; a gate-hidden
    layer is the weight and the optional bias of its [Linear]. *)
Record MinGRU : Type := mkMinGRU {
  layer_sizes : list nat;
  num_layers : nat;
  gate_hidden_layers : list (tensor * option tensor);
  align_layers : list align_layer;
  dropout : R;
  residual : bool
}.

Definition init_hidden_state (self : MinGRU) (x : tensor)
  : result (list tensor) :=
  match shape x with
  | b :: _ =>
      Ok (map (fun hidden_size => g (new_zeros [b; 1%nat; hidden_size]))
              (tl (layer_sizes self)))
  | [] => Raise IndexError
  end.

Section Forward.

(** The random generator: [bernoulli p s] is the sample drawn for the
    tensor of probabilities [p] in generator state [s], with the next
    state. *)
Variable gen : Type.
Variable bernoulli : tensor -> gen -> tensor * gen.

(** The loop of [forward] over the layers that remain, at layer index
    [lidx]; [out] is unbound before the first iteration. *)
Fixpoint forward_loop (self : MinGRU) (h : list tensor)
  (layers : list (tensor * option tensor)) (lidx : nat)
  (inp : tensor) (out : option tensor) (next_hidden : list tensor)
  (s : gen) : result (tensor * list tensor * gen) :=
  match layers with
  | [] =>
      match out with
      | Some o => Ok (o, next_hidden, s)
      | None => Raise UnboundLocalError
      end
  | (w, b) :: rest =>
      match nth_error h lidx with
      | None => Raise IndexError
      | Some h_prev =>
          o <- mingru inp h_prev w b ;;
          final <- last1 o ;;
          o <- (if residual self
                then match nth_error (align_layers self) lidx with
                     | None => Raise IndexError
                     | Some al => a <- align_forward al inp ;; add o a
                     end
                else Ok o) ;;
          let is_not_last := (lidx <? num_layers self - 1)%nat in
          if is_not_last && (if Rlt_dec 0 (dropout self) then true else false)
          then
            let '(mask, s') := bernoulli (full_like o (1 - dropout self)) s in
            o <- mul o mask ;;
            forward_loop self h rest (S lidx) o (Some o)
                         (next_hidden ++ [final]) s'
          else
            forward_loop self h rest (S lidx) o (Some o)
                         (next_hidden ++ [final]) s
      end
  end.

(** The condition of the assertion of [forward]; [and] does not look at
    [layer_sizes] when [x] is not 3-dimensional. *)
Definition forward_assert (self : MinGRU) (x : tensor) : result bool :=
  if (length (shape x) =? 3)%nat
  then match nth_error (layer_sizes self) 0 with
       | None => Raise IndexError
       | Some input_size => Ok (nth 2 (shape x) O =? input_size)%nat
       end
  else Ok false.

Definition forward (self : MinGRU) (x : tensor) (h : option (list tensor))
  (s : gen) : result (tensor * list tensor * gen) :=
  ok <- forward_assert self x ;;
  if ok : bool
  then
    h <- match h with
         | None => init_hidden_state self x
         | Some l => Ok l
         end ;;
    forward_loop self h (gate_hidden_layers self) 0 x None [] s
  else Raise AssertionError.

End Forward.

(** ** The real numbers behind a run on finite inputs *)

(** Sum of [f 0 .. f (n - 1)] over the reals. *)
Fixpoint rsum (n : nat) (f : nat -> R) : R :=
  match n with
  | O => 0
  | S k => rsum k f + f k
  end.

(** Inclusive prefix reduction over the reals. *)
Fixpoint rprefix (op : R -> R -> R) (f : nat -> R) (t : nat) : R :=
  match t with
  | O => f O
  | S k => op (rprefix op f k) (f (S k))
  end.

Definition bias_r (bias : option tensor) (j : nat) : R :=
  match bias with
  | None => 0
  | Some b => toR (data b [j])
  end.

(** Element [(b, t, j)] of [F.linear(x, weight, bias)] for a 3-dimensional
    [x] with [ind] input features. *)
Definition lin_r (ind : nat) (x weight : tensor) (bias : option tensor)
  (b t j : nat) : R :=
  rsum ind (fun i => toR (data x [b; t; i]) * toR (data weight [j; i]))
  + bias_r bias j.

(** The recurrence [h_t = (1 - z_t) h_(t-1) + z_t g(c_t)] on one lane, with
    gate logits [gate] and candidate logits [cand]; [hseq gate cand h0 t] is
    the state after [t] steps. *)
Fixpoint hseq (gate cand : nat -> R) (h0 : R) (t : nat) : R :=
  match t with
  | O => h0
  | S k =>
      (1 - sigmoid (gate k)) * hseq gate cand h0 k
      + sigmoid (gate k) * g_real (cand k)
  end.

Definition bias_ok (bias : option tensor) (outd : nat) : Prop :=
  match bias with
  | None => True
  | Some b => shape b = [outd] /\ finite b
  end.

(** The linear recurrence [h_t = exp (a_t) h_(t-1) + exp (b_t)] that the
    scan solves; [a k] is the log-coefficient of step [k + 1], [bv j] the
    log-value of slot [j] and [bv 0] the logarithm of the initial state. *)
Fixpoint scan_r (a bv : nat -> R) (t : nat) : R :=
  match t with
  | O => exp (bv O)
  | S k => exp (a k) * scan_r a bv k + exp (bv (S k))
  end.

(** The log-coefficients with the leading zero of the initial slot. *)
Definition lead0 (a : nat -> R) (i : nat) : R :=
  match i with
  | O => 0
  | S k => a k
  end.

(** ** The concrete scenario: one lane, three steps *)

(** Batch 1, one input feature, three time steps; the projection has zero
    weights and bias [(0, 1)], so that the gate logits are [0, 0, 0] and the
    candidate logits [1, 1, 1] whatever the input. *)
Definition x_demo : tensor := new_zeros [1; 3; 1]%nat.

Definition weight_demo : tensor := new_zeros [2; 1]%nat.

Definition bias_demo : tensor :=
  mkT [2%nat] (fun idx => Fin (match idx with [O] => 0 | _ => 1 end)).

(** The initial state [g(0)] of one lane. *)
Definition h_demo : tensor := g (new_zeros [1; 1; 1]%nat).

(** ** What the code computes on one lane *)

(** Element [(b, t, j)] of [F.linear(x, weight, bias)] for a 3-dimensional
    [x] with [ind] input features. *)
Definition lin_f (ind : nat) (x weight : tensor) (bias : option tensor)
  (b t j : nat) : fval :=
  let dot := fsum ind (fun i => fmul (data x [b; t; i]) (data weight [j; i])) in
  match bias with
  | None => dot
  | Some bt => fadd dot (data bt [j])
  end.

(** The update [(1 - z) * h + z * h_tilde] of the sequential step on one
    element, from the gate logit, the candidate logit and the previous
    state. *)
Definition step_f (gate cand h : fval) : fval :=
  fadd (fmul (fsub (Fin 1) (fsigmoid gate)) h)
       (fmul (fsigmoid gate) (g_elem cand)).

(** Slot [t] of the scan on the lane with log-coefficients [fa] and
    log-values [fb]. *)
Definition scan_lane_f (fa fb : nat -> fval) (t : nat) : fval :=
  let A j := prefix fadd (fun i => match i with O => Fin 0 | S k => fa k end) j in
  let D j := fsub (fb j) (A j) in
  let m := prefix fmax D t in
  fexp (fadd (A t)
             (fadd (flog (prefix fadd (fun j => fexp (fsub (D j) m)) t)) m)).

(** Slot [t] of the scan that [mingru_parallel] runs on the lane with gate
    logits [gate], candidate logits [cand] and initial state [h0]. *)
Definition par_lane_f (gate cand : nat -> fval) (h0 : fval) (t : nat) : fval :=
  scan_lane_f
    (fun k => fneg (fsoftplus (gate k)))
    (fun j => match j with
              | O => flog h0
              | S k => fadd (fneg (fsoftplus (fneg (gate k))))
                            (log_g_elem (cand k))
              end)
    t.

Definition bias_shape (bias : option tensor) (outd : nat) : Prop :=
  match bias with
  | None => True
  | Some b => shape b = [outd]
  end.

(** ** Flattening of a spatial tensor of height and width one *)


(** ** Inputs outside the documented domain *)

(** A sequence of length zero, batch 1 and one input feature. *)
Definition x_empty : tensor := new_zeros [1; 0; 1]%nat.

(** A single time step, batch 1 and one input feature. *)
Definition x_single : tensor := new_zeros [1; 1; 1]%nat.

(** An initial state with a negative element. *)
Definition h_negative : tensor := full_like h_demo (-1).

Definition x_empty_hw : tensor := new_zeros [1; 0; 1; 1; 1]%nat.
Definition h_demo_hw : tensor := g (new_zeros [1; 1; 1; 1; 1]%nat).
Definition weight_demo_hw : tensor := new_zeros [2; 1; 1; 1]%nat.


(** A module with one layer of hidden size one on one input feature, no
    residual connection and no dropout, and a generator that is never
    consulted. *)
Definition rnn_demo : MinGRU :=
  mkMinGRU [1; 1]%nat 1 [(weight_demo, Some bias_demo)] [] 0 false.

Definition bernoulli_demo (p : tensor) (s : unit) : tensor * unit := (p, s).

(** ** What the spatial code computes on one lane *)

(** Element [(o, y, xx)] of the convolution with "same" padding of the
    image [img], given by channel, row and column, of height [hh] and width
    [ww] with [cin] channels, by a kernel of size [k1] by [k2]. *)
Definition conv_f (cin hh ww k1 k2 : nat) (img : nat -> nat -> nat -> fval)
  (weight : tensor) (bias : option tensor) (o y xx : nat) : fval :=
  let pt := ((k1 - 1) / 2)%nat in
  let pl := ((k2 - 1) / 2)%nat in
  let padded i p q :=
    if (pt <=? p)%nat && (p <? pt + hh)%nat
       && (pl <=? q)%nat && (q <? pl + ww)%nat
    then img i (p - pt)%nat (q - pl)%nat
    else Fin 0 in
  let corr :=
    fsum cin (fun i =>
      fsum k1 (fun u =>
        fsum k2 (fun v =>
          fmul (padded i (y + u)%nat (xx + v)%nat)
               (data weight [o; i; u; v])))) in
  match bias with
  | None => corr
  | Some b => fadd corr (data b [o])
  end.

(** The same element over the reals. *)
Definition conv_r (cin hh ww k1 k2 : nat) (img : nat -> nat -> nat -> R)
  (weight : tensor) (bias : option tensor) (o y xx : nat) : R :=
  let pt := ((k1 - 1) / 2)%nat in
  let pl := ((k2 - 1) / 2)%nat in
  let padded i p q :=
    if (pt <=? p)%nat && (p <? pt + hh)%nat
       && (pl <=? q)%nat && (q <? pl + ww)%nat
    then img i (p - pt)%nat (q - pl)%nat
    else 0 in
  rsum cin (fun i =>
    rsum k1 (fun u =>
      rsum k2 (fun v =>
        padded i (y + u)%nat (xx + v)%nat * toR (data weight [o; i; u; v]))))
  + bias_r bias o.

(** The image of batch element [b] at time step [t] of a 5-dimensional
    input. *)
Definition frame (x : tensor) (b t : nat) (c p q : nat) : fval :=
  data x [b; t; c; p; q].

Definition frame_r (x : tensor) (b t : nat) (c p q : nat) : R :=
  toR (data x [b; t; c; p; q]).

(** [t.contiguous()]: the same elements in a newly allocated tensor. *)
Definition contiguous_copy (t : tensor) : tensor := mkT (shape t) (data t).


(** Two frames of a 2 by 2 image with one channel, a positive initial
    state and a 3 by 3 kernel with zero weights. *)
Definition x_demo_img : tensor := new_zeros [1; 2; 1; 2; 2]%nat.
Definition h_demo_img : tensor := g (new_zeros [1; 1; 1; 2; 2]%nat).
Definition weight_demo_img : tensor := new_zeros [2; 1; 3; 3]%nat.

(** A batch of two sequences of three frames. *)
Definition x_batch_img : tensor := new_zeros [2; 3; 1; 2; 2]%nat.
Definition h_batch_img : tensor := g (new_zeros [2; 1; 1; 2; 2]%nat).

(** ** [modules.py]: construction of the module *)

(** The argument [hidden_sizes] of the constructor: an integer or a list. *)
Inductive sizes_arg : Type :=
| OneSize (n : nat)
| SizeList (l : list nat).

Section Init.

(** The default initialisation of a parameter: [init_values shp s] is the
    tensor of shape [shp] drawn in generator state [s], with the next
    state. *)
Variable gen : Type.
Variable init_values : list nat -> gen -> tensor * gen.

(** [torch.nn.Linear(ind, outd, bias=bias)]: the weight, then the bias. *)
Definition new_Linear (ind outd : nat) (bias : bool) (s : gen)
  : (tensor * option tensor) * gen :=
  let '(w, s1) := init_values [outd; ind] s in
  if bias
  then let '(b, s2) := init_values [outd] s1 in ((w, Some b), s2)
  else ((w, None), s1).

(** The loop of the constructor over the pairs of consecutive layer sizes,
    [ind] being the size before the sizes that remain.  The alignment layer
    is built for every pair, and is the identity when the sizes agree. *)
Fixpoint init_layers (ind : nat) (hidden_sizes : list nat) (bias : bool)
  (s : gen) : (list (tensor * option tensor) * list align_layer) * gen :=
  match hidden_sizes with
  | [] => (([], []), s)
  | outd :: rest =>
      let '(gh, s1) := new_Linear ind (outd * 2) bias s in
      let '(al, s2) :=
        if negb (ind =? outd)%nat
        then let '((w, b), s') := new_Linear ind outd bias s1 in
             (AlignLinear w b, s')
        else (AlignIdentity, s1) in
      let '((gh_layers, als), s3) := init_layers outd rest bias s2 in
      ((gh :: gh_layers, al :: als), s3)
  end.

(** [MinGRU.__init__]; without [residual] no alignment layer is kept. *)
Definition MinGRU_init (input_size : nat) (hidden_sizes : sizes_arg)
  (dropout_arg : R) (residual_arg bias : bool) (s : gen) : MinGRU * gen :=
  let hidden_sizes :=
    match hidden_sizes with
    | OneSize n => [n]
    | SizeList l => l
    end in
  let '((gh_layers, als), s') := init_layers input_size hidden_sizes bias s in
  (mkMinGRU (input_size :: hidden_sizes) (length hidden_sizes) gh_layers
            (if residual_arg then als else [])
            (Rmax (Rmin dropout_arg 1) 0) residual_arg,
   s').

End Init.

(** ** What a run of [forward] returns, without the generator *)

Definition drop_gen {G : Type} (r : result (tensor * list tensor * G))
  : result (tensor * list tensor) :=
  match r with
  | Ok (out, next_hidden, _) => Ok (out, next_hidden)
  | Raise e => Raise e
  end.

Definition same_gen {G : Type} (s : G) (r : result (tensor * list tensor * G))
  : Prop :=
  match r with
  | Ok (_, _, s') => s' = s
  | Raise _ => True
  end.

(** ** Well-formed modules and hidden states *)

(** A [Linear] from [ind] to [outd] features with finite parameters. *)
Definition linear_ok (ind outd : nat) (l : tensor * option tensor) : Prop :=
  shape (fst l) = [outd; ind] /\ finite (fst l) /\ bias_ok (snd l) outd.

Definition align_ok (ind outd : nat) (al : align_layer) : Prop :=
  match al with
  | AlignLinear w b => linear_ok ind outd (w, b)
  | AlignIdentity => ind = outd
  end.

(** One gate-hidden layer for each hidden size, [ind] being the size before
    the first of them. *)
Fixpoint layers_ok (ind : nat) (sizes : list nat)
  (layers : list (tensor * option tensor)) : Prop :=
  match sizes, layers with
  | [], [] => True
  | outd :: sizes', l :: layers' =>
      linear_ok ind (2 * outd) l /\ layers_ok outd sizes' layers'
  | _, _ => False
  end.

Fixpoint aligns_ok (ind : nat) (sizes : list nat) (als : list align_layer)
  : Prop :=
  match sizes, als with
  | [], [] => True
  | outd :: sizes', al :: als' =>
      align_ok ind outd al /\ aligns_ok outd sizes' als'
  | _, _ => False
  end.

(** The layers exactly as the constructor builds them: a bias exactly
    when [bias] is set, and an alignment layer that is the identity exactly
    between equal sizes. *)
Definition linear_built (bias : bool) (ind outd : nat)
  (l : tensor * option tensor) : Prop :=
  linear_ok ind outd l /\ (if bias then snd l <> None else snd l = None).

Definition align_built (bias : bool) (ind outd : nat) (al : align_layer)
  : Prop :=
  match al with
  | AlignLinear w b => ind <> outd /\ linear_built bias ind outd (w, b)
  | AlignIdentity => ind = outd
  end.

Fixpoint layers_built (bias : bool) (ind : nat) (sizes : list nat)
  (layers : list (tensor * option tensor)) : Prop :=
  match sizes, layers with
  | [], [] => True
  | outd :: sizes', l :: layers' =>
      linear_built bias ind (2 * outd) l /\
      layers_built bias outd sizes' layers'
  | _, _ => False
  end.

Fixpoint aligns_built (bias : bool) (ind : nat) (sizes : list nat)
  (als : list align_layer) : Prop :=
  match sizes, als with
  | [], [] => True
  | outd :: sizes', al :: als' =>
      align_built bias ind outd al /\ aligns_built bias outd sizes' als'
  | _, _ => False
  end.

(** A hidden state that a layer of size [hidden_size] accepts for a batch of
    [B] sequences. *)
Definition state_ok (B hidden_size : nat) (t : tensor) : Prop :=
  shape t = [B; 1%nat; hidden_size] /\ positive t.

(** ** A sequence cut in two along the time axis *)

(** The finite tensor [x] of shape (B, n + m, I) is the finite [x1] of shape
    (B, n, I) followed by the finite [x2] of shape (B, m, I). *)
Definition pieces (B n m I : nat) (x x1 x2 : tensor) : Prop :=
  (shape x = [B; (n + m)%nat; I] /\ shape x1 = [B; n; I] /\
   shape x2 = [B; m; I]) /\
  (finite x /\ finite x1 /\ finite x2) /\
  forall b i, (b < B)%nat -> (i < I)%nat ->
    (forall t, (t < n)%nat -> data x [b; t; i] = data x1 [b; t; i]) /\
    (forall t, (t < m)%nat -> data x [b; (t + n)%nat; i] = data x2 [b; t; i]).

(** ** [selective_copying.py]: the data of the copying task *)

(** A tensor of integers of shape [lbatch ++ [k]], as the list of its rows
    of length [k] in row-major order of the batch indices. *)
Record long_tensor : Type := mkL {
  lbatch : list nat;
  rows : list (list Z)
}.

(** The input returned: the integer tensor, or its one-hot encoding with
    one more dimension. *)
Inductive x_tensor : Type :=
| XLong (t : long_tensor)
| XOneHot (batch : list nat) (vectors : list (list (list R))).

(** Ascending sort of a row. *)
Fixpoint insert (a : nat) (l : list nat) : list nat :=
  match l with
  | [] => [a]
  | b :: l' => if (a <=? b)%nat then a :: l else b :: insert a l'
  end.

Fixpoint sort (l : list nat) : list nat :=
  match l with
  | [] => []
  | a :: l' => insert a (sort l')
  end.

(** [l[i] = v] for [i] in range. *)
Fixpoint upd {A : Type} (i : nat) (v : A) (l : list A) : list A :=
  match l, i with
  | [], _ => []
  | _ :: l', O => v :: l'
  | a :: l', S i' => a :: upd i' v l'
  end.

(** [scatter_] along the last dimension, on one row:
    [row[index[j]] = src[j]] for every position [j] of [index]. *)
Fixpoint scatter_row (row : list Z) (index : list nat) (src : list Z)
  : result (list Z) :=
  match index with
  | [] => Ok row
  | i :: index' =>
      match src with
      | [] => Raise RuntimeError
      | v :: src' =>
          if (i <? length row)%nat
          then scatter_row (upd i v row) index' src'
          else Raise RuntimeError
      end
  end.

Fixpoint scatter_ (self : list (list Z)) (index : list (list nat))
  (src : list (list Z)) : result (list (list Z)) :=
  match index with
  | [] => Ok self
  | idx :: index' =>
      match self, src with
      | row :: self', v :: src' =>
          r <- scatter_row row idx v ;;
          rs <- scatter_ self' index' src' ;;
          Ok (r :: rs)
      | _, _ => Raise RuntimeError
      end
  end.

(** [torch.cat([a, b], dim=-1)] on tensors with the same batch. *)
Fixpoint cat_last (a b : list (list Z)) : list (list Z) :=
  match a, b with
  | ra :: a', rb :: b' => (ra ++ rb) :: cat_last a' b'
  | _, _ => []
  end.

Definition flip (t : list (list Z)) : list (list Z) := map (@rev Z) t.

(** An integer that torch takes as an argument is a 64-bit signed
    integer; a Python integer outside of that range is refused. *)
Definition in_int64 (v : Z) : bool :=
  (- 2 ^ 63 <=? v)%Z && (v <? 2 ^ 63)%Z.

(** [F.one_hot(t, num_classes).float()]; a value outside of the classes
    is an error. *)
Definition one_hot (t : list (list Z)) (num_classes : Z)
  : result (list (list (list R))) :=
  if negb (in_int64 num_classes) then Raise ValueError
  else if forallb (forallb (fun v => (0 <=? v)%Z && (v <? num_classes)%Z)) t
  then Ok (map (map (fun v =>
                  map (fun c => if (v =? Z.of_nat c)%Z then 1 else 0)
                      (seq 0 (Z.to_nat num_classes)))) t)
  else Raise RuntimeError.

Section CopyingData.

(** The random generator: [randint low high n k s] is the tensor of [n]
    rows of [k] integers drawn in state [s], and [randperm k s] the
    permutation of [0 .. k - 1] drawn in state [s], each with the next
    state. *)
Variable gen : Type.
Variable randint : Z -> Z -> nat -> nat -> gen -> list (list Z) * gen.
Variable randperm : nat -> gen -> list nat * gen.

(** [[torch.randperm(L + M)[:M] for _ in range(total_batch)]]. *)
Fixpoint draw_inds (L M total_batch : nat) (s : gen)
  : list (list nat) * gen :=
  match total_batch with
  | O => ([], s)
  | S k =>
      let '(p, s1) := randperm (L + M) s in
      let '(rest, s2) := draw_inds L M k s1 in
      (firstn M p :: rest, s2)
  end.

(** [torch_copying_data] for sizes [L] and [M] that are not negative.
    [torch.randint] refuses a bound [A - 1] that is not a 64-bit signed
    integer, then an empty range, and [torch.stack] an empty list. *)
Definition torch_copying_data (L M : nat) (A : Z) (variable : bool)
  (batch_shape : list nat) (one_hot_arg reverse : bool) (s : gen)
  : result (x_tensor * long_tensor * gen) :=
  if negb (in_int64 (A - 1)) then Raise ValueError
  else if (A - 1 <=? 1)%Z then Raise RuntimeError
  else
    let '(tokens, s1) := randint 1 (A - 1) (numel batch_shape) M s in
    '(inds, s2) <-
      (if variable
       then
         let total_batch := numel batch_shape in
         let '(l, s2) := draw_inds L M total_batch s1 in
         match l with
         | [] => Raise RuntimeError
         | _ :: _ => Ok (map sort l, s2)
         end
       else Ok (repeat (seq 0 M) (numel batch_shape), s1)) ;;
    let zeros_x := repeat (repeat 0%Z (M + L)) (numel batch_shape) in
    zeros_x <- scatter_ zeros_x inds tokens ;;
    let markers := repeat (repeat (A - 1)%Z M) (numel batch_shape) in
    let x_ := cat_last zeros_x markers in
    let y_ := tokens in
    let y_ := if reverse then flip y_ else y_ in
    x <- (if one_hot_arg
          then v <- one_hot x_ A ;; Ok (XOneHot batch_shape v)
          else Ok (XLong (mkL batch_shape x_))) ;;
    Ok (x, mkL batch_shape y_, s2).

End CopyingData.

Definition nonzero (v : Z) : bool := negb (v =? 0)%Z.

(** What the random generator is assumed to return: the number of rows and
    of values asked for, each value in the range, and a permutation. *)
Definition randint_ok {gen : Type}
  (randint : Z -> Z -> nat -> nat -> gen -> list (list Z) * gen) : Prop :=
  forall low high n k s, (low < high)%Z ->
    length (fst (randint low high n k s)) = n /\
    Forall (fun row => length row = k /\
                       Forall (fun v => (low <= v < high)%Z) row)
           (fst (randint low high n k s)).

Definition randperm_ok {gen : Type}
  (randperm : nat -> gen -> list nat * gen) : Prop :=
  forall k s, Permutation (seq 0 k) (fst (randperm k s)).

(** A row of [M] tokens of the alphabet of size [A]: neither the padding 0
    nor the marker [A - 1]. *)
Definition tokens_ok (M : nat) (A : Z) (row : list Z) : Prop :=
  length row = M /\ Forall (fun v => (1 <= v < A - 1)%Z) row.

(** ** Float32 arithmetic *)

(** [2 ^ k] for an integer [k]. *)
Definition bpow (k : Z) : R := exp (IZR k * ln 2).

(** The integer nearest to [y], the even one of two at the same distance. *)
Definition rne (y : R) : Z :=
  let f := Int_part y in
  if Rlt_dec (y - IZR f) (1 / 2) then f
  else if Rlt_dec (1 / 2) (y - IZR f) then (f + 1)%Z
  else if Z.even f then f else (f + 1)%Z.

(** The exponent of the last place of binary32 at [x]: 24 bits of
    precision, and the subnormal spacing [2 ^ -149] below [2 ^ -126]. *)
Definition ulp_exp32 (x : R) : Z :=
  Z.max (Int_part (ln (Rabs x) / ln 2) - 23) (-149).

(** The binary32 number nearest to [x], ties to even; a result of
    magnitude [2 ^ 128] or more is an infinity.  The sign of zero is not
    kept. *)
Definition round32 (x : R) : fval :=
  if Rlt_dec 0 (Rabs x)
  then
    let e := ulp_exp32 x in
    let r := IZR (rne (x / bpow e)) * bpow e in
    if Rle_dec (bpow 128) (Rabs r)
    then (if Rlt_dec 0 x then PInf else NInf)
    else Fin r
  else Fin 0.

Definition fround (v : fval) : fval :=
  match v with
  | Fin r => round32 r
  | _ => v
  end.

(** The float32 operations: the exact result, rounded.  For [sigmoid] this
    is the best result that an implementation can return. *)
Definition fadd32 (a b : fval) : fval := fround (fadd a b).
Definition fsigmoid32 (v : fval) : fval := fround (fsigmoid v).

(** ** [functional.py] in float32: the activation and the sequential step *)

Definition g_elem32 (v : fval) : fval :=
  if fge0 v then fadd32 v (Fin (1 / 2)) else fsigmoid32 v.

Definition g32 (x : tensor) : tensor := tmap g_elem32 x.







(** ** Facts on the scalar functions *)

Lemma sigmoid_pos x : 0 < sigmoid x.
Proof.
  unfold sigmoid. apply Rinv_0_lt_compat.
  pose proof (exp_pos (- x)). lra.
Qed.

Lemma sigmoid_lt_1 x : sigmoid x < 1.
Proof.
  unfold sigmoid. pose proof (exp_pos (- x)) as He.
  replace 1 with (/ 1) at 2 by apply Rinv_1.
  apply Rinv_lt_contravar; lra.
Qed.

Lemma sigmoid_0 : sigmoid 0 = 1 / 2.
Proof. unfold sigmoid. rewrite Ropp_0, exp_0. lra. Qed.

Lemma exp_neg_softplus x : exp (- softplus x) = 1 - sigmoid x.
Proof.
  unfold softplus, sigmoid.
  pose proof (exp_pos x) as Hx. pose proof (exp_pos (- x)) as Hnx.
  rewrite exp_Ropp, exp_ln by lra.
  assert (Hinv : exp (- x) = / exp x) by apply exp_Ropp.
  rewrite Hinv. field. split; lra.
Qed.

Lemma exp_neg_softplus_neg x : exp (- softplus (- x)) = sigmoid x.
Proof.
  unfold softplus, sigmoid. pose proof (exp_pos (- x)).
  rewrite exp_Ropp, exp_ln by lra. reflexivity.
Qed.

Lemma g_real_pos x : 0 < g_real x.
Proof.
  unfold g_real. destruct (Rle_dec 0 x); [lra | apply sigmoid_pos].
Qed.

Lemma g_elem_Fin r : g_elem (Fin r) = Fin (g_real r).
Proof.
  unfold g_elem, g_real; simpl. destruct (Rle_dec 0 r); reflexivity.
Qed.

Lemma exp_log_g_elem r : fexp (log_g_elem (Fin r)) = Fin (g_real r).
Proof.
  unfold log_g_elem, g_real; simpl. destruct (Rle_dec 0 r) as [Hr | Hr]; simpl.
  - destruct (Rlt_dec 0 (r + 1 / 2)) as [Hp | Hp]; [| lra].
    simpl. rewrite exp_ln by lra. reflexivity.
  - rewrite exp_neg_softplus_neg. reflexivity.
Qed.

Lemma log_g_elem_Fin r : log_g_elem (Fin r) = Fin (ln (g_real r)).
Proof.
  unfold log_g_elem, g_real; simpl. destruct (Rle_dec 0 r) as [Hr | Hr]; simpl.
  - destruct (Rlt_dec 0 (r + 1 / 2)) as [Hp | Hp]; [reflexivity | lra].
  - f_equal. rewrite <- (ln_exp (- softplus (- r))).
    rewrite exp_neg_softplus_neg. reflexivity.
Qed.

Lemma sigmoid_continuous_0 : continuity_pt sigmoid 0.
Proof.
  unfold sigmoid.
  apply (continuity_pt_inv (fun x => 1 + exp (- x))).
  - apply (continuity_pt_plus (fun _ => 1) (fun x => exp (- x))).
    + apply continuity_pt_const. intros a b; reflexivity.
    + apply (continuity_pt_comp (fun x => - x) exp).
      * apply (continuity_pt_opp (fun x => x)).
        apply derivable_continuous_pt, derivable_pt_id.
      * apply derivable_continuous_pt, derivable_pt_exp.
  - pose proof (exp_pos (- 0)). lra.
Qed.

Lemma g_real_continuous_0 : continuity_pt g_real 0.
Proof.
  intros eps Heps.
  destruct (sigmoid_continuous_0 eps Heps) as (d & Hd & Hs).
  exists (Rmin d eps). split.
  - apply Rmin_pos; assumption.
  - intros x [[_ Hne] Hdist]. unfold dist in *; simpl in *.
    unfold Rdist in *.
    assert (Hg0 : g_real 0 = 1 / 2).
    { unfold g_real. destruct (Rle_dec 0 0); lra. }
    rewrite Hg0. unfold g_real.
    destruct (Rle_dec 0 x) as [Hx | Hx].
    + replace (x + 1 / 2 - 1 / 2) with (x - 0) by lra.
      eapply Rlt_le_trans; [exact Hdist | apply Rmin_r].
    + rewrite <- sigmoid_0. apply Hs. split.
      * split; [exact I | exact Hne].
      * eapply Rlt_le_trans; [exact Hdist | apply Rmin_l].
Qed.

(** ** Indices and shapes *)

Lemma in_range_cons d s i idx :
  in_range (d :: s) (i :: idx) <-> (i < d)%nat /\ in_range s idx.
Proof.
  unfold in_range. split.
  - intros H. inversion H; subst. split; assumption.
  - intros [H1 H2]. constructor; assumption.
Qed.

Lemma in_range_nil : in_range [] [].
Proof. constructor. Qed.

Lemma in_range_length s idx : in_range s idx -> length idx = length s.
Proof. unfold in_range. apply Forall2_length. Qed.

Lemma in_range_inv_cons d s idx :
  in_range (d :: s) idx ->
  exists i r, idx = i :: r /\ (i < d)%nat /\ in_range s r.
Proof.
  unfold in_range. intros H. inversion H; subst. eauto.
Qed.

Lemma in_range_inv_nil idx : in_range [] idx -> idx = [].
Proof. unfold in_range. intros H. inversion H. reflexivity. Qed.

(** Splits a hypothesis [in_range [d1; ..; dn] idx] into the components of
    [idx] and their bounds. *)
Ltac split_range H :=
  let i := fresh "i" in
  let r := fresh "r" in
  let Hi := fresh "Hi" in
  first
    [ apply in_range_inv_nil in H; subst
    | apply in_range_inv_cons in H;
      destruct H as (i & r & -> & Hi & H); split_range H ].

Ltac solve_range :=
  repeat (apply in_range_cons; split; [lia |]); apply in_range_nil.

Lemma shape_eqb_refl s : shape_eqb s s = true.
Proof.
  induction s as [| a s IH]; simpl; [reflexivity |].
  rewrite Nat.eqb_refl, IH. reflexivity.
Qed.


Lemma bdim_same a : bdim a a = Some a.
Proof. unfold bdim. rewrite Nat.eqb_refl. reflexivity. Qed.

Lemma bshape_rev_same s : bshape_rev s s = Some s.
Proof.
  induction s as [| a s IH]; simpl; [reflexivity |].
  rewrite bdim_same, IH. reflexivity.
Qed.

Lemma bshape_same s : bshape s s = Some s.
Proof.
  unfold bshape. rewrite bshape_rev_same. simpl. rewrite rev_involutive.
  reflexivity.
Qed.

Lemma bidx_aligned s idx :
  in_range s idx ->
  map (fun '(d, i) => if (d =? 1)%nat then O else i) (combine s idx) = idx.
Proof.
  unfold in_range. intros H. induction H as [| i d idx s Hlt _ IH]; simpl.
  - reflexivity.
  - rewrite IH. destruct (Nat.eqb_spec d 1); [f_equal; lia | reflexivity].
Qed.

Lemma bidx_same s idx : in_range s idx -> bidx s idx = idx.
Proof.
  intros H. unfold bidx. rewrite (in_range_length _ _ H), Nat.sub_diag.
  simpl. apply bidx_aligned. assumption.
Qed.

(** An elementwise operation on two tensors of one shape. *)
Lemma tzip_same f a b :
  shape a = shape b ->
  exists t, tzip f a b = Ok t /\ shape t = shape a /\
            forall idx, in_range (shape a) idx ->
                        data t idx = f (data a idx) (data b idx).
Proof.
  intros Hs. unfold tzip. rewrite <- Hs, bshape_same.
  eexists. split; [reflexivity |]. split; [reflexivity |].
  intros idx Hidx. simpl. rewrite bidx_same by assumption. reflexivity.
Qed.

(** ** Finite elements *)

Lemma is_finite_toR v : is_finite v -> v = Fin (toR v).
Proof. intros [r ->]. reflexivity. Qed.

Lemma fsum_Fin n f fr :
  (forall i, (i < n)%nat -> f i = Fin (fr i)) -> fsum n f = Fin (rsum n fr).
Proof.
  induction n as [| n IH]; intros H; simpl; [reflexivity |].
  rewrite IH by (intros; apply H; lia). rewrite H by lia. reflexivity.
Qed.


Lemma prefix_Fin op rop f fr t :
  (forall a b, op (Fin a) (Fin b) = Fin (rop a b)) ->
  (forall j, (j <= t)%nat -> f j = Fin (fr j)) ->
  prefix op f t = Fin (rprefix rop fr t).
Proof.
  intros Hop. induction t as [| t IH]; intros H; simpl.
  - apply H. lia.
  - rewrite IH by (intros; apply H; lia). rewrite H by lia. apply Hop.
Qed.

Lemma rprefix_ext op f1 f2 t :
  (forall j, (j <= t)%nat -> f1 j = f2 j) -> rprefix op f1 t = rprefix op f2 t.
Proof.
  induction t as [| t IH]; intros H; simpl.
  - apply H. lia.
  - rewrite IH by (intros; apply H; lia). rewrite H by lia. reflexivity.
Qed.

(** ** The operations on well-shaped inputs *)

Lemma bias_ok_shape bias outd : bias_ok bias outd -> bias_shape bias outd.
Proof. destruct bias; simpl; [intros [H _]; exact H | trivial]. Qed.

Lemma linear3_gen B T I outd x w bias :
  shape x = [B; T; I] -> shape w = [outd; I] -> bias_shape bias outd ->
  exists y, linear x w bias = Ok y /\ shape y = [B; T; outd] /\
    forall b t j, data y [b; t; j] = lin_f I x w bias b t j.
Proof.
  intros Hx Hw Hb. unfold linear. rewrite Hw, Hx. simpl.
  rewrite Nat.eqb_refl. simpl.
  destruct bias as [bt |].
  - simpl in Hb. rewrite Hb. simpl. rewrite Nat.eqb_refl. simpl.
    eexists. split; [reflexivity |]. split; reflexivity.
  - eexists. split; [reflexivity |]. split; reflexivity.
Qed.

Lemma half_double n : ((2 * n + 1) / 2 = n)%nat.
Proof.
  replace (2 * n + 1)%nat with (1 + n * 2)%nat by lia.
  rewrite Nat.div_add by lia. reflexivity.
Qed.

Lemma double_neq_1 n : (2 * n =? 1)%nat = false.
Proof. apply Nat.eqb_neq. lia. Qed.

(** The two halves of a last dimension of even size. *)
Lemma chunk2_last3_spec B T Hd y :
  shape y = [B; T; (2 * Hd)%nat] ->
  exists gate hidden,
    chunk2 (last_dim y) y = Ok (gate, hidden) /\
    shape gate = [B; T; Hd] /\ shape hidden = [B; T; Hd] /\
    (forall b t c, data gate [b; t; c] = data y [b; t; c]) /\
    (forall b t c, data hidden [b; t; c] = data y [b; t; (c + Hd)%nat]).
Proof.
  intros Hy. unfold chunk2, last_dim. rewrite Hy.
  cbn [length Nat.sub nth_error].
  rewrite double_neq_1, half_double.
  do 2 eexists. split; [reflexivity |].
  unfold narrow; rewrite Hy; cbn [shape data set_at shift_at].
  repeat split.
  - f_equal. f_equal. f_equal. lia.
  - intros b t c. rewrite Nat.add_0_r. reflexivity.
Qed.

(** The one-step update on well-shaped inputs, whatever the values. *)
Lemma mingru_sequential_gen B I Hd x h w bias :
  shape x = [B; 1%nat; I] -> shape h = [B; 1%nat; Hd] ->
  shape w = [(2 * Hd)%nat; I] -> bias_shape bias (2 * Hd) ->
  exists out, mingru_sequential x h w bias = Ok out /\
    shape out = [B; 1%nat; Hd] /\
    forall b c, (b < B)%nat -> (c < Hd)%nat ->
      data out [b; O; c]
      = step_f (lin_f I x w bias b 0 c) (lin_f I x w bias b 0 (c + Hd))
               (data h [b; O; c]).
Proof.
  intros Hx Hh Hw Hb.
  destruct (linear3_gen _ _ _ _ _ _ _ Hx Hw Hb) as (y & Ey & Sy & Dy).
  destruct (chunk2_last3_spec _ _ _ _ Sy)
    as (gate & hidden & Ec & Sg & Shid & Dg & Dhid).
  unfold mingru_sequential. rewrite Ey. cbn [bind]. rewrite Ec. cbn [bind].
  destruct (tzip_same fmul (rsub 1 (sigmoid_t gate)) h) as (keep & Ek & Sk & Dk).
  { simpl. congruence. }
  destruct (tzip_same fmul (sigmoid_t gate) (g hidden)) as (new & En & Sn & Dn).
  { simpl. congruence. }
  unfold mul. rewrite Ek. cbn [bind]. rewrite En. cbn [bind].
  destruct (tzip_same fadd keep new) as (out & Eo & So & Do).
  { simpl in *. congruence. }
  unfold add. rewrite Eo. exists out. split; [reflexivity |].
  simpl in Sk, Sn, Dk, Dn. rewrite Sk, Sg in So.
  split; [assumption |].
  intros b c Hb' Hc.
  rewrite Do by (rewrite Sk, Sg; solve_range).
  rewrite Dk, Dn by (rewrite Sg; solve_range).
  rewrite Dg, Dhid, !Dy. reflexivity.
Qed.

(** ** The scan on one lane *)

Lemma prefix_ext op f1 f2 t :
  (forall j, (j <= t)%nat -> f1 j = f2 j) -> prefix op f1 t = prefix op f2 t.
Proof.
  induction t as [| t IH]; intros H; simpl.
  - apply H. lia.
  - rewrite IH by (intros; apply H; lia). rewrite H by lia. reflexivity.
Qed.

(** Slot [t] depends on the log-coefficients before [t] and on the
    log-values up to [t] only. *)
Lemma scan_lane_f_ext fa fa' fb fb' t :
  (forall k, (k < t)%nat -> fa k = fa' k) ->
  (forall j, (j <= t)%nat -> fb j = fb' j) ->
  scan_lane_f fa fb t = scan_lane_f fa' fb' t.
Proof.
  intros Ha Hb. unfold scan_lane_f.
  assert (HA : forall j, (j <= t)%nat ->
            prefix fadd (fun i => match i with O => Fin 0 | S k => fa k end) j
            = prefix fadd (fun i => match i with O => Fin 0 | S k => fa' k end) j).
  { intros j Hj. apply prefix_ext. intros [| k] Hk; [reflexivity |].
    apply Ha. lia. }
  assert (Hm : prefix fmax (fun j => fsub (fb j)
                 (prefix fadd (fun i => match i with
                                        | O => Fin 0 | S k => fa k end) j)) t
               = prefix fmax (fun j => fsub (fb' j)
                 (prefix fadd (fun i => match i with
                                        | O => Fin 0 | S k => fa' k end) j)) t).
  { apply prefix_ext. intros j Hj. rewrite Hb, HA by assumption. reflexivity. }
  rewrite Hm, HA by lia. do 4 f_equal. apply prefix_ext. intros j Hj.
  rewrite Hb, HA by assumption. reflexivity.
Qed.

Lemma prefix_fmax_NaN f t : f O = NaN -> prefix fmax f t = NaN.
Proof.
  intros H0. induction t as [| t IH]; simpl; [assumption |].
  rewrite IH. reflexivity.
Qed.

Lemma fadd_NaN_r v : fadd v NaN = NaN.
Proof. destruct v; reflexivity. Qed.

(** A NaN in the initial slot of the log-values reaches every slot. *)
Lemma scan_lane_f_NaN fa fb t : fb O = NaN -> scan_lane_f fa fb t = NaN.
Proof.
  intros H0. unfold scan_lane_f.
  rewrite (prefix_fmax_NaN _ t) by (simpl; rewrite H0; reflexivity).
  rewrite !fadd_NaN_r. reflexivity.
Qed.

Lemma rprefix_plus_scale f c t :
  rprefix Rplus (fun j => f j * c) t = rprefix Rplus f t * c.
Proof.
  induction t as [| t IH]; simpl; [reflexivity |]. rewrite IH. ring.
Qed.

Lemma rprefix_plus_pos f t :
  (forall j, (j <= t)%nat -> 0 < f j) -> 0 < rprefix Rplus f t.
Proof.
  induction t as [| t IH]; intros H; simpl.
  - apply H. lia.
  - assert (0 < rprefix Rplus f t) by (apply IH; intros; apply H; lia).
    assert (0 < f (S t)) by (apply H; lia). lra.
Qed.

(** The shifted sum of exponentials is the plain one: the running maximum
    (or any other shift [M]) cancels. *)
Lemma logsumexp_shift d M t :
  exp (ln (rprefix Rplus (fun j => exp (d j - M)) t) + M)
  = rprefix Rplus (fun j => exp (d j)) t.
Proof.
  rewrite exp_plus, exp_ln.
  - rewrite <- rprefix_plus_scale. apply rprefix_ext. intros j _.
    rewrite <- exp_plus. f_equal. ring.
  - apply rprefix_plus_pos. intros j _. apply exp_pos.
Qed.

(** The closed form of steps 2 to 6 satisfies the recurrence. *)
Lemma scan_closed_form a bv t :
  exp (rprefix Rplus (lead0 a) t)
  * rprefix Rplus (fun j => exp (bv j - rprefix Rplus (lead0 a) j)) t
  = scan_r a bv t.
Proof.
  induction t as [| t IH]; simpl.
  - rewrite <- exp_plus. f_equal. ring.
  - rewrite <- IH. rewrite Rmult_plus_distr_l.
    rewrite <- (exp_plus _ (bv (S t) - _)).
    replace (rprefix Rplus (lead0 a) t + a t
             + (bv (S t) - (rprefix Rplus (lead0 a) t + a t)))
      with (bv (S t)) by ring.
    rewrite (exp_plus _ (a t)). ring.
Qed.

(** Steps 1 to 6 of the scan on a lane of finite log-coefficients and
    log-values. *)
Lemma scan_lane (fa fb : nat -> fval) (a bv : nat -> R) (t : nat) :
  (forall k, (k < t)%nat -> fa k = Fin (a k)) ->
  (forall j, (j <= t)%nat -> fb j = Fin (bv j)) ->
  scan_lane_f fa fb t = Fin (scan_r a bv t).
Proof.
  intros Ha Hb.
  pose (A := fun j => prefix fadd (fun i => match i with
                                            | O => Fin 0 | S k => fa k end) j).
  pose (D := fun j => fsub (fb j) (A j)).
  change (scan_lane_f fa fb t)
    with (fexp (fadd (A t)
                 (fadd (flog (prefix fadd
                                (fun j => fexp (fsub (D j) (prefix fmax D t))) t))
                       (prefix fmax D t)))).
  assert (HA : forall j, (j <= t)%nat -> A j = Fin (rprefix Rplus (lead0 a) j)).
  { intros j Hj. unfold A. apply prefix_Fin; [reflexivity |].
    intros [| k] Hk; [reflexivity |]. simpl. apply Ha. lia. }
  set (dr := fun j => bv j - rprefix Rplus (lead0 a) j).
  assert (HD : forall j, (j <= t)%nat -> D j = Fin (dr j)).
  { intros j Hj. unfold D. rewrite Hb, HA by assumption. reflexivity. }
  assert (Hm : prefix fmax D t = Fin (rprefix Rmax dr t)).
  { apply prefix_Fin; [reflexivity | assumption]. }
  set (M := rprefix Rmax dr t) in *.
  assert (Hsum : prefix fadd (fun j => fexp (fsub (D j) (prefix fmax D t))) t
                 = Fin (rprefix Rplus (fun j => exp (dr j - M)) t)).
  { apply prefix_Fin; [reflexivity |]. intros j Hj.
    rewrite HD, Hm by assumption. reflexivity. }
  rewrite Hsum, Hm, HA by lia. simpl.
  destruct (Rlt_dec 0 (rprefix Rplus (fun j => exp (dr j - M)) t)) as [Hp | Hp].
  - simpl. f_equal. rewrite exp_plus, logsumexp_shift.
    apply scan_closed_form.
  - exfalso. apply Hp. apply rprefix_plus_pos. intros j _. apply exp_pos.
Qed.

(** On the log-coefficients and log-values that [mingru_parallel] builds,
    the recurrence of the scan is the recurrence of the sequential step. *)
Lemma scan_r_hseq a bv gate cand h0 n :
  0 < h0 -> bv O = ln h0 ->
  (forall k, (k < n)%nat -> a k = - softplus (gate k)) ->
  (forall k, (k < n)%nat ->
             bv (S k) = - softplus (- gate k) + ln (g_real (cand k))) ->
  scan_r a bv n = hseq gate cand h0 n.
Proof.
  intros Hh H0. induction n as [| n IH]; intros Ha Hb; simpl.
  - rewrite H0. apply exp_ln. assumption.
  - rewrite IH; [| intros; apply Ha; lia | intros; apply Hb; lia].
    rewrite Ha, Hb by lia.
    rewrite exp_neg_softplus, exp_plus, exp_neg_softplus_neg.
    rewrite exp_ln by apply g_real_pos. reflexivity.
Qed.

(** The lane of [mingru_parallel] on finite logits and a positive initial
    state. *)
Lemma par_lane_f_Fin gate cand gr cr h0 t :
  0 < h0 ->
  (forall k, (k < t)%nat -> gate k = Fin (gr k)) ->
  (forall k, (k < t)%nat -> cand k = Fin (cr k)) ->
  par_lane_f gate cand (Fin h0) t = Fin (hseq gr cr h0 t).
Proof.
  intros Hh Hg Hc. unfold par_lane_f.
  rewrite (scan_lane _ _
             (fun k => - softplus (gr k))
             (fun j => match j with
                       | O => ln h0
                       | S k => - softplus (- gr k) + ln (g_real (cr k))
                       end)).
  - f_equal. apply scan_r_hseq; [assumption | reflexivity | |];
      intros; reflexivity.
  - intros k Hk. rewrite Hg by assumption. reflexivity.
  - intros [| k] Hk.
    + simpl. destruct (Rlt_dec 0 h0); [reflexivity | contradiction].
    + rewrite Hg, Hc by lia. rewrite log_g_elem_Fin. reflexivity.
Qed.

(** ** The scan on tensors *)

Lemma parallel_scan_log_gen B T rs lc lv :
  shape lc = B :: T :: rs -> shape lv = B :: S T :: rs ->
  exists hs, parallel_scan_log lc lv = Ok hs /\ shape hs = B :: S T :: rs /\
    forall b t r, (b < B)%nat -> (t <= T)%nat -> in_range rs r ->
      data hs (b :: t :: r)
      = scan_lane_f (fun k => data lc (b :: k :: r))
                    (fun j => data lv (b :: j :: r)) t.
Proof.
  intros Hlc Hlv. unfold parallel_scan_log.
  set (a_star := cumsum1 (pad_front1 lc)).
  assert (Sa : shape a_star = B :: S T :: rs).
  { unfold a_star. simpl. rewrite Hlc. reflexivity. }
  assert (HA : forall b j r, data a_star (b :: j :: r)
               = prefix fadd (fun i => match i with
                                       | O => Fin 0
                                       | S k => data lc (b :: k :: r)
                                       end) j).
  { intros b j r. unfold a_star. simpl. apply prefix_ext.
    intros [| k] _; reflexivity. }
  clearbody a_star.
  destruct (tzip_same fsub lv a_star) as (d & Ed & Sd & Dd); [congruence |].
  unfold sub. rewrite Ed. cbn [bind].
  destruct (tzip_same fadd a_star (logcumsumexp1 d)) as (lh & El & Sl & Dl).
  { change (shape (logcumsumexp1 d)) with (shape d). congruence. }
  unfold add. rewrite El. cbn [bind].
  eexists. split; [reflexivity |].
  split; [change (shape lh = B :: S T :: rs); congruence |].
  intros b t r Hb Ht Hr.
  assert (Hin : forall j, (j <= t)%nat -> in_range (B :: S T :: rs) (b :: j :: r)).
  { intros j Hj. apply in_range_cons; split; [lia |].
    apply in_range_cons; split; [lia | assumption]. }
  change (data (exp_t lh) (b :: t :: r)) with (fexp (data lh (b :: t :: r))).
  rewrite Dl by (rewrite Sa; apply Hin; lia).
  assert (HD : forall j, (j <= t)%nat ->
               data d (b :: j :: r)
               = fsub (data lv (b :: j :: r)) (data a_star (b :: j :: r))).
  { intros j Hj. apply Dd. rewrite Hlv. apply Hin. assumption. }
  unfold scan_lane_f, logcumsumexp1, cummax1, lane, pos1. cbn [data nth].
  rewrite HA.
  assert (Hm : prefix fmax (fun j => data d (b :: j :: r)) t
               = prefix fmax (fun j => fsub (data lv (b :: j :: r))
                   (prefix fadd (fun i => match i with
                                          | O => Fin 0
                                          | S k => data lc (b :: k :: r)
                                          end) j)) t).
  { apply prefix_ext. intros j Hj. rewrite HD, HA by assumption. reflexivity. }
  rewrite Hm. do 4 f_equal. apply prefix_ext. intros j Hj.
  rewrite HD, HA by assumption. reflexivity.
Qed.

Lemma cat1_spec B T1 T2 rs a b :
  shape a = B :: T1 :: rs -> shape b = B :: T2 :: rs ->
  exists t, cat1 a b = Ok t /\ shape t = B :: (T1 + T2)%nat :: rs /\
    forall i j r,
      data t (i :: j :: r)
      = if (j <? T1)%nat then data a (i :: j :: r)
        else data b (i :: (j - T1)%nat :: r).
Proof.
  intros Ha Hb. unfold cat1. rewrite Ha, Hb, Nat.eqb_refl, shape_eqb_refl.
  simpl. eexists. split; [reflexivity |]. split; reflexivity.
Qed.

Lemma tail1_spec B T rs t :
  shape t = B :: S T :: rs ->
  exists u, tail1 t = Ok u /\ shape u = B :: T :: rs /\
    forall i j r, data u (i :: j :: r) = data t (i :: S j :: r).
Proof.
  intros Ht. unfold tail1. rewrite Ht. cbn [nth_error].
  eexists. split; [reflexivity |]. unfold narrow. rewrite Ht.
  cbn [shape data set_at shift_at]. split.
  - rewrite Nat.sub_succ, Nat.sub_0_r. reflexivity.
  - intros i j r. rewrite Nat.add_1_r. reflexivity.
Qed.

(** The statements of the parallel branch after the projection: from gate
    and candidate logits of shape [B :: T :: rs] and an initial state of
    shape [B :: 1 :: rs] to the hidden states. *)
Lemma parallel_body_gen B T rs gate hidden h :
  shape gate = B :: T :: rs -> shape hidden = B :: T :: rs ->
  shape h = B :: 1%nat :: rs ->
  exists out,
    (v <- add (neg_t (softplus_t (neg_t gate))) (log_g hidden) ;;
     log_values <- cat1 (log_t h) v ;;
     hs <- parallel_scan_log (neg_t (softplus_t gate)) log_values ;;
     tail1 hs) = Ok out /\
    shape out = B :: T :: rs /\
    forall b t r, (b < B)%nat -> (t < T)%nat -> in_range rs r ->
      data out (b :: t :: r)
      = par_lane_f (fun k => data gate (b :: k :: r))
                   (fun k => data hidden (b :: k :: r))
                   (data h (b :: O :: r)) (S t).
Proof.
  intros Sg Shid Hh.
  set (log_z := neg_t (softplus_t (neg_t gate))).
  set (log_coeffs := neg_t (softplus_t gate)).
  destruct (tzip_same fadd log_z (log_g hidden)) as (v & Ev & Sv & Dv).
  { simpl. congruence. }
  unfold add at 1. rewrite Ev. cbn [bind].
  assert (Sv' : shape v = B :: T :: rs) by (rewrite Sv; simpl; assumption).
  destruct (cat1_spec B 1 T rs (log_t h) v) as (lv & Elv & Slv & Dlv);
    [simpl; assumption | assumption |].
  rewrite Elv. cbn [bind].
  destruct (parallel_scan_log_gen B T rs log_coeffs lv)
    as (hs & Ehs & Shs & Dhs); [simpl; assumption | assumption |].
  rewrite Ehs. cbn [bind].
  destruct (tail1_spec _ _ _ _ Shs) as (out & Eo & So & Do).
  exists out. split; [assumption |]. split; [assumption |].
  intros b t r Hb Ht Hr. rewrite Do, Dhs by (assumption || lia).
  unfold par_lane_f. apply scan_lane_f_ext.
  - intros k Hk. reflexivity.
  - intros [| k] Hk.
    + rewrite Dlv. reflexivity.
    + rewrite Dlv. cbn [Nat.ltb Nat.leb]. rewrite Nat.sub_succ, Nat.sub_0_r.
      rewrite Dv; [reflexivity |]. simpl. rewrite Sg.
      apply in_range_cons; split; [lia |].
      apply in_range_cons; split; [lia | assumption].
Qed.

(** The parallel evaluation on well-shaped inputs, whatever the values. *)
Lemma mingru_parallel_gen B T I Hd x h w bias :
  shape x = [B; T; I] -> shape h = [B; 1%nat; Hd] ->
  shape w = [(2 * Hd)%nat; I] -> bias_shape bias (2 * Hd) ->
  exists out, mingru_parallel x h w bias = Ok out /\
    shape out = [B; T; Hd] /\
    forall b t c, (b < B)%nat -> (t < T)%nat -> (c < Hd)%nat ->
      data out [b; t; c]
      = par_lane_f (fun k => lin_f I x w bias b k c)
                   (fun k => lin_f I x w bias b k (c + Hd))
                   (data h [b; O; c]) (S t).
Proof.
  intros Hx Hh Hw Hb.
  destruct (linear3_gen _ _ _ _ _ _ _ Hx Hw Hb) as (y & Ey & Sy & Dy).
  destruct (chunk2_last3_spec _ _ _ _ Sy)
    as (gate & hidden & Ec & Sg & Shid & Dg & Dhid).
  unfold mingru_parallel. rewrite Ey. cbn [bind]. rewrite Ec. cbn [bind].
  destruct (parallel_body_gen B T [Hd] gate hidden h Sg Shid Hh)
    as (out & Eo & So & Do).
  exists out. split; [exact Eo |]. split; [assumption |].
  intros b t c Hb' Ht Hc. rewrite Do by (assumption || solve_range).
  unfold par_lane_f. apply scan_lane_f_ext.
  - intros k _. rewrite Dg, Dy. reflexivity.
  - intros [| k] _; [reflexivity |]. rewrite Dg, Dhid, !Dy. reflexivity.
Qed.

(** ** Finite inputs *)

Lemma lin_f_Fin B T I outd x w bias b t j :
  shape x = [B; T; I] -> shape w = [outd; I] ->
  finite x -> finite w -> bias_ok bias outd ->
  (b < B)%nat -> (t < T)%nat -> (j < outd)%nat ->
  lin_f I x w bias b t j = Fin (lin_r I x w bias b t j).
Proof.
  intros Hx Hw Fx Fw Hb Hb' Ht Hj. unfold lin_f, lin_r.
  rewrite (fsum_Fin I _ (fun i => toR (data x [b; t; i])
                                  * toR (data w [j; i]))).
  - destruct bias as [bt |]; simpl.
    + destruct Hb as [Hbs Hbf].
      rewrite (is_finite_toR (data bt [j])) at 1; [reflexivity |].
      apply Hbf. rewrite Hbs. solve_range.
    + rewrite Rplus_0_r. reflexivity.
  - intros i Hi.
    rewrite (is_finite_toR (data x [b; t; i])) at 1
      by (apply Fx; rewrite Hx; solve_range).
    rewrite (is_finite_toR (data w [j; i])) at 1
      by (apply Fw; rewrite Hw; solve_range).
    reflexivity.
Qed.

Lemma positive_finite t : positive t -> finite t.
Proof.
  intros H idx Hi. destruct (H idx Hi) as (r & -> & _). exists r. reflexivity.
Qed.

(** The one-step update on well-shaped finite inputs: no condition on the
    sign of the previous state. *)
Lemma mingru_sequential_spec B I Hd x h w bias :
  shape x = [B; 1%nat; I] -> shape h = [B; 1%nat; Hd] ->
  shape w = [(2 * Hd)%nat; I] ->
  finite x -> finite h -> finite w -> bias_ok bias (2 * Hd) ->
  exists out, mingru_sequential x h w bias = Ok out /\
    shape out = [B; 1%nat; Hd] /\
    forall b c, (b < B)%nat -> (c < Hd)%nat ->
      data out [b; O; c]
      = Fin ((1 - sigmoid (lin_r I x w bias b 0 c)) * toR (data h [b; O; c])
             + sigmoid (lin_r I x w bias b 0 c)
               * g_real (lin_r I x w bias b 0 (c + Hd))).
Proof.
  intros Hx Hh Hw Fx Fh Fw Hb.
  destruct (mingru_sequential_gen _ _ _ _ _ _ _ Hx Hh Hw (bias_ok_shape _ _ Hb))
    as (out & Eo & So & Do).
  exists out. split; [assumption |]. split; [assumption |].
  intros b c Hb' Hc. rewrite Do by assumption.
  rewrite !(lin_f_Fin B 1 I (2 * Hd)) by (assumption || lia).
  rewrite (is_finite_toR (data h [b; O; c])) at 1
    by (apply Fh; rewrite Hh; solve_range).
  unfold step_f. rewrite g_elem_Fin. reflexivity.
Qed.

(** The parallel evaluation on well-shaped finite inputs with a positive
    initial state: every lane carries the recurrence of the sequential
    step. *)
Lemma mingru_parallel_spec B T I Hd x h w bias :
  shape x = [B; T; I] -> shape h = [B; 1%nat; Hd] ->
  shape w = [(2 * Hd)%nat; I] ->
  finite x -> positive h -> finite w -> bias_ok bias (2 * Hd) ->
  exists out, mingru_parallel x h w bias = Ok out /\
    shape out = [B; T; Hd] /\
    forall b t c, (b < B)%nat -> (t < T)%nat -> (c < Hd)%nat ->
      data out [b; t; c]
      = Fin (hseq (fun k => lin_r I x w bias b k c)
                  (fun k => lin_r I x w bias b k (c + Hd))
                  (toR (data h [b; O; c])) (S t)).
Proof.
  intros Hx Hh Hw Fx Ph Fw Hb.
  destruct (mingru_parallel_gen _ _ _ _ _ _ _ _ Hx Hh Hw (bias_ok_shape _ _ Hb))
    as (out & Eo & So & Do).
  exists out. split; [assumption |]. split; [assumption |].
  intros b t c Hb' Ht Hc. rewrite Do by assumption.
  destruct (Ph [b; O; c]) as (r & -> & Hr); [rewrite Hh; solve_range |].
  apply par_lane_f_Fin; [assumption | |];
    intros k Hk; apply (lin_f_Fin B T I (2 * Hd)); assumption || lia.
Qed.

(** ** Sequential rollout *)

Lemma hseq_pos gate cand h0 n : 0 < h0 -> 0 < hseq gate cand h0 n.
Proof.
  intros Hh. induction n as [| n IH]; simpl; [assumption |].
  pose proof (sigmoid_pos (gate n)). pose proof (sigmoid_lt_1 (gate n)).
  pose proof (g_real_pos (cand n)).
  apply Rplus_lt_0_compat; apply Rmult_lt_0_compat; lra.
Qed.

Lemma step1_shape B T I k x :
  shape x = [B; T; I] -> shape (step1 k x) = [B; 1%nat; I].
Proof. intros Hx. unfold step1, narrow. simpl. rewrite Hx. reflexivity. Qed.

Lemma step1_finite B T I k x :
  shape x = [B; T; I] -> (k < T)%nat -> finite x -> finite (step1 k x).
Proof.
  intros Hx Hk Fx idx Hi. rewrite (step1_shape _ _ _ _ _ Hx) in Hi.
  split_range Hi. simpl. apply Fx. rewrite Hx. solve_range.
Qed.

Lemma in_range_state B Hd idx :
  in_range [B; 1%nat; Hd] idx ->
  exists b c, idx = [b; O; c] /\ (b < B)%nat /\ (c < Hd)%nat.
Proof.
  intros Hi. split_range Hi. exists i, i1. repeat split; try assumption.
  do 2 f_equal. lia.
Qed.

(** [n] applications of the one-step update, lane by lane. *)
Lemma sequential_rollout_spec B T I Hd x h w bias n :
  shape x = [B; T; I] -> shape h = [B; 1%nat; Hd] ->
  shape w = [(2 * Hd)%nat; I] ->
  finite x -> finite h -> finite w -> bias_ok bias (2 * Hd) ->
  (n <= T)%nat ->
  exists hn, sequential_rollout x h w bias n = Ok hn /\
    shape hn = [B; 1%nat; Hd] /\
    forall b c, (b < B)%nat -> (c < Hd)%nat ->
      data hn [b; O; c]
      = Fin (hseq (fun k => lin_r I x w bias b k c)
                  (fun k => lin_r I x w bias b k (c + Hd))
                  (toR (data h [b; O; c])) n).
Proof.
  intros Hx Hh Hw Fx Fh Fw Hb. induction n as [| n IH]; intros Hn.
  - exists h. split; [reflexivity |]. split; [assumption |].
    intros b c Hb' Hc. simpl. apply is_finite_toR, Fh.
    rewrite Hh. solve_range.
  - destruct IH as (hp & Ep & Sp & Dp); [lia |].
    assert (Fp : finite hp).
    { intros idx Hi. rewrite Sp in Hi.
      apply in_range_state in Hi as (b & c & -> & Hb' & Hc).
      rewrite Dp by assumption. eexists; reflexivity. }
    destruct (mingru_sequential_spec B I Hd (step1 n x) hp w bias)
      as (hn & En & Sn & Dn); try assumption.
    + apply (step1_shape _ _ _ _ _ Hx).
    + apply (step1_finite _ _ _ _ _ Hx); [lia | assumption].
    + exists hn. simpl. rewrite Ep. cbn [bind].
      split; [assumption |]. split; [assumption |].
      intros b c Hb' Hc. rewrite Dn, Dp by assumption. reflexivity.
Qed.

(** ** Views *)

Lemma numel_cons d s : numel (d :: s) = (d * numel s)%nat.
Proof. reflexivity. Qed.

Lemma ravel_lt s idx : in_range s idx -> (ravel s idx < numel s)%nat.
Proof.
  unfold in_range. intros H. induction H as [| i d idx s Hlt _ IH].
  - simpl. lia.
  - rewrite numel_cons. cbn [ravel]. nia.
Qed.

Lemma unravel_ravel s idx : in_range s idx -> unravel s (ravel s idx) = idx.
Proof.
  unfold in_range. intros H. induction H as [| i d idx s Hlt Hr IH].
  - reflexivity.
  - pose proof (ravel_lt _ _ Hr) as Hb. cbn [ravel unravel].
    rewrite Nat.div_add_l by lia.
    rewrite (Nat.div_small (ravel s idx)) by assumption.
    rewrite (Nat.add_comm (i * numel s)), Nat.Div0.mod_add.
    rewrite Nat.mod_small by assumption.
    rewrite IH, Nat.add_0_r. reflexivity.
Qed.

(** The view that merges batch and time of a 5-dimensional tensor. *)
(** *** The layout that [view] asks for *)

Lemma numel_app a b : numel (a ++ b) = (numel a * numel b)%nat.
Proof.
  unfold numel. induction a as [| d a IH]; simpl.
  - rewrite Nat.add_0_r. reflexivity.
  - rewrite IH, Nat.mul_assoc. reflexivity.
Qed.

Lemma numel_rev s : numel (rev s) = numel s.
Proof.
  induction s as [| d s IH]; [reflexivity |].
  cbn [rev]. rewrite numel_app, IH. cbn [numel fold_right]. fold (numel s).
  lia.
Qed.

Lemma numel_pos_max s :
  (0 < numel s)%nat -> map (fun d => Nat.max d 1) s = s.
Proof.
  induction s as [| d s IH]; intros H; [reflexivity |].
  cbn [numel fold_right] in H. fold (numel s) in H. cbn [map].
  rewrite IH by nia. f_equal. nia.
Qed.

Lemma running_length r acc : length (running r acc) = length r.
Proof.
  revert acc. induction r as [| d r IH]; intros acc; simpl;
    [reflexivity | rewrite IH; reflexivity].
Qed.

Lemma running_app r d acc :
  running (r ++ [d]) acc = running r acc ++ [(acc * numel r)%nat].
Proof.
  revert acc. induction r as [| e r IH]; intros acc.
  - cbn [app running numel fold_right]. rewrite Nat.mul_1_r. reflexivity.
  - cbn [app running]. rewrite IH. cbn [numel fold_right]. fold (numel r).
    rewrite Nat.mul_assoc. reflexivity.
Qed.

Lemma combine_snoc {A B : Type} (a : list A) (b : list B) x y :
  length a = length b ->
  combine (a ++ [x]) (b ++ [y]) = combine a b ++ [(x, y)].
Proof.
  revert b. induction a as [| u a IH]; intros [| v b] H; simpl in H;
    try discriminate; [reflexivity |].
  simpl. rewrite IH by lia. reflexivity.
Qed.

Lemma rev_combine_contiguous s :
  (0 < numel s)%nat ->
  rev (combine s (contiguous_stride s))
  = combine (rev s) (running (rev s) 1).
Proof.
  induction s as [| d s IH]; intros H; [reflexivity |].
  assert (Hs : (0 < numel s)%nat)
    by (cbn [numel fold_right] in H; fold (numel s) in H; nia).
  cbn [contiguous_stride combine rev]. rewrite IH by exact Hs.
  rewrite running_app, combine_snoc
    by (rewrite running_length; reflexivity).
  rewrite numel_pos_max by exact Hs. rewrite numel_rev, Nat.mul_1_l.
  reflexivity.
Qed.

Lemma last_contiguous_stride d s :
  (0 < numel s)%nat -> last (contiguous_stride (d :: s)) 1%nat = 1%nat.
Proof.
  revert d. induction s as [| e s IH]; intros d H; [reflexivity |].
  assert (Hs : (0 < numel s)%nat)
    by (cbn [numel fold_right] in H; fold (numel s) in H; nia).
  change (contiguous_stride (d :: e :: s))
    with (numel (map (fun d => Nat.max d 1) (e :: s))
          :: contiguous_stride (e :: s)).
  specialize (IH e Hs).
  destruct (contiguous_stride (e :: s)) eqn:E; [discriminate E |].
  exact IH.
Qed.

(** A chunk of as many elements as the dimensions of the view that remain
    takes them all. *)
Lemma view_chunk_all newshape_rev :
  forall view_numel tensor_numel base,
    (0 < tensor_numel)%nat ->
    (view_numel * numel newshape_rev)%nat = tensor_numel ->
    exists st,
      view_chunk newshape_rev view_numel tensor_numel base
      = ([], tensor_numel, st).
Proof.
  induction newshape_rev as [| d rest IH]; intros vn tn base Hpos Hn.
  - cbn [numel fold_right] in Hn. exists []. simpl. f_equal. f_equal. lia.
  - cbn [numel fold_right] in Hn. fold (numel rest) in Hn.
    cbn [view_chunk].
    assert (Hc : ((vn <? tn)%nat || (d =? 1)%nat)%bool = true).
    { destruct (Nat.eqb_spec d 1) as [-> | Hd]; [apply orb_true_r |].
      apply orb_true_iff. left. apply Nat.ltb_lt.
      set (q := numel rest) in *. clearbody q.
      destruct d as [| [| d]]; [nia | contradiction Hd; reflexivity |].
      destruct vn as [| vn]; [nia |]. destruct q as [| q]; nia. }
    rewrite Hc.
    destruct (IH (vn * d)%nat tn base Hpos) as (st & E); [lia |].
    rewrite E. eexists. reflexivity.
Qed.

(** The dimensions of a contiguous tensor make a single chunk. *)
Lemma view_chunks_contiguous r :
  forall tn base newshape_rev,
    r <> [] -> (0 < tn * numel r)%nat ->
    numel newshape_rev = (tn * numel r)%nat ->
    exists st,
      view_chunks (combine r (running r (tn * base))) newshape_rev base tn
      = Some st.
Proof.
  induction r as [| d r IH]; intros tn base new Hne Hpos Hn;
    [contradiction Hne; reflexivity |].
  cbn [numel fold_right] in Hpos, Hn. fold (numel r) in Hpos, Hn.
  destruct r as [| d' r'].
  - cbn [running combine view_chunks].
    cbn [numel fold_right] in Hpos, Hn.
    destruct (view_chunk_all new 1 (tn * d)%nat base) as (st & E);
      [lia | lia |].
    rewrite E, Nat.eqb_refl. eexists. reflexivity.
  - cbn [running combine]. cbn [view_chunks].
    replace (tn * base * d =? tn * d * base)%nat with true
      by (symmetry; apply Nat.eqb_eq; lia).
    rewrite andb_false_r.
    replace (tn * base * d)%nat with (tn * d * base)%nat by lia.
    apply (IH (tn * d)%nat base new); [discriminate | lia | lia].
Qed.

(** [view] accepts a contiguous tensor, and a tensor without elements. *)
Lemma view_stride_some s t :
  numel s = numel (shape t) ->
  contiguous t \/ numel (shape t) = O ->
  exists st, view_stride s t = Some st.
Proof.
  intros Hn Hc. unfold view_stride.
  destruct (shape t) as [| d sh] eqn:Hs; [eexists; reflexivity |].
  destruct (Nat.eqb_spec (numel (d :: sh)) 0) as [Hz | Hnz];
    [eexists; reflexivity |].
  destruct Hc as [Hc | Hc]; [| contradiction].
  unfold contiguous in Hc. rewrite Hs in Hc. rewrite Hc.
  assert (Hpos : (0 < numel (d :: sh))%nat) by lia.
  assert (Hsh : (0 < numel sh)%nat)
    by (cbn [numel fold_right] in Hpos; fold (numel sh) in Hpos; nia).
  rewrite rev_combine_contiguous by exact Hpos.
  rewrite last_contiguous_stride by exact Hsh.
  destruct (view_chunks_contiguous (rev (d :: sh)) 1 1 (rev s))
    as (st & E).
  - cbn [rev]. destruct (rev sh); discriminate.
  - rewrite numel_rev. lia.
  - rewrite !numel_rev. lia.
  - rewrite Nat.mul_1_l in E. rewrite E. eexists. reflexivity.
Qed.

Lemma view_shape s t v : view s t = Ok v -> shape v = s.
Proof.
  unfold view. destruct (numel s =? numel (shape t))%nat; [| discriminate].
  destruct (view_stride s t); [| discriminate].
  intros E. inversion E. reflexivity.
Qed.

Lemma view_raises s t e : view s t = Raise e -> e = RuntimeError.
Proof.
  unfold view. destruct (numel s =? numel (shape t))%nat;
    [destruct (view_stride s t) |]; intros E; inversion E; reflexivity.
Qed.

Lemma view_merge B T C H W x :
  shape x = [B; T; C; H; W] -> contiguous x \/ T = O ->
  exists xv, view [(B * T)%nat; C; H; W] x = Ok xv /\
    shape xv = [(B * T)%nat; C; H; W] /\
    forall b t c i j,
      (b < B)%nat -> (t < T)%nat -> (c < C)%nat -> (i < H)%nat -> (j < W)%nat ->
      data xv [(b * T + t)%nat; c; i; j] = data x [b; t; c; i; j].
Proof.
  intros Hx Hc. unfold view.
  destruct (view_stride_some [(B * T)%nat; C; H; W] x) as (st & Est).
  - rewrite Hx. cbn [numel fold_right]. lia.
  - destruct Hc as [Hc | ->]; [left; exact Hc | right].
    rewrite Hx. cbn [numel fold_right]. lia.
  - rewrite Est, Hx.
    replace (numel [(B * T)%nat; C; H; W] =? numel [B; T; C; H; W])%nat
      with true
      by (symmetry; apply Nat.eqb_eq; cbn [numel fold_right]; lia).
    eexists. split; [reflexivity |]. split; [reflexivity |].
    intros b t c i j Hb Ht Hc' Hi Hj. cbn [data].
    replace (ravel [(B * T)%nat; C; H; W] [(b * T + t)%nat; c; i; j])
      with (ravel [B; T; C; H; W] [b; t; c; i; j])
      by (cbn [ravel numel fold_right]; lia).
    rewrite unravel_ravel by solve_range. reflexivity.
Qed.

Lemma view_split B T C C' H W y :
  shape y = [(B * T)%nat; C; H; W] -> C' = C -> contiguous y ->
  exists yv, view [B; T; C'; H; W] y = Ok yv /\
    shape yv = [B; T; C'; H; W] /\
    forall b t c i j,
      (b < B)%nat -> (t < T)%nat -> (c < C)%nat -> (i < H)%nat -> (j < W)%nat ->
      data yv [b; t; c; i; j] = data y [(b * T + t)%nat; c; i; j].
Proof.
  intros Hy -> Hc. unfold view.
  destruct (view_stride_some [B; T; C; H; W] y) as (st & Est).
  - rewrite Hy. cbn [numel fold_right]. lia.
  - left. exact Hc.
  - rewrite Est, Hy.
    replace (numel [B; T; C; H; W] =? numel [(B * T)%nat; C; H; W])%nat
      with true
      by (symmetry; apply Nat.eqb_eq; cbn [numel fold_right]; lia).
    eexists. split; [reflexivity |]. split; [reflexivity |].
    intros b t c i j Hb Ht Hc' Hi Hj. cbn [data].
    replace (ravel [B; T; C; H; W] [b; t; c; i; j])
      with (ravel [(B * T)%nat; C; H; W] [(b * T + t)%nat; c; i; j])
      by (cbn [ravel numel fold_right]; lia).
    rewrite unravel_ravel; [reflexivity |].
    apply in_range_cons; split; [nia | solve_range].
Qed.

Lemma conv2d_same_contiguous x w bias y :
  conv2d_same x w bias = Ok y -> contiguous y.
Proof.
  unfold conv2d_same. intros E.
  repeat match type of E with
         | match ?c with _ => _ end = _ => destruct c; try discriminate E
         | (if ?c then _ else _) = _ => destruct c; try discriminate E
         end.
  all: inversion E; reflexivity.
Qed.

(** ** The spatial MinGRU at height and width one *)

Lemma fsum_ext n f1 f2 :
  (forall i, (i < n)%nat -> f1 i = f2 i) -> fsum n f1 = fsum n f2.
Proof.
  induction n as [| n IH]; intros H; simpl; [reflexivity |].
  rewrite IH by (intros; apply H; lia). rewrite H by lia. reflexivity.
Qed.


Lemma double_comm_neq_1 n : (n * 2 =? 1)%nat = false.
Proof. apply Nat.eqb_neq. lia. Qed.




(** The shape of a convolution with "same" padding, whatever the kernel. *)
Lemma conv2d_same_shape N Cin Cout H W k1 k2 xs w bias :
  shape xs = [N; Cin; H; W] -> shape w = [Cout; Cin; k1; k2] ->
  bias_shape bias Cout ->
  exists y, conv2d_same xs w bias = Ok y /\ shape y = [N; Cout; H; W].
Proof.
  intros Hx Hw Hb. unfold conv2d_same. rewrite Hx, Hw, Nat.eqb_refl.
  cbn [negb]. destruct bias as [bt |].
  - simpl in Hb. rewrite Hb. cbn [shape_eqb]. rewrite Nat.eqb_refl.
    cbn [andb]. eexists. split; reflexivity.
  - eexists. split; reflexivity.
Qed.

(** The spatial parallel evaluation returns normally on well-shaped
    inputs of any length, height, width and kernel size. *)
Lemma conv_mingru_parallel_shape B T Cin Hd H W k1 k2 x h w bias :
  shape x = [B; T; Cin; H; W] -> shape h = [B; 1%nat; Hd; H; W] ->
  shape w = [(2 * Hd)%nat; Cin; k1; k2] -> bias_shape bias (2 * Hd) ->
  contiguous x \/ T = O ->
  exists out, conv_mingru_parallel x h w bias = Ok out /\
              shape out = [B; T; Hd; H; W].
Proof.
  intros Hx Hh Hw Hb Hcx. unfold conv_mingru_parallel. rewrite Hx, Hh.
  cbn [nth_error].
  destruct (view_merge B T Cin H W x Hx Hcx) as (xv & Exv & Sxv & _).
  rewrite Exv. cbn [bind].
  destruct (conv2d_same_shape _ _ _ _ _ _ _ _ _ _ Sxv Hw Hb) as (y & Ey & Sy).
  rewrite Ey. cbn [bind].
  destruct (view_split B T (2 * Hd) (Hd * 2) H W y Sy) as (yv & Eyv & Syv & _);
    [lia | apply (conv2d_same_contiguous _ _ _ _ Ey) |].
  rewrite Eyv. cbn [bind].
  unfold chunk2. rewrite Syv. cbn [nth_error].
  rewrite double_comm_neq_1.
  replace ((Hd * 2 + 1) / 2)%nat with Hd
    by (rewrite Nat.mul_comm, half_double; reflexivity).
  cbn [bind].
  destruct (parallel_body_gen B T [Hd; H; W]
              (narrow 2 0 Hd yv) (narrow 2 Hd (Hd * 2 - Hd) yv) h)
    as (out & Eo & So & _).
  - unfold narrow. rewrite Syv. reflexivity.
  - unfold narrow. rewrite Syv. cbn [shape set_at]. do 3 f_equal. lia.
  - assumption.
  - exists out. split; [exact Eo | assumption].
Qed.

(** ** The claims on the flat MinGRU *)

Lemma g_real_0 : g_real 0 = 1 / 2.
Proof. unfold g_real. destruct (Rle_dec 0 0); lra. Qed.

Lemma g_real_1 : g_real 1 = 3 / 2.
Proof. unfold g_real. destruct (Rle_dec 0 1); lra. Qed.

Lemma demo_x_finite : finite x_demo.
Proof. intros idx _. eexists; reflexivity. Qed.

Lemma demo_weight_finite : finite weight_demo.
Proof. intros idx _. eexists; reflexivity. Qed.

Lemma demo_bias_ok : bias_ok (Some bias_demo) (2 * 1).
Proof. split; [reflexivity |]. intros idx _. eexists; reflexivity. Qed.

Lemma demo_h_positive : positive h_demo.
Proof.
  intros idx _. change (data h_demo idx) with (g_elem (Fin 0)).
  rewrite g_elem_Fin. eexists; split; [reflexivity | apply g_real_pos].
Qed.

(** C1: for an input sequence of length [T >= 1], finite weights and bias and
    a strictly positive initial state, the sequence returned by
    [mingru_parallel] is, time step by time step, the state reached by
    applying [mingru_sequential] to the time steps one after the other,
    starting from the initial state. *)
Theorem parallel_matches_sequential B T I Hd x h w bias :
  (1 <= T)%nat ->
  shape x = [B; T; I] -> shape h = [B; 1%nat; Hd] ->
  shape w = [(2 * Hd)%nat; I] ->
  finite x -> positive h -> finite w -> bias_ok bias (2 * Hd) ->
  exists out, mingru_parallel x h w bias = Ok out /\
    shape out = [B; T; Hd] /\
    forall t, (t < T)%nat ->
      exists h_t, sequential_rollout x h w bias (S t) = Ok h_t /\
                  teq (step1 t out) h_t.
Proof.
  intros HT Hx Hh Hw Fx Ph Fw Hb.
  destruct (mingru_parallel_spec _ _ _ _ _ _ _ _ Hx Hh Hw Fx Ph Fw Hb)
    as (out & Eo & So & Do).
  exists out. split; [assumption |]. split; [assumption |].
  intros t Ht.
  destruct (sequential_rollout_spec B T I Hd x h w bias (S t) Hx Hh Hw Fx
              (positive_finite _ Ph) Fw Hb) as (h_t & Et & St & Dt); [lia |].
  exists h_t. split; [assumption |]. split.
  - rewrite St. apply (step1_shape _ _ _ _ _ So).
  - intros idx Hi. rewrite (step1_shape _ _ _ _ _ So) in Hi.
    apply in_range_state in Hi as (b & c & -> & Hb' & Hc).
    rewrite Dt by assumption. simpl. apply Do; assumption.
Qed.

Lemma parallel_matches_sequential_witness :
  exists out, mingru_parallel x_demo h_demo weight_demo (Some bias_demo) = Ok out /\
    shape out = [1; 3; 1]%nat /\
    forall t, (t < 3)%nat ->
      exists h_t,
        sequential_rollout x_demo h_demo weight_demo (Some bias_demo) (S t)
        = Ok h_t /\ teq (step1 t out) h_t.
Proof.
  apply (parallel_matches_sequential 1 3 1 1).
  - lia.
  - reflexivity.
  - reflexivity.
  - reflexivity.
  - exact demo_x_finite.
  - exact demo_h_positive.
  - exact demo_weight_finite.
  - exact demo_bias_ok.
Defined.



Lemma Int_part_nonneg y : 0 <= y -> (0 <= Int_part y)%Z.
Proof.
  intros Hy. destruct (base_Int_part y) as [_ Hgt].
  assert (H : (-1 < Int_part y)%Z) by (apply lt_IZR; simpl; lra). lia.
Qed.

Lemma rne_nonneg y : 0 <= y -> (0 <= rne y)%Z.
Proof.
  intros Hy. pose proof (Int_part_nonneg y Hy) as Hf. unfold rne.
  destruct (Rlt_dec (y - IZR (Int_part y)) (1 / 2)); [exact Hf |].
  destruct (Rlt_dec (1 / 2) (y - IZR (Int_part y))); [lia |].
  destruct (Z.even (Int_part y)); lia.
Qed.

(** Rounding to float32 keeps the sign of a number that is not negative,
    but not its strict positivity. *)
Lemma round32_nonneg x :
  0 <= x -> round32 x = PInf \/ exists v, round32 x = Fin v /\ 0 <= v.
Proof.
  intros Hx. unfold round32.
  destruct (Rlt_dec 0 (Rabs x)) as [Ha | _];
    [| right; exists 0; split; [reflexivity | lra]].
  cbv zeta.
  destruct (Rle_dec (bpow 128)
              (Rabs (IZR (rne (x / bpow (ulp_exp32 x)))
                     * bpow (ulp_exp32 x)))) as [_ | _].
  - destruct (Rlt_dec 0 x) as [_ | Hn]; [left; reflexivity |].
    assert (x = 0) by lra. subst x. rewrite Rabs_R0 in Ha. lra.
  - right. eexists. split; [reflexivity |].
    assert (Hp : 0 < bpow (ulp_exp32 x)) by apply exp_pos.
    apply Rmult_le_pos; [| lra].
    apply IZR_le. apply rne_nonneg.
    apply Rmult_le_pos; [exact Hx |].
    apply Rlt_le, Rinv_0_lt_compat, Hp.
Qed.

Lemma g_elem32_Fin r : g_elem32 (Fin r) = round32 (g_real r).
Proof.
  unfold g_elem32, g_real; simpl. destruct (Rle_dec 0 r); reflexivity.
Qed.

(** C3 (as the code has it): on a real input [r] the activation [g]
    returns [r + 0.5] when [r >= 0] and [sigmoid r] when [r < 0]; over
    exact real arithmetic its value is strictly positive; at [0] both
    branches give [0.5] and the function is continuous there.  The
    rounding of float32 does not keep the strict positivity: the value
    that [g] returns in float32 is not negative, and can be zero. *)
Theorem g_piecewise_positive_continuous (x : tensor) (idx : list nat) (r : R) :
  data x idx = Fin r ->
  (0 <= r -> data (g x) idx = Fin (r + 1 / 2)) /\
  (r < 0 -> data (g x) idx = Fin (sigmoid r)) /\
  (exists v, data (g x) idx = Fin v /\ 0 < v) /\
  data (g x) idx = Fin (g_real r) /\
  0 + 1 / 2 = 1 / 2 /\ sigmoid 0 = 1 / 2 /\
  continuity_pt g_real 0 /\
  (data (g32 x) idx = PInf \/
   exists v, data (g32 x) idx = Fin v /\ 0 <= v).
Proof.
  intros Hx.
  assert (Hg : data (g x) idx = Fin (g_real r)).
  { simpl. rewrite Hx. apply g_elem_Fin. }
  assert (Hg32 : data (g32 x) idx = round32 (g_real r)).
  { simpl. rewrite Hx. apply g_elem32_Fin. }
  repeat split;
    [ | | | | | | |
      rewrite Hg32; apply round32_nonneg;
      pose proof (g_real_pos r); lra ].
  - intros Hr. rewrite Hg. unfold g_real.
    destruct (Rle_dec 0 r); [reflexivity | contradiction].
  - intros Hr. rewrite Hg. unfold g_real.
    destruct (Rle_dec 0 r); [lra | reflexivity].
  - exists (g_real r). split; [assumption | apply g_real_pos].
  - assumption.
  - lra.
  - apply sigmoid_0.
  - apply g_real_continuous_0.
Qed.

Lemma g_piecewise_positive_continuous_witness :
  (0 <= 1 -> data (g (full_like x_demo 1)) [O; O; O] = Fin (1 + 1 / 2)) /\
  (1 < 0 -> data (g (full_like x_demo 1)) [O; O; O] = Fin (sigmoid 1)) /\
  (exists v, data (g (full_like x_demo 1)) [O; O; O] = Fin v /\ 0 < v) /\
  data (g (full_like x_demo 1)) [O; O; O] = Fin (g_real 1) /\
  0 + 1 / 2 = 1 / 2 /\ sigmoid 0 = 1 / 2 /\
  continuity_pt g_real 0 /\
  (data (g32 (full_like x_demo 1)) [O; O; O] = PInf \/
   exists v, data (g32 (full_like x_demo 1)) [O; O; O] = Fin v /\ 0 <= v).
Proof.
  apply (g_piecewise_positive_continuous (full_like x_demo 1) [O; O; O] 1).
  reflexivity.
Defined.

(** C4: on a real input, the exponential of [log_g] is [g], and both [g]
    and [log_g] are finite there. *)
Theorem exp_log_g_is_g (x : tensor) (idx : list nat) (r : R) :
  data x idx = Fin r ->
  data (exp_t (log_g x)) idx = data (g x) idx /\
  is_finite (data (g x) idx) /\
  is_finite (data (log_g x) idx).
Proof.
  intros Hx. simpl. rewrite Hx. repeat split.
  - rewrite exp_log_g_elem, g_elem_Fin. reflexivity.
  - rewrite g_elem_Fin. eexists; reflexivity.
  - rewrite log_g_elem_Fin. eexists; reflexivity.
Qed.

Lemma exp_log_g_is_g_witness :
  data (exp_t (log_g (full_like x_demo (-1)))) [O; O; O]
  = data (g (full_like x_demo (-1))) [O; O; O] /\
  is_finite (data (g (full_like x_demo (-1))) [O; O; O]) /\
  is_finite (data (log_g (full_like x_demo (-1))) [O; O; O]).
Proof.
  apply (exp_log_g_is_g (full_like x_demo (-1)) [O; O; O] (-1)).
  reflexivity.
Defined.

(** C5: on a sequence of length 1 [mingru] is the sequential step applied
    once to the initial state, and on a sequence of length greater than 1 it
    is the parallel scan over the whole sequence; [conv_mingru] dispatches
    in the same way. *)
Theorem dispatch_on_length (x h w : tensor) (bias : option tensor) (len : nat) :
  nth_error (shape x) 1 = Some len ->
  (len = 1%nat ->
   mingru x h w bias = mingru_sequential x h w bias /\
   conv_mingru x h w bias = conv_mingru_sequential x h w bias) /\
  ((1 < len)%nat ->
   mingru x h w bias = mingru_parallel x h w bias /\
   conv_mingru x h w bias = conv_mingru_parallel x h w bias).
Proof.
  intros Hlen. unfold mingru, conv_mingru. rewrite Hlen. split.
  - intros ->. split; reflexivity.
  - intros Hgt. destruct (Nat.eqb_spec len 1); [lia |]. split; reflexivity.
Qed.

Lemma dispatch_on_length_witness :
  (3%nat = 1%nat ->
   mingru x_demo h_demo weight_demo (Some bias_demo)
   = mingru_sequential x_demo h_demo weight_demo (Some bias_demo) /\
   conv_mingru x_demo h_demo weight_demo (Some bias_demo)
   = conv_mingru_sequential x_demo h_demo weight_demo (Some bias_demo)) /\
  ((1 < 3)%nat ->
   mingru x_demo h_demo weight_demo (Some bias_demo)
   = mingru_parallel x_demo h_demo weight_demo (Some bias_demo) /\
   conv_mingru x_demo h_demo weight_demo (Some bias_demo)
   = conv_mingru_parallel x_demo h_demo weight_demo (Some bias_demo)).
Proof.
  apply (dispatch_on_length x_demo h_demo weight_demo (Some bias_demo) 3).
  reflexivity.
Defined.

(** C6: with gate logits [0, 0, 0], candidate logits [1, 1, 1] and initial
    state [g(0) = 0.5] on a single lane, the parallel evaluation, which is
    what [mingru] runs on this input, returns [1, 1.25, 1.375]. *)
Theorem demo_trajectory :
  (exists y, linear x_demo weight_demo (Some bias_demo) = Ok y /\
     forall t, (t < 3)%nat ->
       data y [O; t; O] = Fin 0 /\ data y [O; t; 1%nat] = Fin 1) /\
  data h_demo [O; O; O] = Fin (1 / 2) /\
  exists out,
    mingru_parallel x_demo h_demo weight_demo (Some bias_demo) = Ok out /\
    mingru x_demo h_demo weight_demo (Some bias_demo) = Ok out /\
    shape out = [1; 3; 1]%nat /\
    data out [O; O; O] = Fin 1 /\
    data out [O; 1%nat; O] = Fin (5 / 4) /\
    data out [O; 2%nat; O] = Fin (11 / 8).
Proof.
  assert (Hgate : forall k,
            lin_r 1 x_demo weight_demo (Some bias_demo) 0 k 0 = 0).
  { intros k. unfold lin_r. simpl. lra. }
  assert (Hcand : forall k,
            lin_r 1 x_demo weight_demo (Some bias_demo) 0 k 1 = 1).
  { intros k. unfold lin_r. simpl. lra. }
  assert (Hh : data h_demo [O; O; O] = Fin (1 / 2)).
  { change (data h_demo [O; O; O]) with (g_elem (Fin 0)).
    rewrite g_elem_Fin, g_real_0. reflexivity. }
  split; [| split; [assumption |]].
  - destruct (linear3_gen 1 3 1 (2 * 1) x_demo weight_demo (Some bias_demo))
      as (y & Ey & _ & Dy); [reflexivity | reflexivity | reflexivity |].
    exists y. split; [assumption |]. intros t Ht.
    rewrite !Dy.
    rewrite !(lin_f_Fin 1 3 1 (2 * 1))
      by (reflexivity || lia || exact demo_x_finite
          || exact demo_weight_finite || exact demo_bias_ok).
    rewrite Hgate, Hcand. split; reflexivity.
  - destruct (mingru_parallel_spec 1 3 1 1 x_demo h_demo weight_demo
                (Some bias_demo)) as (out & Eo & So & Do);
      [reflexivity | reflexivity | reflexivity | exact demo_x_finite
       | exact demo_h_positive | exact demo_weight_finite
       | exact demo_bias_ok |].
    exists out. split; [assumption |]. split; [exact Eo |].
    split; [assumption |].
    rewrite !Do by lia. rewrite Hh. simpl.
    rewrite !Hgate, !Hcand, sigmoid_0, g_real_1.
    repeat split; f_equal; lra.
Qed.

(** ** The claims on the spatial MinGRU, on the inputs outside the domain
       and on the module *)




(** C7 (as the code has it): a sequence of length zero is not rejected.
    Zero is not one, so [mingru] and [conv_mingru] run the parallel branch,
    which returns normally with an empty sequence of hidden states. *)
Theorem zero_length_returns_empty
  B I Hd x h w bias B' Cin Hd' H W k1 k2 x' h' w' bias' :
  shape x = [B; 0%nat; I] -> shape h = [B; 1%nat; Hd] ->
  shape w = [(2 * Hd)%nat; I] -> bias_shape bias (2 * Hd) ->
  shape x' = [B'; 0%nat; Cin; H; W] -> shape h' = [B'; 1%nat; Hd'; H; W] ->
  shape w' = [(2 * Hd')%nat; Cin; k1; k2] -> bias_shape bias' (2 * Hd') ->
  (exists out, mingru x h w bias = Ok out /\
               mingru_parallel x h w bias = Ok out /\
               shape out = [B; 0%nat; Hd]) /\
  (exists out, conv_mingru x' h' w' bias' = Ok out /\
               conv_mingru_parallel x' h' w' bias' = Ok out /\
               shape out = [B'; 0%nat; Hd'; H; W]).
Proof.
  intros Hx Hh Hw Hb Hx' Hh' Hw' Hb'. split.
  - destruct (mingru_parallel_gen _ _ _ _ _ _ _ _ Hx Hh Hw Hb)
      as (out & Eo & So & _).
    exists out. unfold mingru. rewrite Hx. cbn [nth_error Nat.eqb].
    repeat split; assumption.
  - destruct (conv_mingru_parallel_shape _ _ _ _ _ _ _ _ _ _ _ _
                Hx' Hh' Hw' Hb' (or_intror eq_refl)) as (out & Eo & So).
    exists out. unfold conv_mingru. rewrite Hx'. cbn [nth_error Nat.eqb].
    repeat split; assumption.
Qed.

Lemma zero_length_returns_empty_witness :
  (exists out, mingru x_empty h_demo weight_demo (Some bias_demo) = Ok out /\
               mingru_parallel x_empty h_demo weight_demo (Some bias_demo)
               = Ok out /\
               shape out = [1; 0; 1]%nat) /\
  (exists out, conv_mingru x_empty_hw h_demo_hw weight_demo_hw (Some bias_demo)
               = Ok out /\
               conv_mingru_parallel x_empty_hw h_demo_hw weight_demo_hw
                                    (Some bias_demo) = Ok out /\
               shape out = [1; 0; 1; 1; 1]%nat).
Proof.
  apply (zero_length_returns_empty 1 1 1 _ _ _ _ 1 1 1 1 1 1 1); reflexivity.
Defined.

(** C7 (as stated) fails: on a sequence of length zero [mingru] returns a
    value and raises nothing. *)
Lemma zero_length_not_rejected :
  (exists out, mingru x_empty h_demo weight_demo (Some bias_demo) = Ok out /\
               shape out = [1; 0; 1]%nat) /\
  forall e, mingru x_empty h_demo weight_demo (Some bias_demo) <> Raise e.
Proof.
  destruct (mingru_parallel_gen 1 0 1 1 x_empty h_demo weight_demo
              (Some bias_demo)) as (out & Eo & So & _);
    [reflexivity | reflexivity | reflexivity | reflexivity |].
  assert (E : mingru x_empty h_demo weight_demo (Some bias_demo) = Ok out)
    by exact Eo.
  split.
  - exists out. split; assumption.
  - intros e He. rewrite E in He. discriminate.
Qed.

(** C8 (as the code has it): the initial state is not checked.  On
    well-shaped inputs [mingru] returns normally whatever the values: on a
    single time step the result is the sequential update computed from the
    given state, and on any other length every time step of a lane whose
    initial state is negative is NaN. *)
Theorem initial_state_not_checked B T I Hd x h w bias :
  shape x = [B; T; I] -> shape h = [B; 1%nat; Hd] ->
  shape w = [(2 * Hd)%nat; I] -> bias_shape bias (2 * Hd) ->
  exists out, mingru x h w bias = Ok out /\ shape out = [B; T; Hd] /\
    (T = 1%nat ->
     forall b c, (b < B)%nat -> (c < Hd)%nat ->
       data out [b; O; c]
       = step_f (lin_f I x w bias b 0 c) (lin_f I x w bias b 0 (c + Hd))
                (data h [b; O; c])) /\
    (T <> 1%nat ->
     forall b t c r, (b < B)%nat -> (t < T)%nat -> (c < Hd)%nat ->
       data h [b; O; c] = Fin r -> r < 0 ->
       data out [b; t; c] = NaN).
Proof.
  intros Hx Hh Hw Hb. unfold mingru. rewrite Hx. cbn [nth_error].
  destruct (Nat.eqb_spec T 1) as [-> | HT].
  - destruct (mingru_sequential_gen _ _ _ _ _ _ _ Hx Hh Hw Hb)
      as (out & Eo & So & Do).
    exists out. split; [assumption |]. split; [assumption |]. split.
    + intros _. exact Do.
    + intros H1. exfalso. apply H1. reflexivity.
  - destruct (mingru_parallel_gen _ _ _ _ _ _ _ _ Hx Hh Hw Hb)
      as (out & Eo & So & Do).
    exists out. split; [assumption |]. split; [assumption |]. split.
    + intros H1. contradiction.
    + intros _ b t c r Hb' Ht Hc Hr Hneg. rewrite Do by assumption.
      unfold par_lane_f. apply scan_lane_f_NaN. rewrite Hr. simpl.
      destruct (Rlt_dec 0 r); [lra |].
      destruct (Rlt_dec r 0); [reflexivity | contradiction].
Qed.

Lemma initial_state_not_checked_witness :
  exists out, mingru x_demo h_negative weight_demo (Some bias_demo) = Ok out /\
    shape out = [1; 3; 1]%nat /\
    (3%nat = 1%nat ->
     forall b c, (b < 1)%nat -> (c < 1)%nat ->
       data out [b; O; c]
       = step_f (lin_f 1 x_demo weight_demo (Some bias_demo) b 0 c)
                (lin_f 1 x_demo weight_demo (Some bias_demo) b 0 (c + 1))
                (data h_negative [b; O; c])) /\
    (3%nat <> 1%nat ->
     forall b t c r, (b < 1)%nat -> (t < 3)%nat -> (c < 1)%nat ->
       data h_negative [b; O; c] = Fin r -> r < 0 ->
       data out [b; t; c] = NaN).
Proof.
  apply (initial_state_not_checked 1 3 1 1); reflexivity.
Defined.

(** C8 (as stated) fails: with the initial state [-1], [mingru] raises
    nothing.  On one time step it returns the update computed from [-1];
    on three time steps it returns NaN at every step. *)
Lemma nonpositive_state_not_rejected :
  data h_negative [O; O; O] = Fin (-1) /\
  (exists out,
     mingru x_single h_negative weight_demo (Some bias_demo) = Ok out /\
     data out [O; O; O] = Fin (1 / 4)) /\
  (exists out,
     mingru x_demo h_negative weight_demo (Some bias_demo) = Ok out /\
     forall t, (t < 3)%nat -> data out [O; t; O] = NaN) /\
  (forall e, mingru x_single h_negative weight_demo (Some bias_demo)
             <> Raise e) /\
  (forall e, mingru x_demo h_negative weight_demo (Some bias_demo) <> Raise e).
Proof.
  assert (Hneg : data h_negative [O; O; O] = Fin (-1)) by reflexivity.
  destruct (mingru_sequential_spec 1 1 1 x_single h_negative weight_demo
              (Some bias_demo)) as (o1 & E1 & _ & D1);
    [reflexivity | reflexivity | reflexivity
     | intros idx _; eexists; reflexivity
     | intros idx _; eexists; reflexivity
     | exact demo_weight_finite | exact demo_bias_ok |].
  destruct (mingru_parallel_gen 1 3 1 1 x_demo h_negative weight_demo
              (Some bias_demo)) as (o3 & E3 & _ & D3);
    [reflexivity | reflexivity | reflexivity | reflexivity |].
  assert (E1' : mingru x_single h_negative weight_demo (Some bias_demo) = Ok o1)
    by exact E1.
  assert (E3' : mingru x_demo h_negative weight_demo (Some bias_demo) = Ok o3)
    by exact E3.
  split; [assumption |]. split; [| split; [| split]].
  - exists o1. split; [assumption |]. rewrite D1 by lia. f_equal.
    assert (Hgate : lin_r 1 x_single weight_demo (Some bias_demo) 0 0 0 = 0)
      by (unfold lin_r; simpl; lra).
    assert (Hcand : lin_r 1 x_single weight_demo (Some bias_demo) 0 0 (0 + 1) = 1)
      by (unfold lin_r; simpl; lra).
    rewrite Hgate, Hcand, sigmoid_0, g_real_1. simpl. lra.
  - exists o3. split; [assumption |]. intros t Ht. rewrite D3 by lia.
    unfold par_lane_f. apply scan_lane_f_NaN. simpl.
    destruct (Rlt_dec 0 (-1)); [lra |].
    destruct (Rlt_dec (-1) 0); [reflexivity | lra].
  - intros e He. rewrite E1' in He. discriminate.
  - intros e He. rewrite E3' in He. discriminate.
Qed.



(** * Further properties of the code *)

(** ** The flat MinGRU on finite inputs, either branch *)

(** [mingru] on well-shaped finite inputs with a positive initial state:
    whatever the branch, the lane carries the recurrence. *)
Lemma mingru_spec B T I Hd x h w bias :
  shape x = [B; T; I] -> shape h = [B; 1%nat; Hd] ->
  shape w = [(2 * Hd)%nat; I] ->
  finite x -> positive h -> finite w -> bias_ok bias (2 * Hd) ->
  exists out, mingru x h w bias = Ok out /\
    shape out = [B; T; Hd] /\
    forall b t c, (b < B)%nat -> (t < T)%nat -> (c < Hd)%nat ->
      data out [b; t; c]
      = Fin (hseq (fun k => lin_r I x w bias b k c)
                  (fun k => lin_r I x w bias b k (c + Hd))
                  (toR (data h [b; O; c])) (S t)).
Proof.
  intros Hx Hh Hw Fx Ph Fw Hb. unfold mingru. rewrite Hx. cbn [nth_error].
  destruct (Nat.eqb_spec T 1) as [-> | HT].
  - destruct (mingru_sequential_spec _ _ _ _ _ _ _ Hx Hh Hw Fx
                (positive_finite _ Ph) Fw Hb) as (out & Eo & So & Do).
    exists out. split; [assumption |]. split; [assumption |].
    intros b t c Hb' Ht Hc. assert (t = O) by lia. subst t.
    rewrite Do by assumption. reflexivity.
  - apply mingru_parallel_spec; assumption.
Qed.

Lemma hseq_ext gate gate' cand cand' h0 n :
  (forall k, (k < n)%nat -> gate k = gate' k) ->
  (forall k, (k < n)%nat -> cand k = cand' k) ->
  hseq gate cand h0 n = hseq gate' cand' h0 n.
Proof.
  induction n as [| n IH]; intros Hg Hc; simpl; [reflexivity |].
  rewrite IH; [| intros; apply Hg; lia | intros; apply Hc; lia].
  rewrite Hg, Hc by lia. reflexivity.
Qed.

Lemma lin_r_ext I x x' w bias b t j :
  (forall i, (i < I)%nat -> data x [b; t; i] = data x' [b; t; i]) ->
  lin_r I x w bias b t j = lin_r I x' w bias b t j.
Proof.
  intros H. unfold lin_r. f_equal. induction I as [| I IH]; simpl.
  - reflexivity.
  - rewrite IH by (intros; apply H; lia). rewrite H by lia. reflexivity.
Qed.

(** X1: [mingru] is causal.  The hidden state at time step [t] is fixed by
    the input up to [t]: two input sequences, of any lengths, that agree
    on the time steps [0 .. t] give the same state at [t]. *)
Theorem mingru_causal B T T' I Hd x x' h w bias t :
  shape x = [B; T; I] -> shape x' = [B; T'; I] ->
  shape h = [B; 1%nat; Hd] -> shape w = [(2 * Hd)%nat; I] ->
  finite x -> finite x' -> positive h -> finite w ->
  bias_ok bias (2 * Hd) ->
  (t < T)%nat -> (t < T')%nat ->
  (forall b k i, (b < B)%nat -> (k <= t)%nat -> (i < I)%nat ->
                 data x [b; k; i] = data x' [b; k; i]) ->
  exists out out',
    mingru x h w bias = Ok out /\ mingru x' h w bias = Ok out' /\
    forall b c, (b < B)%nat -> (c < Hd)%nat ->
                data out [b; t; c] = data out' [b; t; c].
Proof.
  intros Hx Hx' Hh Hw Fx Fx' Ph Fw Hb Ht Ht' Hagree.
  destruct (mingru_spec _ _ _ _ _ _ _ _ Hx Hh Hw Fx Ph Fw Hb)
    as (out & Eo & _ & Do).
  destruct (mingru_spec _ _ _ _ _ _ _ _ Hx' Hh Hw Fx' Ph Fw Hb)
    as (out' & Eo' & _ & Do').
  exists out, out'. split; [assumption |]. split; [assumption |].
  intros b c Hb' Hc. rewrite Do, Do' by assumption. f_equal.
  apply hseq_ext; intros k Hk; apply lin_r_ext; intros i Hi;
    apply Hagree; lia.
Qed.

Lemma mingru_causal_witness :
  exists out out',
    mingru x_demo h_demo weight_demo (Some bias_demo) = Ok out /\
    mingru x_single h_demo weight_demo (Some bias_demo) = Ok out' /\
    forall b c, (b < 1)%nat -> (c < 1)%nat ->
                data out [b; O; c] = data out' [b; O; c].
Proof.
  apply (mingru_causal 1 3 1 1 1 x_demo x_single h_demo weight_demo
           (Some bias_demo) 0).
  - reflexivity.
  - reflexivity.
  - reflexivity.
  - reflexivity.
  - exact demo_x_finite.
  - intros idx _. eexists; reflexivity.
  - exact demo_h_positive.
  - exact demo_weight_finite.
  - exact demo_bias_ok.
  - lia.
  - lia.
  - intros b k i _ _ _. reflexivity.
Defined.

(** ** Evaluation in pieces *)

Lemma narrow1_shape B T I s len x :
  shape x = [B; T; I] -> shape (narrow 1 s len x) = [B; len; I].
Proof. intros Hx. unfold narrow. simpl. rewrite Hx. reflexivity. Qed.

Lemma narrow1_finite B T I s len x :
  shape x = [B; T; I] -> (s + len <= T)%nat -> finite x ->
  finite (narrow 1 s len x).
Proof.
  intros Hx Hle Fx idx Hi. rewrite (narrow1_shape _ _ _ _ _ _ Hx) in Hi.
  split_range Hi. simpl. apply Fx. rewrite Hx. solve_range.
Qed.

Lemma last1_spec B T Hd o :
  shape o = [B; T; Hd] -> (1 <= T)%nat ->
  exists hn, last1 o = Ok hn /\ shape hn = [B; 1%nat; Hd] /\
    forall b c, data hn [b; O; c] = data o [b; (T - 1)%nat; c].
Proof.
  intros Ho HT. unfold last1. rewrite Ho. cbn [nth_error].
  eexists. split; [reflexivity |]. unfold narrow. rewrite Ho.
  cbn [shape data set_at shift_at]. split.
  - rewrite Nat.min_r by lia. reflexivity.
  - intros b c. reflexivity.
Qed.

Lemma hseq_app gate cand h0 n j :
  hseq gate cand h0 (n + j)
  = hseq (fun k => gate (k + n)%nat) (fun k => cand (k + n)%nat)
         (hseq gate cand h0 n) j.
Proof.
  induction j as [| j IH].
  - rewrite Nat.add_0_r. reflexivity.
  - rewrite Nat.add_succ_r. simpl. rewrite IH, (Nat.add_comm n j).
    reflexivity.
Qed.

(** X2: a sequence can be evaluated in pieces.  Running [mingru] on the
    first [n] time steps, taking the last hidden state, and running
    [mingru] on the remaining time steps from that state gives, put
    together, the result of one run over the whole sequence. *)
Theorem mingru_in_pieces B n m I Hd x h w bias :
  (1 <= n)%nat ->
  shape x = [B; (n + m)%nat; I] -> shape h = [B; 1%nat; Hd] ->
  shape w = [(2 * Hd)%nat; I] ->
  finite x -> positive h -> finite w -> bias_ok bias (2 * Hd) ->
  exists o1 hn o2 o12 o,
    mingru (narrow 1 0 n x) h w bias = Ok o1 /\
    last1 o1 = Ok hn /\
    mingru (narrow 1 n m x) hn w bias = Ok o2 /\
    cat1 o1 o2 = Ok o12 /\
    mingru x h w bias = Ok o /\
    teq o o12.
Proof.
  intros Hn Hx Hh Hw Fx Ph Fw Hb.
  set (G := fun b c k => lin_r I x w bias b k c).
  destruct (mingru_spec _ _ _ _ _ _ _ _ Hx Hh Hw Fx Ph Fw Hb)
    as (o & Eo & So & Do).
  pose proof (narrow1_shape _ _ _ 0 n _ Hx) as Hx1.
  pose proof (narrow1_shape _ _ _ n m _ Hx) as Hx2.
  destruct (mingru_spec _ _ _ _ _ _ _ _ Hx1 Hh Hw
              (narrow1_finite _ _ _ 0 n _ Hx ltac:(lia) Fx) Ph Fw Hb)
    as (o1 & Eo1 & So1 & Do1).
  assert (Do1' : forall b t c, (b < B)%nat -> (t < n)%nat -> (c < Hd)%nat ->
            data o1 [b; t; c]
            = Fin (hseq (G b c) (G b (c + Hd)%nat)
                        (toR (data h [b; O; c])) (S t))).
  { intros b t c Hb' Ht Hc. rewrite Do1 by assumption. f_equal.
    apply hseq_ext; intros k Hk; unfold G, lin_r; simpl;
      rewrite Nat.add_0_r; reflexivity. }
  destruct (last1_spec _ _ _ _ So1 Hn) as (hn & Ehn & Shn & Dhn).
  assert (Dhn' : forall b c, (b < B)%nat -> (c < Hd)%nat ->
            data hn [b; O; c]
            = Fin (hseq (G b c) (G b (c + Hd)%nat)
                        (toR (data h [b; O; c])) n)).
  { intros b c Hb' Hc. rewrite Dhn, Do1' by (assumption || lia).
    replace (S (n - 1)) with n by lia. reflexivity. }
  assert (Phn : positive hn).
  { intros idx Hi. rewrite Shn in Hi.
    apply in_range_state in Hi as (b & c & -> & Hb' & Hc).
    rewrite Dhn' by assumption. eexists; split; [reflexivity |].
    apply hseq_pos.
    destruct (Ph [b; O; c]) as (r & -> & Hr); [rewrite Hh; solve_range |].
    assumption. }
  destruct (mingru_spec _ _ _ _ _ _ _ _ Hx2 Shn Hw
              (narrow1_finite _ _ _ n m _ Hx ltac:(lia) Fx) Phn Fw Hb)
    as (o2 & Eo2 & So2 & Do2).
  destruct (cat1_spec B n m [Hd] o1 o2 So1 So2) as (o12 & E12 & S12 & D12).
  exists o1, hn, o2, o12, o. repeat split; try assumption.
  - congruence.
  - intros idx Hi. rewrite So in Hi. split_range Hi.
    rewrite Do, D12 by assumption.
    destruct (Nat.ltb_spec i0 n) as [Hlt | Hge].
    + rewrite Do1' by assumption. reflexivity.
    + rewrite Do2, Dhn' by (assumption || lia). f_equal.
      replace (S i0) with (n + S (i0 - n))%nat by lia.
      rewrite hseq_app. reflexivity.
Qed.

Lemma mingru_in_pieces_witness :
  exists o1 hn o2 o12 o,
    mingru (narrow 1 0 1 x_demo) h_demo weight_demo (Some bias_demo) = Ok o1 /\
    last1 o1 = Ok hn /\
    mingru (narrow 1 1 2 x_demo) hn weight_demo (Some bias_demo) = Ok o2 /\
    cat1 o1 o2 = Ok o12 /\
    mingru x_demo h_demo weight_demo (Some bias_demo) = Ok o /\
    teq o o12.
Proof.
  apply (mingru_in_pieces 1 1 2 1 1 x_demo h_demo weight_demo (Some bias_demo)).
  - lia.
  - reflexivity.
  - reflexivity.
  - reflexivity.
  - exact demo_x_finite.
  - exact demo_h_positive.
  - exact demo_weight_finite.
  - exact demo_bias_ok.
Defined.

(** ** Bounds and monotonicity *)

Lemma hseq_bounds gate cand h0 lo hi n :
  lo <= h0 <= hi ->
  (forall k, (k < n)%nat -> lo <= g_real (cand k) <= hi) ->
  lo <= hseq gate cand h0 n <= hi.
Proof.
  intros Hh. induction n as [| n IH]; intros Hc; simpl; [assumption |].
  assert (Hn : lo <= hseq gate cand h0 n <= hi)
    by (apply IH; intros; apply Hc; lia).
  assert (Hg : lo <= g_real (cand n) <= hi) by (apply Hc; lia).
  pose proof (sigmoid_pos (gate n)) as Hz0.
  pose proof (sigmoid_lt_1 (gate n)) as Hz1.
  split; nra.
Qed.

(** X3: the hidden states never leave the range spanned by the initial
    state and the candidate activations: when the initial state and every
    candidate activation [g(hidden)] lie in [[lo, hi]], so does every
    hidden state that [mingru] returns. *)
Theorem mingru_bounded B T I Hd x h w bias lo hi :
  shape x = [B; T; I] -> shape h = [B; 1%nat; Hd] ->
  shape w = [(2 * Hd)%nat; I] ->
  finite x -> positive h -> finite w -> bias_ok bias (2 * Hd) ->
  (forall b c, (b < B)%nat -> (c < Hd)%nat ->
     exists v, data h [b; O; c] = Fin v /\ lo <= v <= hi) ->
  (forall y, linear x w bias = Ok y ->
     forall b k c, (b < B)%nat -> (k < T)%nat -> (c < Hd)%nat ->
       exists v, data (g y) [b; k; (c + Hd)%nat] = Fin v /\ lo <= v <= hi) ->
  exists out, mingru x h w bias = Ok out /\
    forall b t c, (b < B)%nat -> (t < T)%nat -> (c < Hd)%nat ->
      exists v, data out [b; t; c] = Fin v /\ lo <= v <= hi.
Proof.
  intros Hx Hh Hw Fx Ph Fw Hb Hh0 Hcand.
  destruct (mingru_spec _ _ _ _ _ _ _ _ Hx Hh Hw Fx Ph Fw Hb)
    as (out & Eo & _ & Do).
  destruct (linear3_gen _ _ _ _ _ _ _ Hx Hw (bias_ok_shape _ _ Hb))
    as (y & Ey & _ & Dy).
  exists out. split; [assumption |].
  intros b t c Hb' Ht Hc. rewrite Do by assumption.
  eexists. split; [reflexivity |]. apply hseq_bounds.
  - destruct (Hh0 b c Hb' Hc) as (v & -> & Hv). assumption.
  - intros k Hk. destruct (Hcand y Ey b k c Hb' ltac:(lia) Hc) as (v & Ev & Hv).
    simpl in Ev. rewrite Dy in Ev.
    rewrite (lin_f_Fin B T I (2 * Hd)) in Ev by (assumption || lia).
    rewrite g_elem_Fin in Ev. injection Ev as <-. assumption.
Qed.

Lemma mingru_bounded_witness :
  exists out, mingru x_demo h_demo weight_demo (Some bias_demo) = Ok out /\
    forall b t c, (b < 1)%nat -> (t < 3)%nat -> (c < 1)%nat ->
      exists v, data out [b; t; c] = Fin v /\ 1 / 2 <= v <= 3 / 2.
Proof.
  apply (mingru_bounded 1 3 1 1 x_demo h_demo weight_demo (Some bias_demo)).
  - reflexivity.
  - reflexivity.
  - reflexivity.
  - exact demo_x_finite.
  - exact demo_h_positive.
  - exact demo_weight_finite.
  - exact demo_bias_ok.
  - intros b c _ _. exists (1 / 2). split; [| lra].
    change (g_elem (Fin 0) = Fin (1 / 2)).
    rewrite g_elem_Fin, g_real_0. reflexivity.
  - intros y Ey b k c Hb Hk Hc.
    destruct (linear3_gen 1 3 1 (2 * 1) x_demo weight_demo (Some bias_demo))
      as (y' & Ey' & _ & Dy); [reflexivity | reflexivity | reflexivity |].
    rewrite Ey in Ey'. injection Ey' as <-.
    exists (3 / 2). split; [| lra]. simpl. rewrite Dy.
    rewrite (lin_f_Fin 1 3 1 (2 * 1))
      by (reflexivity || lia || exact demo_x_finite
          || exact demo_weight_finite || exact demo_bias_ok).
    assert (c = O) by lia. subst c.
    replace (lin_r 1 x_demo weight_demo (Some bias_demo) b k (0 + 1)) with 1
      by (unfold lin_r; simpl; lra).
    rewrite g_elem_Fin, g_real_1. reflexivity.
Defined.

Lemma sigmoid_increasing a b : a < b -> sigmoid a < sigmoid b.
Proof.
  intros Hab. unfold sigmoid.
  pose proof (exp_pos (- a)). pose proof (exp_pos (- b)).
  apply Rinv_lt_contravar.
  - apply Rmult_lt_0_compat; lra.
  - assert (exp (- b) < exp (- a)) by (apply exp_increasing; lra). lra.
Qed.

Lemma sigmoid_neg_lt_half a : a < 0 -> sigmoid a < 1 / 2.
Proof.
  intros Ha. rewrite <- sigmoid_0. apply sigmoid_increasing. assumption.
Qed.

Lemma g_real_increasing a b : a < b -> g_real a < g_real b.
Proof.
  intros Hab. unfold g_real.
  destruct (Rle_dec 0 a) as [Ha | Ha], (Rle_dec 0 b) as [Hb | Hb].
  - lra.
  - lra.
  - assert (sigmoid a < 1 / 2) by (apply sigmoid_neg_lt_half; lra). lra.
  - apply sigmoid_increasing. assumption.
Qed.

(** X4: the activation [g] is monotone: a larger input never gives a
    smaller value, the negative inputs are sent to at most [0.5] and the
    others to at least [0.5].  (Over exact real arithmetic the inequalities
    are strict; rounding merges neighbouring values.) *)
Theorem g_monotone (x : tensor) (i j : list nat) (a b : R) :
  data x i = Fin a -> data x j = Fin b ->
  exists u v, data (g x) i = Fin u /\ data (g x) j = Fin v /\
    (a <= b -> u <= v) /\ (a < 0 -> u <= 1 / 2) /\ (0 <= a -> 1 / 2 <= u).
Proof.
  intros Ha Hb. exists (g_real a), (g_real b).
  split; [simpl; rewrite Ha; apply g_elem_Fin |].
  split; [simpl; rewrite Hb; apply g_elem_Fin |].
  split; [| split].
  - intros [Hlt | ->]; [left; apply g_real_increasing; exact Hlt | right].
    reflexivity.
  - intros H. unfold g_real. destruct (Rle_dec 0 a); [lra |].
    left. apply sigmoid_neg_lt_half. exact H.
  - intros H. unfold g_real. destruct (Rle_dec 0 a); lra.
Qed.

Lemma g_monotone_witness :
  exists u v,
    data (g (mkT [2%nat] (fun idx => Fin (match idx with
                                          | [O] => -1
                                          | _ => 1
                                          end)))) [O] = Fin u /\
    data (g (mkT [2%nat] (fun idx => Fin (match idx with
                                          | [O] => -1
                                          | _ => 1
                                          end)))) [1%nat] = Fin v /\
    (-1 <= 1 -> u <= v) /\ (-1 < 0 -> u <= 1 / 2) /\ (0 <= -1 -> 1 / 2 <= u).
Proof.
  apply (g_monotone
           (mkT [2%nat] (fun idx => Fin (match idx with
                                         | [O] => -1
                                         | _ => 1
                                         end))) [O] [1%nat] (-1) 1);
    reflexivity.
Defined.

(** ** Arguments that do not fit *)

(** X5: [mingru] rejects an input whose feature size is not the input size
    of the weight, with the error of [F.linear], on either branch; and it
    rejects an input without a time axis when it reads [x.shape[1]]. *)
Theorem mingru_rejects_misshaped_input B T I I' outd x x0 h w bias :
  shape x = [B; T; I] -> shape w = [outd; I'] -> I <> I' ->
  (length (shape x0) < 2)%nat ->
  mingru x h w bias = Raise RuntimeError /\
  mingru_sequential x h w bias = Raise RuntimeError /\
  mingru_parallel x h w bias = Raise RuntimeError /\
  mingru x0 h w bias = Raise IndexError.
Proof.
  intros Hx Hw Hne H0.
  assert (Hlin : linear x w bias = Raise RuntimeError).
  { unfold linear. rewrite Hw, Hx. simpl.
    destruct (Nat.eqb_spec I I'); [contradiction | reflexivity]. }
  assert (Hs : mingru_sequential x h w bias = Raise RuntimeError)
    by (unfold mingru_sequential; rewrite Hlin; reflexivity).
  assert (Hp : mingru_parallel x h w bias = Raise RuntimeError)
    by (unfold mingru_parallel; rewrite Hlin; reflexivity).
  repeat split; try assumption.
  - unfold mingru. rewrite Hx. cbn [nth_error].
    destruct (T =? 1)%nat; assumption.
  - unfold mingru. destruct (shape x0) as [| a [| b r]]; simpl in *;
      try reflexivity. lia.
Qed.

Lemma mingru_rejects_misshaped_input_witness :
  mingru x_demo h_demo (new_zeros [2; 5]%nat) (Some bias_demo)
  = Raise RuntimeError /\
  mingru_sequential x_demo h_demo (new_zeros [2; 5]%nat) (Some bias_demo)
  = Raise RuntimeError /\
  mingru_parallel x_demo h_demo (new_zeros [2; 5]%nat) (Some bias_demo)
  = Raise RuntimeError /\
  mingru (new_zeros [4%nat]) h_demo (new_zeros [2; 5]%nat) (Some bias_demo)
  = Raise IndexError.
Proof.
  apply (mingru_rejects_misshaped_input 1 3 1 5 2); try reflexivity.
  - lia.
  - simpl. lia.
Defined.

Lemma bshape_state_width1 B Hd :
  bshape [B; 1%nat; Hd] [B; 1%nat; 1%nat] = Some [B; 1%nat; Hd].
Proof.
  unfold bshape. simpl. unfold bdim.
  destruct (Nat.eqb_spec Hd 1) as [-> | Hne]; simpl;
    rewrite Nat.eqb_refl; reflexivity.
Qed.

(** An elementwise operation of a [(B, 1, Hd)] tensor with a [(B, 1, 1)]
    tensor: the single channel of the second is used for every channel. *)
Lemma tzip_state_width1 f a h B Hd :
  shape a = [B; 1%nat; Hd] -> shape h = [B; 1%nat; 1%nat] ->
  exists t, tzip f a h = Ok t /\ shape t = [B; 1%nat; Hd] /\
    forall b c, (b < B)%nat -> (c < Hd)%nat ->
      data t [b; O; c] = f (data a [b; O; c]) (data h [b; O; O]).
Proof.
  intros Ha Hh. unfold tzip. rewrite Ha, Hh, bshape_state_width1.
  eexists. split; [reflexivity |]. split; [reflexivity |].
  intros b c Hb Hc. cbn [data].
  rewrite (bidx_same [B; 1%nat; Hd]) by solve_range.
  unfold bidx. simpl.
  destruct (Nat.eqb_spec B 1) as [-> | Hne].
  - replace b with O by lia. reflexivity.
  - reflexivity.
Qed.

(** X6: a hidden state of the wrong width is treated differently by the
    two branches.  On any length other than one the parallel branch
    rejects it when it concatenates the log-values; on a single time step
    a state of width one is accepted and used for every channel, and any
    other wrong width is rejected by the elementwise product. *)
Theorem mingru_hidden_width_mismatch B T I Hd Hd' x h w bias :
  shape x = [B; T; I] -> shape h = [B; 1%nat; Hd'] ->
  shape w = [(2 * Hd)%nat; I] -> bias_shape bias (2 * Hd) ->
  Hd' <> Hd ->
  (T <> 1%nat -> mingru x h w bias = Raise RuntimeError) /\
  (T = 1%nat -> Hd' = 1%nat ->
   exists out, mingru x h w bias = Ok out /\ shape out = [B; 1%nat; Hd] /\
     forall b c, (b < B)%nat -> (c < Hd)%nat ->
       data out [b; O; c]
       = step_f (lin_f I x w bias b 0 c) (lin_f I x w bias b 0 (c + Hd))
                (data h [b; O; O])) /\
  (T = 1%nat -> Hd' <> 1%nat -> Hd <> 1%nat ->
   mingru x h w bias = Raise RuntimeError).
Proof.
  intros Hx Hh Hw Hb Hne.
  destruct (linear3_gen _ _ _ _ _ _ _ Hx Hw Hb) as (y & Ey & Sy & Dy).
  destruct (chunk2_last3_spec _ _ _ _ Sy)
    as (gate & hidden & Ec & Sg & Shid & Dg & Dhid).
  unfold mingru. rewrite Hx. cbn [nth_error].
  split; [| split].
  - intros HT. destruct (Nat.eqb_spec T 1); [contradiction |].
    unfold mingru_parallel. rewrite Ey. cbn [bind]. rewrite Ec. cbn [bind].
    destruct (tzip_same fadd (neg_t (softplus_t (neg_t gate))) (log_g hidden))
      as (v & Ev & Sv & _); [simpl; congruence |].
    unfold add at 1. rewrite Ev. cbn [bind].
    unfold cat1. simpl shape at 1. rewrite Hh, Sv. simpl shape.
    rewrite Sg, Nat.eqb_refl. cbn [shape_eqb andb].
    destruct (Nat.eqb_spec Hd' Hd); [contradiction | reflexivity].
  - intros -> ->. cbn [Nat.eqb].
    unfold mingru_sequential. rewrite Ey. cbn [bind]. rewrite Ec. cbn [bind].
    destruct (tzip_state_width1 fmul (rsub 1 (sigmoid_t gate)) h B Hd)
      as (keep & Ek & Sk & Dk); [simpl; assumption | assumption |].
    destruct (tzip_same fmul (sigmoid_t gate) (g hidden)) as (new & En & Sn & Dn);
      [simpl; congruence |].
    unfold mul. rewrite Ek. cbn [bind]. rewrite En. cbn [bind].
    simpl in Sn, Dn.
    destruct (tzip_same fadd keep new) as (out & Eo & So & Do);
      [congruence |].
    unfold add. rewrite Eo. exists out. split; [reflexivity |].
    split; [congruence |].
    intros b c Hb' Hc.
    rewrite Do by (rewrite Sk; solve_range).
    rewrite Dk by assumption. rewrite Dn by (rewrite Sg; solve_range).
    simpl. rewrite Dg, Dhid, !Dy. reflexivity.
  - intros -> H1 H2. cbn [Nat.eqb].
    unfold mingru_sequential. rewrite Ey. cbn [bind]. rewrite Ec. cbn [bind].
    unfold mul at 1, tzip. simpl shape. rewrite Sg, Hh.
    unfold bshape. simpl. unfold bdim.
    destruct (Nat.eqb_spec Hd Hd'); [congruence |].
    destruct (Nat.eqb_spec Hd 1); [contradiction |].
    destruct (Nat.eqb_spec Hd' 1); [contradiction |].
    reflexivity.
Qed.

Lemma mingru_hidden_width_mismatch_witness :
  (3%nat <> 1%nat ->
   mingru x_demo (new_zeros [1; 1; 4]%nat) weight_demo (Some bias_demo)
   = Raise RuntimeError) /\
  (3%nat = 1%nat -> 4%nat = 1%nat ->
   exists out,
     mingru x_demo (new_zeros [1; 1; 4]%nat) weight_demo (Some bias_demo)
     = Ok out /\ shape out = [1; 1; 1]%nat /\
     forall b c, (b < 1)%nat -> (c < 1)%nat ->
       data out [b; O; c]
       = step_f (lin_f 1 x_demo weight_demo (Some bias_demo) b 0 c)
                (lin_f 1 x_demo weight_demo (Some bias_demo) b 0 (c + 1))
                (data (new_zeros [1; 1; 4]%nat) [b; O; O])) /\
  (3%nat = 1%nat -> 4%nat <> 1%nat -> 1%nat <> 1%nat ->
   mingru x_demo (new_zeros [1; 1; 4]%nat) weight_demo (Some bias_demo)
   = Raise RuntimeError).
Proof.
  apply (mingru_hidden_width_mismatch 1 3 1 1 4); try reflexivity. lia.
Defined.

(** ** The spatial MinGRU at any height, width and kernel size *)

Lemma conv2d_same_gen N Cin Cout H W k1 k2 xs w bias :
  shape xs = [N; Cin; H; W] -> shape w = [Cout; Cin; k1; k2] ->
  bias_shape bias Cout ->
  exists y, conv2d_same xs w bias = Ok y /\ shape y = [N; Cout; H; W] /\
    forall n o i j,
      data y [n; o; i; j]
      = conv_f Cin H W k1 k2 (fun c p q => data xs [n; c; p; q]) w bias o i j.
Proof.
  intros Hx Hw Hb. unfold conv2d_same. rewrite Hx, Hw, Nat.eqb_refl.
  cbn [negb]. destruct bias as [bt |].
  - simpl in Hb. rewrite Hb. cbn [shape_eqb]. rewrite Nat.eqb_refl.
    cbn [andb]. eexists. split; [reflexivity |]. split; reflexivity.
  - eexists. split; [reflexivity |]. split; reflexivity.
Qed.

Lemma conv_f_ext Cin H W k1 k2 img img' w bias o i j :
  (forall c p q, (c < Cin)%nat -> (p < H)%nat -> (q < W)%nat ->
                 img c p q = img' c p q) ->
  conv_f Cin H W k1 k2 img w bias o i j
  = conv_f Cin H W k1 k2 img' w bias o i j.
Proof.
  intros Himg. unfold conv_f.
  assert (Hc : fsum Cin (fun c => fsum k1 (fun u => fsum k2 (fun v =>
                 fmul (if ((k1 - 1) / 2 <=? i + u)%nat
                          && (i + u <? (k1 - 1) / 2 + H)%nat
                          && ((k2 - 1) / 2 <=? j + v)%nat
                          && (j + v <? (k2 - 1) / 2 + W)%nat
                       then img c (i + u - (k1 - 1) / 2)%nat
                                (j + v - (k2 - 1) / 2)%nat
                       else Fin 0)
                      (data w [o; c; u; v]))))
               = fsum Cin (fun c => fsum k1 (fun u => fsum k2 (fun v =>
                 fmul (if ((k1 - 1) / 2 <=? i + u)%nat
                          && (i + u <? (k1 - 1) / 2 + H)%nat
                          && ((k2 - 1) / 2 <=? j + v)%nat
                          && (j + v <? (k2 - 1) / 2 + W)%nat
                       then img' c (i + u - (k1 - 1) / 2)%nat
                                 (j + v - (k2 - 1) / 2)%nat
                       else Fin 0)
                      (data w [o; c; u; v]))))).
  { apply fsum_ext. intros c Hc. apply fsum_ext. intros u Hu.
    apply fsum_ext. intros v Hv.
    destruct (Nat.leb_spec ((k1 - 1) / 2) (i + u)); [| reflexivity].
    destruct (Nat.ltb_spec (i + u) ((k1 - 1) / 2 + H)); [| reflexivity].
    destruct (Nat.leb_spec ((k2 - 1) / 2) (j + v)); [| reflexivity].
    destruct (Nat.ltb_spec (j + v) ((k2 - 1) / 2 + W)); [| reflexivity].
    cbn [andb]. rewrite Himg by lia. reflexivity. }
  cbv zeta. rewrite Hc. reflexivity.
Qed.

Lemma conv_f_Fin Cin Cout H W k1 k2 img imgr w bias o i j :
  shape w = [Cout; Cin; k1; k2] -> finite w -> bias_ok bias Cout ->
  (forall c p q, (c < Cin)%nat -> (p < H)%nat -> (q < W)%nat ->
                 img c p q = Fin (imgr c p q)) ->
  (o < Cout)%nat ->
  conv_f Cin H W k1 k2 img w bias o i j
  = Fin (conv_r Cin H W k1 k2 imgr w bias o i j).
Proof.
  intros Hw Fw Hb Himg Ho. unfold conv_f, conv_r. cbv zeta.
  rewrite (fsum_Fin Cin _ (fun c => rsum k1 (fun u => rsum k2 (fun v =>
             (if ((k1 - 1) / 2 <=? i + u)%nat
                 && (i + u <? (k1 - 1) / 2 + H)%nat
                 && ((k2 - 1) / 2 <=? j + v)%nat
                 && (j + v <? (k2 - 1) / 2 + W)%nat
              then imgr c (i + u - (k1 - 1) / 2)%nat
                        (j + v - (k2 - 1) / 2)%nat
              else 0)
             * toR (data w [o; c; u; v]))))).
  - destruct bias as [bt |]; simpl.
    + destruct Hb as [Hbs Hbf].
      rewrite (is_finite_toR (data bt [o])) at 1; [reflexivity |].
      apply Hbf. rewrite Hbs. solve_range.
    + rewrite Rplus_0_r. reflexivity.
  - intros c Hc. apply fsum_Fin. intros u Hu. apply fsum_Fin. intros v Hv.
    rewrite (is_finite_toR (data w [o; c; u; v])) at 1
      by (apply Fw; rewrite Hw; solve_range).
    destruct (Nat.leb_spec ((k1 - 1) / 2) (i + u)); [| reflexivity].
    destruct (Nat.ltb_spec (i + u) ((k1 - 1) / 2 + H)); [| reflexivity].
    destruct (Nat.leb_spec ((k2 - 1) / 2) (j + v)); [| reflexivity].
    destruct (Nat.ltb_spec (j + v) ((k2 - 1) / 2 + W)); [| reflexivity].
    cbn [andb]. rewrite Himg by lia. reflexivity.
Qed.

(** The spatial one-step update on well-shaped inputs, whatever the
    values. *)
Lemma conv_mingru_sequential_full B Cin Hd H W k1 k2 x h w bias :
  shape x = [B; 1%nat; Cin; H; W] -> shape h = [B; 1%nat; Hd; H; W] ->
  shape w = [(2 * Hd)%nat; Cin; k1; k2] -> bias_shape bias (2 * Hd) ->
  exists out, conv_mingru_sequential x h w bias = Ok out /\
    shape out = [B; 1%nat; Hd; H; W] /\
    forall b c i j,
      (b < B)%nat -> (c < Hd)%nat -> (i < H)%nat -> (j < W)%nat ->
      data out [b; O; c; i; j]
      = step_f (conv_f Cin H W k1 k2 (frame x b 0) w bias c i j)
               (conv_f Cin H W k1 k2 (frame x b 0) w bias (c + Hd) i j)
               (data h [b; O; c; i; j]).
Proof.
  intros Hx Hh Hw Hb. unfold conv_mingru_sequential.
  unfold squeeze1 at 1. rewrite Hx. cbn [Nat.eqb bind].
  match goal with
  | |- context [conv2d_same ?t w bias] => set (xs := t)
  end.
  destruct (conv2d_same_gen B Cin (2 * Hd) H W k1 k2 xs w bias)
    as (y & Ey & Sy & Dy); [reflexivity | assumption | assumption |].
  rewrite Ey. cbn [bind].
  unfold chunk2. rewrite Sy. cbn [nth_error].
  rewrite double_neq_1, half_double. cbn [bind].
  set (gate := narrow 1 0 Hd y).
  set (hidden := narrow 1 Hd (2 * Hd - Hd) y).
  assert (Sg : shape gate = [B; Hd; H; W]).
  { unfold gate, narrow. rewrite Sy. reflexivity. }
  assert (Shid : shape hidden = [B; Hd; H; W]).
  { unfold hidden, narrow. rewrite Sy. cbn [shape set_at].
    do 2 f_equal. lia. }
  assert (Dg : forall b c i j, data gate [b; c; i; j] = data y [b; c; i; j]).
  { intros b c i j. unfold gate, narrow. cbn [data shift_at].
    rewrite Nat.add_0_r. reflexivity. }
  assert (Dhid : forall b c i j,
            data hidden [b; c; i; j] = data y [b; (c + Hd)%nat; i; j]).
  { intros b c i j. reflexivity. }
  clearbody gate hidden.
  unfold squeeze1. rewrite Hh. cbn [Nat.eqb bind].
  match goal with
  | |- context [mul (rsub 1 (sigmoid_t gate)) ?t] => set (hs := t)
  end.
  destruct (tzip_same fmul (rsub 1 (sigmoid_t gate)) hs) as (keep & Ek & Sk & Dk).
  { simpl. assumption. }
  destruct (tzip_same fmul (sigmoid_t gate) (g hidden)) as (new & En & Sn & Dn).
  { simpl. congruence. }
  unfold mul. rewrite Ek. cbn [bind]. rewrite En. cbn [bind].
  destruct (tzip_same fadd keep new) as (h_t & Et & St & Dt).
  { simpl in *. congruence. }
  unfold add. rewrite Et. cbn [bind].
  simpl in Sk, Sn, Dk, Dn. rewrite Sk, Sg in St.
  unfold unsqueeze1. rewrite St.
  eexists. split; [reflexivity |]. split; [reflexivity |].
  intros b c i j Hb' Hc Hi Hj. cbn [data].
  rewrite Dt by (rewrite Sk, Sg; solve_range).
  rewrite Dk, Dn by (rewrite Sg; solve_range).
  unfold step_f, sigmoid_t, rsub, g, tmap. cbn [data].
  rewrite Dg, Dhid, !Dy. reflexivity.
Qed.

(** The spatial parallel evaluation on well-shaped inputs, whatever the
    values. *)
Lemma conv_mingru_parallel_full B T Cin Hd H W k1 k2 x h w bias :
  shape x = [B; T; Cin; H; W] -> shape h = [B; 1%nat; Hd; H; W] ->
  shape w = [(2 * Hd)%nat; Cin; k1; k2] -> bias_shape bias (2 * Hd) ->
  contiguous x \/ T = O ->
  exists out, conv_mingru_parallel x h w bias = Ok out /\
    shape out = [B; T; Hd; H; W] /\
    forall b t c i j,
      (b < B)%nat -> (t < T)%nat -> (c < Hd)%nat ->
      (i < H)%nat -> (j < W)%nat ->
      data out [b; t; c; i; j]
      = par_lane_f
          (fun k => conv_f Cin H W k1 k2 (frame x b k) w bias c i j)
          (fun k => conv_f Cin H W k1 k2 (frame x b k) w bias (c + Hd) i j)
          (data h [b; O; c; i; j]) (S t).
Proof.
  intros Hx Hh Hw Hb Hcx. unfold conv_mingru_parallel. rewrite Hx, Hh.
  cbn [nth_error].
  destruct (view_merge B T Cin H W x Hx Hcx) as (xv & Exv & Sxv & Dxv).
  rewrite Exv. cbn [bind].
  destruct (conv2d_same_gen (B * T) Cin (2 * Hd) H W k1 k2 xv w bias Sxv Hw Hb)
    as (y & Ey & Sy & Dy).
  rewrite Ey. cbn [bind].
  destruct (view_split B T (2 * Hd) (Hd * 2) H W y Sy) as (yv & Eyv & Syv & Dyv);
    [lia | apply (conv2d_same_contiguous _ _ _ _ Ey) |].
  rewrite Eyv. cbn [bind].
  unfold chunk2. rewrite Syv. cbn [nth_error].
  rewrite double_comm_neq_1.
  replace ((Hd * 2 + 1) / 2)%nat with Hd
    by (rewrite Nat.mul_comm, half_double; reflexivity).
  cbn [bind].
  set (gate := narrow 2 0 Hd yv).
  set (hidden := narrow 2 Hd (Hd * 2 - Hd) yv).
  assert (Sg : shape gate = [B; T; Hd; H; W]).
  { unfold gate, narrow. rewrite Syv. reflexivity. }
  assert (Shid : shape hidden = [B; T; Hd; H; W]).
  { unfold hidden, narrow. rewrite Syv. cbn [shape set_at].
    do 3 f_equal. lia. }
  destruct (parallel_body_gen B T [Hd; H; W] gate hidden h Sg Shid Hh)
    as (out & Eo & So & Do).
  exists out. split; [exact Eo |]. split; [assumption |].
  intros b t c i j Hb' Ht Hc Hi Hj.
  rewrite Do by (assumption || solve_range).
  assert (Hy : forall k o, (k < T)%nat -> (o < 2 * Hd)%nat ->
            data yv [b; k; o; i; j]
            = conv_f Cin H W k1 k2 (frame x b k) w bias o i j).
  { intros k o Hk Ho. rewrite Dyv by lia. rewrite Dy.
    apply conv_f_ext. intros ch p q Hch Hp Hq.
    rewrite Dxv by lia. reflexivity. }
  apply scan_lane_f_ext.
  - intros k Hk. unfold gate, narrow. cbn [data shift_at].
    rewrite Nat.add_0_r, Hy by lia. reflexivity.
  - intros [| k] Hk; [reflexivity |].
    unfold gate, hidden, narrow. cbn [data shift_at].
    rewrite Nat.add_0_r, !Hy by lia. reflexivity.
Qed.

Lemma frame_Fin B T Cin H W x b t :
  shape x = [B; T; Cin; H; W] -> finite x -> (b < B)%nat -> (t < T)%nat ->
  forall c p q, (c < Cin)%nat -> (p < H)%nat -> (q < W)%nat ->
                frame x b t c p q = Fin (frame_r x b t c p q).
Proof.
  intros Hx Fx Hb Ht c p q Hc Hp Hq. unfold frame, frame_r.
  apply is_finite_toR, Fx. rewrite Hx. solve_range.
Qed.

(** [conv_mingru] on well-shaped finite inputs with a positive initial
    state, whatever the branch: every lane carries the recurrence. *)
Lemma conv_mingru_spec B T Cin Hd H W k1 k2 x h w bias :
  shape x = [B; T; Cin; H; W] -> shape h = [B; 1%nat; Hd; H; W] ->
  shape w = [(2 * Hd)%nat; Cin; k1; k2] ->
  finite x -> positive h -> finite w -> bias_ok bias (2 * Hd) ->
  contiguous x \/ (T <= 1)%nat ->
  exists out, conv_mingru x h w bias = Ok out /\
    shape out = [B; T; Hd; H; W] /\
    forall b t c i j,
      (b < B)%nat -> (t < T)%nat -> (c < Hd)%nat ->
      (i < H)%nat -> (j < W)%nat ->
      data out [b; t; c; i; j]
      = Fin (hseq
               (fun k => conv_r Cin H W k1 k2 (frame_r x b k) w bias c i j)
               (fun k => conv_r Cin H W k1 k2 (frame_r x b k) w bias
                                (c + Hd) i j)
               (toR (data h [b; O; c; i; j])) (S t)).
Proof.
  intros Hx Hh Hw Fx Ph Fw Hb Hcx.
  assert (Hconv : forall b k o i j, (b < B)%nat -> (k < T)%nat ->
            (o < 2 * Hd)%nat ->
            conv_f Cin H W k1 k2 (frame x b k) w bias o i j
            = Fin (conv_r Cin H W k1 k2 (frame_r x b k) w bias o i j)).
  { intros b k o i j Hb' Hk Ho.
    apply (conv_f_Fin Cin (2 * Hd)); try assumption.
    apply (frame_Fin B T Cin H W); assumption. }
  unfold conv_mingru. rewrite Hx. cbn [nth_error].
  destruct (Nat.eqb_spec T 1) as [-> | HT].
  - destruct (conv_mingru_sequential_full _ _ _ _ _ _ _ _ _ _ _
                Hx Hh Hw (bias_ok_shape _ _ Hb)) as (out & Eo & So & Do).
    exists out. split; [assumption |]. split; [assumption |].
    intros b t c i j Hb' Ht Hc Hi Hj. assert (t = O) by lia. subst t.
    rewrite Do by assumption. rewrite !Hconv by lia.
    destruct (Ph [b; O; c; i; j]) as (r & -> & Hr); [rewrite Hh; solve_range |].
    unfold step_f. rewrite g_elem_Fin. reflexivity.
  - assert (Hcx' : contiguous x \/ T = O)
      by (destruct Hcx as [Hc | Hle]; [left; exact Hc | right; lia]).
    destruct (conv_mingru_parallel_full _ _ _ _ _ _ _ _ _ _ _ _
                Hx Hh Hw (bias_ok_shape _ _ Hb) Hcx')
      as (out & Eo & So & Do).
    exists out. split; [assumption |]. split; [assumption |].
    intros b t c i j Hb' Ht Hc Hi Hj. rewrite Do by assumption.
    destruct (Ph [b; O; c; i; j]) as (r & -> & Hr); [rewrite Hh; solve_range |].
    apply par_lane_f_Fin; [assumption | |]; intros k Hk; apply Hconv; lia.
Qed.



Lemma in_range_state5 B Hd H W idx :
  in_range [B; 1%nat; Hd; H; W] idx ->
  exists b c i j, idx = [b; O; c; i; j] /\
    (b < B)%nat /\ (c < Hd)%nat /\ (i < H)%nat /\ (j < W)%nat.
Proof.
  intros Hi. split_range Hi. exists i, i1, i2, i3.
  repeat split; try assumption. do 2 f_equal. lia.
Qed.



(** X8: the spatial MinGRU keeps the spatial size and, over exact real
    arithmetic, the positivity.  For any kernel size and an input that is
    contiguous in memory or has at most one time step, [conv_mingru]
    returns hidden states of the height and width of the input, and with
    finite values and a strictly positive initial state each of them is,
    without rounding, a finite and strictly positive number. *)
Theorem conv_mingru_positive B T Cin Hd H W k1 k2 x h w bias :
  shape x = [B; T; Cin; H; W] -> shape h = [B; 1%nat; Hd; H; W] ->
  shape w = [(2 * Hd)%nat; Cin; k1; k2] ->
  contiguous x \/ (T <= 1)%nat ->
  finite x -> positive h -> finite w -> bias_ok bias (2 * Hd) ->
  exists out, conv_mingru x h w bias = Ok out /\
    shape out = [B; T; Hd; H; W] /\ positive out.
Proof.
  intros Hx Hh Hw Hcx Fx Ph Fw Hb.
  destruct (conv_mingru_spec _ _ _ _ _ _ _ _ _ _ _ _ Hx Hh Hw Fx Ph Fw Hb Hcx)
    as (out & Eo & So & Do).
  exists out. split; [assumption |]. split; [assumption |].
  intros idx Hi. rewrite So in Hi. split_range Hi.
  rewrite Do by assumption. eexists; split; [reflexivity |].
  apply hseq_pos.
  destruct (Ph [i; O; i1; i2; i3]) as (r & -> & Hr); [rewrite Hh; solve_range |].
  assumption.
Qed.

Lemma batch_img_x_finite : finite x_batch_img.
Proof. intros idx _. eexists; reflexivity. Qed.

Lemma batch_img_h_positive : positive h_batch_img.
Proof.
  intros idx _. change (data h_batch_img idx) with (g_elem (Fin 0)).
  rewrite g_elem_Fin. eexists; split; [reflexivity | apply g_real_pos].
Qed.

Lemma demo_img_weight_finite : finite weight_demo_img.
Proof. intros idx _. eexists; reflexivity. Qed.


Lemma conv_mingru_positive_witness :
  exists out,
    conv_mingru x_batch_img h_batch_img weight_demo_img (Some bias_demo) = Ok out /\
    shape out = [2; 3; 1; 2; 2]%nat /\ positive out.
Proof.
  apply (conv_mingru_positive 2 3 1 1 2 2 3 3).
  - reflexivity.
  - reflexivity.
  - reflexivity.
  - left. reflexivity.
  - exact batch_img_x_finite.
  - exact batch_img_h_positive.
  - exact demo_img_weight_finite.
  - exact demo_bias_ok.
Defined.

(** X9: [conv_mingru] rejects an input whose number of channels is not that
    of the kernel, with the error of the convolution, on either branch; and
    on a length other than one it rejects an input that is not
    5-dimensional when it unpacks [x.shape]. *)
Theorem conv_mingru_rejects_misshaped_input
  B T Cin Cin' outd Hd H W k1 k2 x h w bias x0 T0 :
  shape x = [B; T; Cin; H; W] -> shape h = [B; 1%nat; Hd; H; W] ->
  shape w = [outd; Cin'; k1; k2] -> Cin <> Cin' ->
  nth_error (shape x0) 1 = Some T0 -> T0 <> 1%nat ->
  length (shape x0) <> 5%nat ->
  conv_mingru x h w bias = Raise RuntimeError /\
  conv_mingru x0 h w bias = Raise ValueError.
Proof.
  intros Hx Hh Hw Hne H0 HT0 Hlen. split.
  - assert (Hconv : forall N xs, shape xs = [N; Cin; H; W] ->
              conv2d_same xs w bias = Raise RuntimeError).
    { intros N xs Hxs. unfold conv2d_same. rewrite Hxs, Hw.
      destruct (Nat.eqb_spec Cin Cin'); [contradiction | reflexivity]. }
    unfold conv_mingru. rewrite Hx. cbn [nth_error].
    destruct (Nat.eqb_spec T 1) as [-> | HT].
    + unfold conv_mingru_sequential, squeeze1 at 1. rewrite Hx.
      cbn [Nat.eqb bind]. rewrite (Hconv B); reflexivity.
    + unfold conv_mingru_parallel. rewrite Hx, Hh. cbn [nth_error].
      destruct (view [(B * T)%nat; Cin; H; W] x) as [xv | e] eqn:Exv.
      * cbn [bind]. rewrite (Hconv _ _ (view_shape _ _ _ Exv)). reflexivity.
      * cbn [bind]. rewrite (view_raises _ _ _ Exv). reflexivity.
  - unfold conv_mingru. rewrite H0.
    destruct (Nat.eqb_spec T0 1); [contradiction |].
    unfold conv_mingru_parallel.
    destruct (shape x0) as [| a [| b [| c [| d [| e [| f r]]]]]];
      simpl in Hlen; try reflexivity. contradiction.
Qed.

Lemma conv_mingru_rejects_misshaped_input_witness :
  conv_mingru x_demo_img h_demo_img (new_zeros [2; 7; 3; 3]%nat)
              (Some bias_demo) = Raise RuntimeError /\
  conv_mingru x_demo h_demo_img (new_zeros [2; 7; 3; 3]%nat)
              (Some bias_demo) = Raise ValueError.
Proof.
  apply (conv_mingru_rejects_misshaped_input 1 2 1 7 2 1 2 2 3 3
           x_demo_img h_demo_img (new_zeros [2; 7; 3; 3]%nat) (Some bias_demo)
           x_demo 3); try reflexivity.
  - lia.
  - lia.
  - simpl. lia.
Defined.

(** ** The module *)

(** X10: [forward] checks its input before anything else: an input that is
    not 3-dimensional, or whose feature size is not the input size of the
    module, raises AssertionError whatever the hidden states passed. *)
Theorem forward_asserts_input
  (gen : Type) (bernoulli : tensor -> gen -> tensor * gen)
  (self : MinGRU) (x : tensor) (h : option (list tensor)) (s : gen)
  (input_size : nat) :
  nth_error (layer_sizes self) 0 = Some input_size ->
  length (shape x) <> 3%nat \/ nth 2 (shape x) O <> input_size ->
  forward gen bernoulli self x h s = Raise AssertionError.
Proof.
  intros Hsz Hbad. unfold forward, forward_assert. rewrite Hsz.
  destruct (Nat.eqb_spec (length (shape x)) 3) as [H3 | H3]; [| reflexivity].
  destruct Hbad as [Hbad | Hbad]; [contradiction |].
  cbn [bind]. destruct (Nat.eqb_spec (nth 2 (shape x) O) input_size);
    [contradiction | reflexivity].
Qed.

Lemma forward_asserts_input_witness :
  forward unit bernoulli_demo rnn_demo x_demo_img None tt
  = Raise AssertionError.
Proof.
  apply (forward_asserts_input unit bernoulli_demo rnn_demo x_demo_img None tt 1).
  - reflexivity.
  - left. simpl. lia.
Defined.

(** X11: a module constructed with an empty list of hidden sizes has no
    layer, and its [forward] raises UnboundLocalError on every input that
    passes the assertion: the loop never binds [out]. *)
Theorem forward_without_layers
  (gen : Type) (init_values : list nat -> gen -> tensor * gen)
  (bernoulli : tensor -> gen -> tensor * gen)
  (input_size : nat) (dropout_arg : R) (residual_arg bias : bool)
  (s0 s : gen) (x : tensor) (h : option (list tensor)) (B T : nat) :
  shape x = [B; T; input_size] ->
  let self := fst (MinGRU_init gen init_values input_size (SizeList [])
                               dropout_arg residual_arg bias s0) in
  gate_hidden_layers self = [] /\
  forward gen bernoulli self x h s = Raise UnboundLocalError.
Proof.
  intros Hx self. split; [reflexivity |].
  unfold forward, forward_assert. rewrite Hx. simpl.
  rewrite Nat.eqb_refl. cbn [bind].
  destruct h as [l |]; [reflexivity |].
  unfold init_hidden_state. rewrite Hx. reflexivity.
Qed.

Lemma forward_without_layers_witness :
  let self := fst (MinGRU_init unit (fun shp s => (new_zeros shp, s)) 1
                               (SizeList []) 0 false true tt) in
  gate_hidden_layers self = [] /\
  forward unit bernoulli_demo self x_demo None tt = Raise UnboundLocalError.
Proof.
  apply (forward_without_layers unit (fun shp s => (new_zeros shp, s))
           bernoulli_demo 1 0 false true tt tt x_demo None 1 3).
  reflexivity.
Defined.

Lemma forward_loop_no_dropout
  (gen1 gen2 : Type) (b1 : tensor -> gen1 -> tensor * gen1)
  (b2 : tensor -> gen2 -> tensor * gen2) (self : MinGRU) (h : list tensor)
  (s1 : gen1) (s2 : gen2) :
  dropout self <= 0 \/ (num_layers self <= 1)%nat ->
  forall layers lidx inp out acc,
    drop_gen (forward_loop gen1 b1 self h layers lidx inp out acc s1)
    = drop_gen (forward_loop gen2 b2 self h layers lidx inp out acc s2) /\
    same_gen s1 (forward_loop gen1 b1 self h layers lidx inp out acc s1).
Proof.
  intros Hnone. induction layers as [| [w b] rest IH]; intros lidx inp out acc.
  - simpl. destruct out; split; reflexivity.
  - cbn [forward_loop].
    destruct (nth_error h lidx) as [h_prev |]; [| split; reflexivity].
    destruct (mingru inp h_prev w b) as [o | e]; [| split; reflexivity].
    cbn [bind]. destruct (last1 o) as [final | e]; [| split; reflexivity].
    cbn [bind].
    destruct (if residual self
              then match nth_error (align_layers self) lidx with
                   | Some al => a <- align_forward al inp;; add o a
                   | None => Raise IndexError
                   end
              else Ok o) as [o' | e]; [| split; reflexivity].
    cbn [bind].
    assert (Hoff : ((lidx <? num_layers self - 1)%nat
                    && (if Rlt_dec 0 (dropout self) then true else false))%bool
                   = false).
    { destruct Hnone as [Hd | Hn].
      - destruct (Rlt_dec 0 (dropout self)); [lra |]. apply andb_false_r.
      - destruct (Nat.ltb_spec lidx (num_layers self - 1)); [lia |].
        reflexivity. }
    rewrite Hoff. apply IH.
Qed.

(** X12: without dropout nothing is drawn.  When the dropout rate is zero,
    or the module has at most one layer, [forward] returns the generator
    state it was given and its result does not depend on the generator or
    on the sampling function. *)
Theorem forward_without_dropout_is_deterministic
  (gen1 gen2 : Type) (b1 : tensor -> gen1 -> tensor * gen1)
  (b2 : tensor -> gen2 -> tensor * gen2) (self : MinGRU) (x : tensor)
  (h : option (list tensor)) (s1 : gen1) (s2 : gen2) :
  dropout self <= 0 \/ (num_layers self <= 1)%nat ->
  drop_gen (forward gen1 b1 self x h s1)
  = drop_gen (forward gen2 b2 self x h s2) /\
  same_gen s1 (forward gen1 b1 self x h s1).
Proof.
  intros Hnone. unfold forward.
  destruct (forward_assert self x) as [[|] | e]; cbn [bind];
    [| split; reflexivity | split; reflexivity].
  destruct (match h with
            | Some l => Ok l
            | None => init_hidden_state self x
            end) as [l | e]; cbn [bind]; [| split; reflexivity].
  apply forward_loop_no_dropout. assumption.
Qed.

Lemma forward_without_dropout_is_deterministic_witness :
  drop_gen (forward unit bernoulli_demo rnn_demo x_demo None tt)
  = drop_gen (forward nat (fun p n => (new_zeros (shape p), S n))
                      rnn_demo x_demo None 7%nat) /\
  same_gen tt (forward unit bernoulli_demo rnn_demo x_demo None tt).
Proof.
  apply (forward_without_dropout_is_deterministic unit nat bernoulli_demo
           (fun p n => (new_zeros (shape p), S n)) rnn_demo x_demo None tt
           7%nat).
  left. simpl. lra.
Defined.

Lemma last_cons_default {A : Type} (l : list A) (a d : A) :
  last (a :: l) d = last l a.
Proof.
  revert a d. induction l as [| b l IH]; intros a d; [reflexivity |].
  change (last (a :: b :: l) d) with (last (b :: l) d).
  rewrite (IH b d), (IH b a). reflexivity.
Qed.

Lemma skipn_cons_nth {A : Type} (l : list A) n a r :
  skipn n l = a :: r -> nth_error l n = Some a /\ skipn (S n) l = r.
Proof.
  revert l. induction n as [| n IH]; intros l H.
  - destruct l; simpl in H; [discriminate |]. inversion H. split; reflexivity.
  - destruct l as [| x l]; [discriminate |]. simpl in H.
    destruct (IH l H) as [H1 H2]. split; [exact H1 | exact H2].
Qed.

Lemma tzip_finite f a b :
  (forall u v, f (Fin u) (Fin v) = Fin (toR (f (Fin u) (Fin v)))) ->
  shape a = shape b -> finite a -> finite b ->
  exists t, tzip f a b = Ok t /\ shape t = shape a /\ finite t.
Proof.
  intros Hf Hs Fa Fb. destruct (tzip_same f a b Hs) as (t & Ht & Hst & Hd).
  exists t. repeat split; try assumption.
  intros idx Hi. rewrite Hst in Hi. rewrite (Hd idx Hi).
  destruct (Fa idx Hi) as [u ->]. rewrite Hs in Hi.
  destruct (Fb idx Hi) as [v ->]. rewrite Hf. eexists. reflexivity.
Qed.

(** One layer of [forward] on a finite input and a positive state. *)
Lemma forward_layer_ok B T ind outd inp h_prev w b :
  (1 <= T)%nat -> shape inp = [B; T; ind] -> finite inp ->
  state_ok B outd h_prev -> linear_ok ind (2 * outd) (w, b) ->
  exists o final,
    mingru inp h_prev w b = Ok o /\ shape o = [B; T; outd] /\ positive o /\
    last1 o = Ok final /\ state_ok B outd final.
Proof.
  intros HT Hi Fi [Hh Ph] (Hw & Fw & Hb). simpl in Hw, Fw, Hb.
  destruct (mingru_spec B T ind outd inp h_prev w b Hi Hh Hw Fi Ph Fw Hb)
    as (o & Ho & Hso & Hdo).
  assert (Po : positive o).
  { intros idx Hr. rewrite Hso in Hr. split_range Hr.
    rewrite Hdo by assumption. eexists. split; [reflexivity |].
    apply hseq_pos. destruct (Ph [i; O; i1]) as (r & Hr & Hpos).
    - rewrite Hh. solve_range.
    - rewrite Hr. exact Hpos. }
  destruct (last1_spec B T outd o Hso HT) as (final & Hf & Hsf & Hdf).
  exists o, final. repeat split; try assumption.
  intros idx Hr. rewrite Hsf in Hr.
  destruct (in_range_state _ _ _ Hr) as (b0 & c & -> & Hb0 & Hc).
  rewrite Hdf. apply Po. rewrite Hso. solve_range.
Qed.

Lemma align_forward_ok B T ind outd al inp :
  shape inp = [B; T; ind] -> finite inp -> align_ok ind outd al ->
  exists a, align_forward al inp = Ok a /\ shape a = [B; T; outd] /\ finite a.
Proof.
  intros Hi Fi Hal. destruct al as [w b |]; simpl in Hal.
  - destruct Hal as (Hw & Fw & Hb). simpl in Hw, Fw, Hb.
    destruct (linear3_gen B T ind outd inp w b Hi Hw (bias_ok_shape _ _ Hb))
      as (y & Hy & Hsy & Hdy).
    exists y. repeat split; try assumption.
    intros idx Hr. rewrite Hsy in Hr. split_range Hr. rewrite Hdy.
    rewrite (lin_f_Fin B T ind outd) by assumption. eexists. reflexivity.
  - subst outd. exists inp. repeat split; assumption.
Qed.

(** The loop of [forward] on well-formed layers: it returns, every state it
    appends is a state the layer accepts, and the output is finite. *)
Lemma forward_loop_ok (gen : Type) (bernoulli : tensor -> gen -> tensor * gen)
  (self : MinGRU) (h : list tensor) (B T : nat) :
  (forall p s, finite p ->
     shape (fst (bernoulli p s)) = shape p /\ finite (fst (bernoulli p s))) ->
  (1 <= T)%nat ->
  forall sizes layers ind lidx inp out acc s,
    layers_ok ind sizes layers ->
    Forall2 (state_ok B) sizes (skipn lidx h) ->
    (residual self = true ->
     aligns_ok ind sizes (skipn lidx (align_layers self))) ->
    shape inp = [B; T; ind] -> finite inp ->
    out = Some inp \/ sizes <> [] ->
    exists o nh s',
      forward_loop gen bernoulli self h layers lidx inp out acc s
      = Ok (o, acc ++ nh, s') /\
      Forall2 (state_ok B) sizes nh /\
      shape o = [B; T; last sizes ind] /\ finite o.
Proof.
  intros Hbern HT.
  induction sizes as [| outd sizes IH];
    intros layers ind lidx inp out acc s Hl Hh Hal Hi Fi Hout.
  - destruct layers; [| contradiction].
    destruct Hout as [-> | Hne]; [| contradiction Hne; reflexivity].
    exists inp, [], s. rewrite app_nil_r. repeat split; try assumption.
    constructor.
  - destruct layers as [| [w b] rest]; [contradiction |].
    destruct Hl as [Hwb Hrest].
    inversion Hh as [| hd h_prev sizes' hs' Hst Hh' Hs1 Hs2]. subst hd sizes'.
    symmetry in Hs2. destruct (skipn_cons_nth _ _ _ _ Hs2) as [Hnth Hskip].
    destruct (forward_layer_ok B T ind outd inp h_prev w b HT Hi Fi Hst Hwb)
      as (o & final & Ho & Hso & Po & Hfinal & Hsf).
    assert (Hres : exists o', (if residual self
              then match nth_error (align_layers self) lidx with
                   | None => Raise IndexError
                   | Some al => a <- align_forward al inp;; add o a
                   end
              else Ok o) = Ok o' /\ shape o' = [B; T; outd] /\ finite o').
    { destruct (residual self) eqn:Hr.
      - specialize (Hal eq_refl).
        destruct (skipn lidx (align_layers self)) as [| al als] eqn:Hsk;
          [contradiction |].
        destruct (skipn_cons_nth _ _ _ _ Hsk) as [Hna _]. rewrite Hna.
        destruct Hal as [Hal _].
        destruct (align_forward_ok B T ind outd al inp Hi Fi Hal)
          as (a & Ha & Hsa & Fa).
        rewrite Ha. cbn [bind].
        destruct (tzip_finite fadd o a) as (o' & Ho' & Hso' & Fo').
        + intros u v. reflexivity.
        + congruence.
        + apply positive_finite. exact Po.
        + exact Fa.
        + exists o'. repeat split; [exact Ho' | congruence | exact Fo'].
      - exists o. repeat split; [assumption |].
        apply positive_finite. exact Po. }
    destruct Hres as (o' & Hres & Hso' & Fo').
    assert (Hal' : residual self = true ->
                   aligns_ok outd sizes (skipn (S lidx) (align_layers self))).
    { intros Hr. specialize (Hal Hr).
      destruct (skipn lidx (align_layers self)) as [| al als] eqn:Hsk;
        [contradiction |].
      destruct (skipn_cons_nth _ _ _ _ Hsk) as [_ Hsk']. rewrite Hsk'.
      apply Hal. }
    rewrite <- Hskip in Hh'.
    cbn [forward_loop]. rewrite Hnth, Ho. cbn [bind]. rewrite Hfinal.
    cbn [bind]. rewrite Hres. cbn [bind].
    rewrite last_cons_default.
    destruct ((lidx <? num_layers self - 1)%nat
              && (if Rlt_dec 0 (dropout self) then true else false))%bool.
    + destruct (bernoulli (full_like o' (1 - dropout self)) s)
        as [mask s1] eqn:Hm.
      assert (Ffull : finite (full_like o' (1 - dropout self))).
      { intros idx _. eexists. reflexivity. }
      destruct (Hbern _ s Ffull) as [Hsm Fm]. rewrite Hm in Hsm, Fm.
      simpl in Hsm, Fm.
      destruct (tzip_finite fmul o' mask) as (o2 & Ho2 & Hso2 & Fo2).
      * intros u v. reflexivity.
      * congruence.
      * exact Fo'.
      * exact Fm.
      * unfold mul. rewrite Ho2. cbn [bind].
        destruct (IH rest outd (S lidx) o2 (Some o2) (acc ++ [final]) s1)
          as (r & nh & s' & Hr & Hnh & Hsr & Fr);
          try assumption; [congruence | left; reflexivity |].
        exists r, (final :: nh), s'. rewrite Hr, <- app_assoc.
        repeat split; try assumption. constructor; assumption.
    + destruct (IH rest outd (S lidx) o' (Some o') (acc ++ [final]) s)
        as (r & nh & s' & Hr & Hnh & Hsr & Fr);
        try assumption; [left; reflexivity |].
      exists r, (final :: nh), s'. rewrite Hr, <- app_assoc.
      repeat split; try assumption. constructor; assumption.
Qed.

Lemma new_Linear_ok (gen : Type) (init_values : list nat -> gen -> tensor * gen)
  ind outd bias s :
  (forall shp s, shape (fst (init_values shp s)) = shp /\
                 finite (fst (init_values shp s))) ->
  linear_ok ind outd (fst (new_Linear gen init_values ind outd bias s)).
Proof.
  intros Hinit. unfold new_Linear.
  destruct (init_values [outd; ind] s) as [w s1] eqn:Hw.
  destruct (Hinit [outd; ind] s) as [Hsw Fw]. rewrite Hw in Hsw, Fw.
  destruct bias.
  - destruct (init_values [outd] s1) as [b s2] eqn:Hb.
    destruct (Hinit [outd] s1) as [Hsb Fb]. rewrite Hb in Hsb, Fb.
    repeat split; assumption.
  - repeat split; assumption.
Qed.

Lemma init_layers_ok (gen : Type)
  (init_values : list nat -> gen -> tensor * gen) bias :
  (forall shp s, shape (fst (init_values shp s)) = shp /\
                 finite (fst (init_values shp s))) ->
  forall hidden_sizes ind s,
    layers_ok ind hidden_sizes
      (fst (fst (init_layers gen init_values ind hidden_sizes bias s))) /\
    aligns_ok ind hidden_sizes
      (snd (fst (init_layers gen init_values ind hidden_sizes bias s))).
Proof.
  intros Hinit. induction hidden_sizes as [| outd rest IH]; intros ind s.
  - split; exact I.
  - cbn [init_layers].
    pose proof (new_Linear_ok gen init_values ind (outd * 2) bias s Hinit)
      as Hgh.
    destruct (new_Linear gen init_values ind (outd * 2) bias s) as [gh s1].
    assert (Hal : forall s2 al,
              (if negb (ind =? outd)%nat
               then let '((w, b), s') :=
                      new_Linear gen init_values ind outd bias s1 in
                    (AlignLinear w b, s')
               else (AlignIdentity, s1)) = (al, s2) ->
              align_ok ind outd al).
    { intros s2 al. destruct (Nat.eqb_spec ind outd) as [He | Hne]; simpl.
      - intros H. inversion H. exact He.
      - pose proof (new_Linear_ok gen init_values ind outd bias s1 Hinit)
          as Hl.
        destruct (new_Linear gen init_values ind outd bias s1) as [[w b] s'].
        intros H. inversion H. subst. exact Hl. }
    destruct (if negb (ind =? outd)%nat
              then let '((w, b), s') :=
                     new_Linear gen init_values ind outd bias s1 in
                   (AlignLinear w b, s')
              else (AlignIdentity, s1)) as [al s2] eqn:Eal.
    specialize (Hal s2 al eq_refl).
    destruct (IH outd s2) as [IH1 IH2].
    destruct (init_layers gen init_values outd rest bias s2)
      as [[gh_layers als] s3].
    cbn [fst snd layers_ok aligns_ok] in *.
    rewrite (Nat.mul_comm 2 outd). split; split; assumption.
Qed.

Lemma init_hidden_states_ok B sizes :
  Forall2 (state_ok B) sizes
    (map (fun hidden_size => g (new_zeros [B; 1%nat; hidden_size])) sizes).
Proof.
  induction sizes as [| hd sizes IH]; simpl; constructor; [| exact IH].
  split; [reflexivity |]. intros idx _. simpl. rewrite g_elem_Fin.
  eexists. split; [reflexivity | apply g_real_pos].
Qed.

(** X13: over exact real arithmetic, a constructed module maps valid hidden
    states to valid hidden states.  Rounding, underflow and overflow are
    left out: in float32 a returned state can be zero or infinite.
    For a module built by the constructor from a non-empty list of
    hidden sizes (with or without residual connections, bias and dropout), a
    finite input of shape (B, T, input_size) with at least one step, and
    either no hidden states or one positive state of shape (B, 1, size) for
    each layer, [forward] returns: the output is finite of shape
    (B, T, last hidden size), and it returns one state for each layer, each
    positive and of shape (B, 1, size), so that they can be passed to the
    next call.  The initial parameters and the dropout masks are only
    assumed to be finite and of the shape requested. *)
Theorem forward_returns_valid_states
  (gen : Type) (init_values : list nat -> gen -> tensor * gen)
  (bernoulli : tensor -> gen -> tensor * gen)
  (input_size : nat) (hidden_sizes : list nat) (dropout_arg : R)
  (residual_arg bias : bool) (s0 s : gen)
  (x : tensor) (h : option (list tensor)) (B T : nat) :
  (forall shp s, shape (fst (init_values shp s)) = shp /\
                 finite (fst (init_values shp s))) ->
  (forall p s, finite p ->
     shape (fst (bernoulli p s)) = shape p /\ finite (fst (bernoulli p s))) ->
  hidden_sizes <> [] ->
  shape x = [B; T; input_size] -> (1 <= T)%nat -> finite x ->
  match h with
  | None => True
  | Some l => Forall2 (state_ok B) hidden_sizes l
  end ->
  let self := fst (MinGRU_init gen init_values input_size
                     (SizeList hidden_sizes) dropout_arg residual_arg bias
                     s0) in
  exists out next_hidden s',
    forward gen bernoulli self x h s = Ok (out, next_hidden, s') /\
    shape out = [B; T; last hidden_sizes input_size] /\ finite out /\
    Forall2 (state_ok B) hidden_sizes next_hidden.
Proof.
  intros Hinit Hbern Hne Hx HT Fx Hh self.
  destruct (init_layers_ok gen init_values bias Hinit hidden_sizes input_size
              s0) as [Hl Ha].
  subst self. unfold MinGRU_init.
  destruct (init_layers gen init_values input_size hidden_sizes bias s0)
    as [[gh_layers als] s1]. simpl in Hl, Ha.
  set (self := mkMinGRU _ _ _ _ _ _). cbn [fst].
  unfold forward, forward_assert. rewrite Hx. simpl.
  rewrite Nat.eqb_refl. cbn [bind].
  assert (Hst : exists l,
             match h with
             | Some l => Ok l
             | None => init_hidden_state self x
             end = Ok l /\ Forall2 (state_ok B) hidden_sizes l).
  { destruct h as [l |].
    - exists l. split; [reflexivity | exact Hh].
    - unfold init_hidden_state. rewrite Hx. eexists. split; [reflexivity |].
      apply init_hidden_states_ok. }
  destruct Hst as (l & -> & Hl'). cbn [bind].
  destruct (forward_loop_ok gen bernoulli self l B T Hbern HT hidden_sizes
              gh_layers input_size 0 x None [] s)
    as (o & nh & s' & Ho & Hnh & Hso & Fo); try assumption.
  - intros Hr. simpl in Hr. subst residual_arg. exact Ha.
  - right. exact Hne.
  - exists o, nh, s'. repeat split; assumption.
Qed.

Lemma forward_returns_valid_states_witness :
  let self := fst (MinGRU_init unit (fun shp s => (new_zeros shp, s)) 1
                     (SizeList [2; 3]%nat) (1 / 2) true true tt) in
  exists out next_hidden s',
    forward unit (fun p s => (new_zeros (shape p), s)) self x_demo None tt
    = Ok (out, next_hidden, s') /\
    shape out = [1; 3; last [2; 3] 1]%nat /\ finite out /\
    Forall2 (state_ok 1) [2; 3]%nat next_hidden.
Proof.
  apply (forward_returns_valid_states unit (fun shp s => (new_zeros shp, s))
           (fun p s => (new_zeros (shape p), s)) 1 [2; 3]%nat (1 / 2) true
           true tt tt x_demo None 1 3).
  - intros shp s. split; [reflexivity |]. intros idx _. exists 0. reflexivity.
  - intros p s _. split; [reflexivity |]. intros idx _. exists 0. reflexivity.
  - discriminate.
  - reflexivity.
  - lia.
  - exact demo_x_finite.
  - exact I.
Defined.

(** ** The module on a sequence given in two pieces *)

Lemma narrow_pieces B n m I x :
  shape x = [B; (n + m)%nat; I] -> finite x ->
  pieces B n m I x (narrow 1 0 n x) (narrow 1 n m x).
Proof.
  intros Hx Fx. split; [| split].
  - repeat split; [exact Hx | |]; apply (narrow1_shape _ _ _ _ _ _ Hx).
  - repeat split; [exact Fx | |];
      apply (narrow1_finite _ _ _ _ _ _ Hx); (lia || assumption).
  - intros b i Hb Hi. split; intros t Ht; simpl.
    + rewrite Nat.add_0_r. reflexivity.
    + reflexivity.
Qed.

Lemma lin_r_shift I x x' w bias b t t' j :
  (forall i, (i < I)%nat -> data x [b; t; i] = data x' [b; t'; i]) ->
  lin_r I x w bias b t j = lin_r I x' w bias b t' j.
Proof.
  intros H. unfold lin_r. f_equal. induction I as [| I IH]; simpl.
  - reflexivity.
  - rewrite IH by (intros; apply H; lia). rewrite H by lia. reflexivity.
Qed.

(** One layer on the whole sequence and on its two pieces, the second piece
    starting from the last state of the first. *)
Lemma mingru_pieces B n m I Hd x x1 x2 h w bias :
  (1 <= n)%nat -> (1 <= m)%nat ->
  pieces B n m I x x1 x2 -> state_ok B Hd h ->
  linear_ok I (2 * Hd) (w, bias) ->
  exists o o1 o2 f f1 f2,
    (mingru x h w bias = Ok o /\ last1 o = Ok f) /\
    (mingru x1 h w bias = Ok o1 /\ last1 o1 = Ok f1) /\
    (mingru x2 f1 w bias = Ok o2 /\ last1 o2 = Ok f2) /\
    pieces B n m Hd o o1 o2 /\ teq f f2.
Proof.
  intros Hn Hm ((Hx & Hx1 & Hx2) & (Fx & Fx1 & Fx2) & Hd12) [Hh Ph]
         (Hw & Fw & Hb).
  cbn [fst snd] in Hw, Fw, Hb.
  assert (Pos : forall T y hh o,
            shape o = [B; T; Hd] -> positive hh -> shape hh = [B; 1%nat; Hd] ->
            (forall b t c, (b < B)%nat -> (t < T)%nat -> (c < Hd)%nat ->
               data o [b; t; c]
               = Fin (hseq (fun k => lin_r I y w bias b k c)
                           (fun k => lin_r I y w bias b k (c + Hd))
                           (toR (data hh [b; O; c])) (S t))) ->
            positive o).
  { intros T y hh o So Phh Shh Do idx Hr. rewrite So in Hr. split_range Hr.
    rewrite Do by assumption. eexists. split; [reflexivity |].
    apply hseq_pos. destruct (Phh [i; O; i1]) as (r & -> & Hpos);
      [rewrite Shh; solve_range | exact Hpos]. }
  destruct (mingru_spec _ _ _ _ _ _ _ _ Hx Hh Hw Fx Ph Fw Hb)
    as (o & Eo & So & Do).
  destruct (mingru_spec _ _ _ _ _ _ _ _ Hx1 Hh Hw Fx1 Ph Fw Hb)
    as (o1 & Eo1 & So1 & Do1).
  destruct (last1_spec _ _ _ _ So ltac:(lia)) as (f & Ef & Sf & Df).
  destruct (last1_spec _ _ _ _ So1 Hn) as (f1 & Ef1 & Sf1 & Df1).
  pose proof (Pos _ _ _ _ So Ph Hh Do) as Po.
  pose proof (Pos _ _ _ _ So1 Ph Hh Do1) as Po1.
  assert (Pf1 : positive f1).
  { intros idx Hr. rewrite Sf1 in Hr.
    apply in_range_state in Hr as (b & c & -> & Hb' & Hc).
    rewrite Df1. apply Po1. rewrite So1. solve_range. }
  destruct (mingru_spec _ _ _ _ _ _ _ _ Hx2 Sf1 Hw Fx2 Pf1 Fw Hb)
    as (o2 & Eo2 & So2 & Do2).
  destruct (last1_spec _ _ _ _ So2 Hm) as (f2 & Ef2 & Sf2 & Df2).
  pose proof (Pos _ _ _ _ So2 Pf1 Sf1 Do2) as Po2.
  assert (H1 : forall b t c, (b < B)%nat -> (t < n)%nat -> (c < Hd)%nat ->
            data o [b; t; c] = data o1 [b; t; c]).
  { intros b t c Hb' Ht Hc. rewrite Do, Do1 by (assumption || lia). f_equal.
    apply hseq_ext; intros k Hk; apply lin_r_ext; intros i Hi;
      apply (Hd12 b i Hb' Hi); lia. }
  assert (H2 : forall b t c, (b < B)%nat -> (t < m)%nat -> (c < Hd)%nat ->
            data o [b; (t + n)%nat; c] = data o2 [b; t; c]).
  { intros b t c Hb' Ht Hc. rewrite Do, Do2 by (assumption || lia). f_equal.
    rewrite Df1, <- H1, Do by (assumption || lia).
    replace (S (n - 1)) with n by lia. cbn [toR].
    replace (S (t + n)) with (n + S t)%nat by lia.
    rewrite hseq_app.
    apply hseq_ext; intros k Hk; apply lin_r_shift; intros i Hi;
      apply (Hd12 b i Hb' Hi); lia. }
  exists o, o1, o2, f, f1, f2.
  split; [split; assumption |]. split; [split; assumption |].
  split; [split; assumption |]. split.
  - split; [repeat split; assumption |]. split.
    + repeat split; apply positive_finite; assumption.
    + intros b c Hb' Hc. split; intros t Ht; [apply H1 | apply H2];
        assumption.
  - split; [congruence |]. intros idx Hr. rewrite Sf in Hr.
    apply in_range_state in Hr as (b & c & -> & Hb' & Hc).
    rewrite Df, Df2. replace (n + m - 1)%nat with (m - 1 + n)%nat by lia.
    apply H2; (assumption || lia).
Qed.

Lemma align_forward_pieces B n m ind outd al inp inp1 inp2 :
  pieces B n m ind inp inp1 inp2 -> align_ok ind outd al ->
  exists a a1 a2,
    align_forward al inp = Ok a /\ align_forward al inp1 = Ok a1 /\
    align_forward al inp2 = Ok a2 /\ pieces B n m outd a a1 a2.
Proof.
  intros ((Hx & Hx1 & Hx2) & (Fx & Fx1 & Fx2) & Hd12) Hal.
  destruct al as [w b |]; simpl in Hal.
  - destruct Hal as (Hw & Fw & Hb). cbn [fst snd] in Hw, Fw, Hb.
    pose proof (bias_ok_shape _ _ Hb) as Hb'.
    destruct (linear3_gen _ _ _ _ _ _ _ Hx Hw Hb') as (y & Ey & Sy & Dy).
    destruct (linear3_gen _ _ _ _ _ _ _ Hx1 Hw Hb') as (y1 & Ey1 & Sy1 & Dy1).
    destruct (linear3_gen _ _ _ _ _ _ _ Hx2 Hw Hb') as (y2 & Ey2 & Sy2 & Dy2).
    assert (Fin_y : forall T z y', shape z = [B; T; ind] -> finite z ->
              shape y' = [B; T; outd] ->
              (forall b0 t j, data y' [b0; t; j] = lin_f ind z w b b0 t j) ->
              forall b0 t j, (b0 < B)%nat -> (t < T)%nat -> (j < outd)%nat ->
                data y' [b0; t; j] = Fin (lin_r ind z w b b0 t j)).
    { intros T z y' Sz Fz _ Dy' b0 t j Hb0 Ht Hj. rewrite Dy'.
      apply (lin_f_Fin B T ind outd); assumption. }
    pose proof (Fin_y _ _ _ Hx Fx Sy Dy) as Ry.
    pose proof (Fin_y _ _ _ Hx1 Fx1 Sy1 Dy1) as Ry1.
    pose proof (Fin_y _ _ _ Hx2 Fx2 Sy2 Dy2) as Ry2.
    exists y, y1, y2. simpl. repeat split; try assumption.
    + intros idx Hr. rewrite Sy in Hr. split_range Hr.
      rewrite Ry by assumption. eexists. reflexivity.
    + intros idx Hr. rewrite Sy1 in Hr. split_range Hr.
      rewrite Ry1 by assumption. eexists. reflexivity.
    + intros idx Hr. rewrite Sy2 in Hr. split_range Hr.
      rewrite Ry2 by assumption. eexists. reflexivity.
    + intros t Ht. rewrite Ry, Ry1 by (assumption || lia). f_equal.
      apply lin_r_shift. intros i0 Hi0. apply (Hd12 b0 i0); assumption.
    + intros t Ht. rewrite Ry, Ry2 by (assumption || lia). f_equal.
      apply lin_r_shift. intros i0 Hi0. apply (Hd12 b0 i0); assumption.
  - subst outd. exists inp, inp1, inp2. simpl.
    repeat split; try assumption; apply (Hd12 b i); assumption.
Qed.

Lemma add_pieces B n m Hd o o1 o2 a a1 a2 :
  pieces B n m Hd o o1 o2 -> pieces B n m Hd a a1 a2 ->
  exists r r1 r2,
    add o a = Ok r /\ add o1 a1 = Ok r1 /\ add o2 a2 = Ok r2 /\
    pieces B n m Hd r r1 r2.
Proof.
  intros ((So & So1 & So2) & (Fo & Fo1 & Fo2) & Do)
         ((Sa & Sa1 & Sa2) & (Fa & Fa1 & Fa2) & Da).
  destruct (tzip_same fadd o a ltac:(congruence)) as (r & Er & Sr & Dr).
  destruct (tzip_same fadd o1 a1 ltac:(congruence)) as (r1 & Er1 & Sr1 & Dr1).
  destruct (tzip_same fadd o2 a2 ltac:(congruence)) as (r2 & Er2 & Sr2 & Dr2).
  assert (Fz : forall u v t, shape u = shape v -> shape t = shape u ->
            finite u -> finite v ->
            (forall idx, in_range (shape u) idx ->
                         data t idx = fadd (data u idx) (data v idx)) ->
            finite t).
  { intros u v t Huv Ht Fu Fv Dt idx Hr. rewrite Ht in Hr. rewrite Dt by exact Hr.
    destruct (Fu idx Hr) as [p ->]. rewrite Huv in Hr.
    destruct (Fv idx Hr) as [q ->]. eexists. reflexivity. }
  exists r, r1, r2. unfold add.
  split; [exact Er |]. split; [exact Er1 |]. split; [exact Er2 |].
  split; [repeat split; congruence |]. split.
  - repeat split.
    + apply (Fz o a); (congruence || assumption).
    + apply (Fz o1 a1); (congruence || assumption).
    + apply (Fz o2 a2); (congruence || assumption).
  - intros b i Hb Hi. split; intros t Ht.
    + rewrite Dr, Dr1 by (rewrite ?So, ?So1; solve_range).
      rewrite (proj1 (Do b i Hb Hi) t Ht), (proj1 (Da b i Hb Hi) t Ht).
      reflexivity.
    + rewrite Dr, Dr2 by (rewrite ?So, ?So2; solve_range).
      rewrite (proj2 (Do b i Hb Hi) t Ht), (proj2 (Da b i Hb Hi) t Ht).
      reflexivity.
Qed.

(** The loop of [forward] without dropout, run on the whole sequence and on
    its two pieces; the run on the second piece reads the states that the
    run on the first piece returns. *)
Lemma forward_loop_pieces (gen : Type)
  (bernoulli : tensor -> gen -> tensor * gen)
  (self : MinGRU) (h : list tensor) (B n m : nat) :
  (1 <= n)%nat -> (1 <= m)%nat ->
  dropout self <= 0 \/ (num_layers self <= 1)%nat ->
  forall sizes layers ind lidx inp inp1 inp2 out out1 out2 acc acc1 acc2 s,
    layers_ok ind sizes layers ->
    Forall2 (state_ok B) sizes (skipn lidx h) ->
    (residual self = true ->
     aligns_ok ind sizes (skipn lidx (align_layers self))) ->
    pieces B n m ind inp inp1 inp2 ->
    (out = Some inp /\ out1 = Some inp1 /\ out2 = Some inp2) \/ sizes <> [] ->
    exists o o1 nh nh1,
      forward_loop gen bernoulli self h layers lidx inp out acc s
      = Ok (o, acc ++ nh, s) /\
      forward_loop gen bernoulli self h layers lidx inp1 out1 acc1 s
      = Ok (o1, acc1 ++ nh1, s) /\
      forall h', skipn lidx h' = nh1 ->
        exists o2 nh2,
          forward_loop gen bernoulli self h' layers lidx inp2 out2 acc2 s
          = Ok (o2, acc2 ++ nh2, s) /\
          pieces B n m (last sizes ind) o o1 o2 /\ Forall2 teq nh nh2.
Proof.
  intros Hn Hm Hnone.
  induction sizes as [| outd sizes IH];
    intros layers ind lidx inp inp1 inp2 out out1 out2 acc acc1 acc2 s
           Hl Hh Hal Hp Hout.
  - destruct layers; [| contradiction].
    destruct Hout as [(-> & -> & ->) | Hne]; [| contradiction Hne; reflexivity].
    exists inp, inp1, [], []. simpl. rewrite !app_nil_r.
    split; [reflexivity |]. split; [reflexivity |].
    intros h' _. exists inp2, []. rewrite app_nil_r.
    split; [reflexivity |]. split; [exact Hp | constructor].
  - destruct layers as [| [w b] rest]; [contradiction |].
    destruct Hl as [Hwb Hrest].
    inversion Hh as [| hd h_prev sizes' hs' Hst Hh' Hs1 Hs2]. subst hd sizes'.
    symmetry in Hs2. destruct (skipn_cons_nth _ _ _ _ Hs2) as [Hnth Hskip].
    destruct (mingru_pieces B n m ind outd inp inp1 inp2 h_prev w b
                Hn Hm Hp Hst Hwb)
      as (o & o1 & o2 & f & f1 & f2 & [Eo Ef] & [Eo1 Ef1] & [Eo2 Ef2]
          & Hpo & Hteq).
    assert (Hres : exists r r1 r2,
      (if residual self
       then match nth_error (align_layers self) lidx with
            | None => Raise IndexError
            | Some al => a <- align_forward al inp;; add o a
            end
       else Ok o) = Ok r /\
      (if residual self
       then match nth_error (align_layers self) lidx with
            | None => Raise IndexError
            | Some al => a <- align_forward al inp1;; add o1 a
            end
       else Ok o1) = Ok r1 /\
      (if residual self
       then match nth_error (align_layers self) lidx with
            | None => Raise IndexError
            | Some al => a <- align_forward al inp2;; add o2 a
            end
       else Ok o2) = Ok r2 /\
      pieces B n m outd r r1 r2).
    { destruct (residual self) eqn:Hr.
      - specialize (Hal eq_refl).
        destruct (skipn lidx (align_layers self)) as [| al als] eqn:Hsk;
          [contradiction |].
        destruct (skipn_cons_nth _ _ _ _ Hsk) as [Hna _]. rewrite Hna.
        destruct Hal as [Hal _].
        destruct (align_forward_pieces B n m ind outd al inp inp1 inp2 Hp Hal)
          as (a & a1 & a2 & Ea & Ea1 & Ea2 & Hpa).
        rewrite Ea, Ea1, Ea2. cbn [bind].
        apply (add_pieces B n m outd); assumption.
      - exists o, o1, o2. split; [reflexivity |]. split; [reflexivity |].
        split; [reflexivity | exact Hpo]. }
    destruct Hres as (r & r1 & r2 & Er & Er1 & Er2 & Hpr).
    assert (Hal' : residual self = true ->
                   aligns_ok outd sizes (skipn (S lidx) (align_layers self))).
    { intros Hr. specialize (Hal Hr).
      destruct (skipn lidx (align_layers self)) as [| al als] eqn:Hsk;
        [contradiction |].
      destruct (skipn_cons_nth _ _ _ _ Hsk) as [_ Hsk']. rewrite Hsk'.
      apply Hal. }
    rewrite <- Hskip in Hh'.
    assert (Hoff : ((lidx <? num_layers self - 1)%nat
                    && (if Rlt_dec 0 (dropout self) then true else false))%bool
                   = false).
    { destruct Hnone as [Hd | Hnl].
      - destruct (Rlt_dec 0 (dropout self)); [lra |]. apply andb_false_r.
      - destruct (Nat.ltb_spec lidx (num_layers self - 1)); [lia |].
        reflexivity. }
    destruct (IH rest outd (S lidx) r r1 r2 (Some r) (Some r1) (Some r2)
                 (acc ++ [f]) (acc1 ++ [f1]) (acc2 ++ [f2]) s
                 Hrest Hh' Hal' Hpr
                 (or_introl (conj eq_refl (conj eq_refl eq_refl))))
      as (z & z1 & nh & nh1 & Ez & Ez1 & Hz2).
    exists z, z1, (f :: nh), (f1 :: nh1).
    cbn [forward_loop]. rewrite Hnth, Eo, Eo1. cbn [bind].
    rewrite Ef, Ef1. cbn [bind]. rewrite Er, Er1. cbn [bind].
    rewrite Hoff, Ez, Ez1, <- !app_assoc.
    split; [reflexivity |]. split; [reflexivity |].
    intros h' Hh2. destruct (skipn_cons_nth _ _ _ _ Hh2) as [Hnth' Hskip'].
    destruct (Hz2 h' Hskip') as (z2 & nh2 & Ez2 & Hpz & Hnh).
    exists z2, (f2 :: nh2). rewrite Hnth', Eo2. cbn [bind].
    rewrite Ef2. cbn [bind]. rewrite Er2. cbn [bind].
    rewrite ?Hoff, Ez2, <- app_assoc, last_cons_default.
    split; [reflexivity |]. split; [exact Hpz |].
    constructor; assumption.
Qed.

Lemma clamp_no_dropout d : d <= 0 -> Rmax (Rmin d 1) 0 <= 0.
Proof.
  intros Hd. unfold Rmax, Rmin.
  destruct (Rle_dec d 1); destruct (Rle_dec _ 0); lra.
Qed.

(** X14: a module without dropout can be fed a sequence in two pieces.  For
    a module built by the constructor with a dropout rate of zero or less
    (the default), or with one layer only, a finite input of n + m steps
    (both at least one) and valid or absent hidden states: running
    [forward] on the first n steps, then on the remaining m steps with the
    hidden states the first call returned, gives outputs whose
    concatenation along the time axis equals the output of one call on the
    whole input, and the hidden states returned by the second call equal
    those of the call on the whole input. *)
Theorem forward_in_pieces
  (gen : Type) (init_values : list nat -> gen -> tensor * gen)
  (bernoulli : tensor -> gen -> tensor * gen)
  (input_size : nat) (hidden_sizes : list nat) (dropout_arg : R)
  (residual_arg bias : bool) (s0 s : gen)
  (x : tensor) (h : option (list tensor)) (B n m : nat) :
  (forall shp s, shape (fst (init_values shp s)) = shp /\
                 finite (fst (init_values shp s))) ->
  dropout_arg <= 0 \/ (length hidden_sizes <= 1)%nat ->
  hidden_sizes <> [] -> (1 <= n)%nat -> (1 <= m)%nat ->
  shape x = [B; (n + m)%nat; input_size] -> finite x ->
  match h with
  | None => True
  | Some l => Forall2 (state_ok B) hidden_sizes l
  end ->
  let self := fst (MinGRU_init gen init_values input_size
                     (SizeList hidden_sizes) dropout_arg residual_arg bias
                     s0) in
  exists out1 h1 out2 h2 out12 out hT,
    forward gen bernoulli self (narrow 1 0 n x) h s = Ok (out1, h1, s) /\
    forward gen bernoulli self (narrow 1 n m x) (Some h1) s
    = Ok (out2, h2, s) /\
    cat1 out1 out2 = Ok out12 /\
    forward gen bernoulli self x h s = Ok (out, hT, s) /\
    teq out out12 /\ Forall2 teq hT h2.
Proof.
  intros Hinit Hdrop Hne Hn Hm Hx Fx Hh self.
  destruct (init_layers_ok gen init_values bias Hinit hidden_sizes input_size
              s0) as [Hl Ha].
  subst self. unfold MinGRU_init.
  destruct (init_layers gen init_values input_size hidden_sizes bias s0)
    as [[gh_layers als] s1]. cbn [fst snd] in Hl, Ha.
  set (self := mkMinGRU _ _ _ _ _ _). cbn [fst].
  pose proof (narrow_pieces B n m input_size x Hx Fx) as Hp.
  pose proof Hp as ((_ & Hx1 & Hx2) & _).
  assert (Hnone : dropout self <= 0 \/ (num_layers self <= 1)%nat).
  { destruct Hdrop as [Hd | Hlen]; [left | right; exact Hlen].
    apply clamp_no_dropout. exact Hd. }
  assert (Hst : exists l,
             match h with
             | Some l => Ok l
             | None => init_hidden_state self x
             end = Ok l /\
             match h with
             | Some l => Ok l
             | None => init_hidden_state self (narrow 1 0 n x)
             end = Ok l /\
             Forall2 (state_ok B) hidden_sizes l).
  { destruct h as [l |].
    - exists l. split; [reflexivity |]. split; [reflexivity | exact Hh].
    - unfold init_hidden_state. rewrite Hx, Hx1. eexists.
      split; [reflexivity |]. split; [reflexivity |].
      apply init_hidden_states_ok. }
  destruct Hst as (l & El & El1 & Hl').
  destruct (forward_loop_pieces gen bernoulli self l B n m Hn Hm Hnone
              hidden_sizes gh_layers input_size 0
              x (narrow 1 0 n x) (narrow 1 n m x) None None None [] [] [] s)
    as (o & o1 & nh & nh1 & Eo & Eo1 & H2); try assumption.
  { intros Hr. simpl in Hr. subst residual_arg. exact Ha. }
  { right. exact Hne. }
  destruct (H2 nh1 eq_refl) as (o2 & nh2 & Eo2 & Hpo & Hnh).
  destruct Hpo as ((So & So1 & So2) & _ & Do).
  destruct (cat1_spec B n m [last hidden_sizes input_size] o1 o2 So1 So2)
    as (o12 & E12 & S12 & D12).
  exists o1, nh1, o2, nh2, o12, o, nh.
  unfold forward, forward_assert. rewrite Hx, Hx1, Hx2.
  cbn [length layer_sizes self nth_error nth]. rewrite !Nat.eqb_refl.
  cbn [bind]. rewrite El, El1. cbn [bind].
  change (gate_hidden_layers self) with gh_layers.
  simpl app in Eo, Eo1, Eo2. rewrite Eo, Eo1, Eo2.
  repeat split; try assumption; try reflexivity.
  - congruence.
  - intros idx Hr. rewrite So in Hr. split_range Hr. rewrite D12.
    destruct (Nat.ltb_spec i0 n) as [Hlt | Hge].
    + apply (Do i i1); assumption.
    + replace i0 with (i0 - n + n)%nat at 1 by lia.
      apply (Do i i1); (assumption || lia).
Qed.

Lemma forward_in_pieces_witness :
  let self := fst (MinGRU_init unit (fun shp s => (new_zeros shp, s)) 1
                     (SizeList [2; 3]%nat) 0 true true tt) in
  exists out1 h1 out2 h2 out12 out hT,
    forward unit bernoulli_demo self (narrow 1 0 1 x_demo) None tt
    = Ok (out1, h1, tt) /\
    forward unit bernoulli_demo self (narrow 1 1 2 x_demo) (Some h1) tt
    = Ok (out2, h2, tt) /\
    cat1 out1 out2 = Ok out12 /\
    forward unit bernoulli_demo self x_demo None tt = Ok (out, hT, tt) /\
    teq out out12 /\ Forall2 teq hT h2.
Proof.
  apply (forward_in_pieces unit (fun shp s => (new_zeros shp, s))
           bernoulli_demo 1 [2; 3]%nat 0 true true tt tt x_demo None 1 1 2).
  - intros shp s. split; [reflexivity |]. intros idx _. exists 0. reflexivity.
  - left. lra.
  - discriminate.
  - lia.
  - lia.
  - reflexivity.
  - exact demo_x_finite.
  - exact I.
Defined.

(** ** The data of the copying task *)

Lemma insert_perm a l : Permutation (a :: l) (insert a l).
Proof.
  induction l as [| b l IH]; simpl; [apply Permutation_refl |].
  destruct (a <=? b)%nat; [apply Permutation_refl |].
  eapply Permutation_trans; [apply perm_swap |].
  apply perm_skip. exact IH.
Qed.

Lemma sort_perm l : Permutation l (sort l).
Proof.
  induction l as [| a l IH]; simpl; [apply perm_nil |].
  eapply Permutation_trans; [apply perm_skip; exact IH | apply insert_perm].
Qed.

Lemma insert_sorted a l :
  StronglySorted lt l -> ~ In a l -> StronglySorted lt (insert a l).
Proof.
  induction l as [| b l IH]; intros Hs Hn; simpl.
  - constructor; constructor.
  - inversion Hs as [| b' l' Hs' Hb]; subst.
    destruct (Nat.leb_spec a b) as [Hle | Hgt].
    + assert (Hlt : (a < b)%nat).
      { destruct (Nat.eq_dec a b) as [-> | Hne]; [| lia].
        exfalso. apply Hn. left. reflexivity. }
      constructor; [exact Hs |]. constructor; [exact Hlt |].
      eapply Forall_impl; [| exact Hb]. intros c Hc. simpl in Hc. lia.
    + constructor.
      * apply IH; [exact Hs' |]. intros Hin. apply Hn. right. exact Hin.
      * apply Forall_forall. intros c Hc.
        apply (Permutation_in _ (Permutation_sym (insert_perm a l))) in Hc.
        destruct Hc as [<- | Hc]; [exact Hgt |].
        rewrite Forall_forall in Hb. apply Hb. exact Hc.
Qed.

Lemma sort_sorted l : NoDup l -> StronglySorted lt (sort l).
Proof.
  induction 1 as [| a l Hn Hd IH]; simpl; [constructor |].
  apply insert_sorted; [exact IH |]. intros Hin. apply Hn.
  apply (Permutation_in _ (Permutation_sym (sort_perm l))). exact Hin.
Qed.

Lemma upd_app_zeros pre d n v :
  upd (length pre + d) v (pre ++ repeat 0%Z (d + S n))
  = (pre ++ repeat 0%Z d ++ [v]) ++ repeat 0%Z n.
Proof.
  induction pre as [| a pre IH]; simpl.
  - induction d as [| d IHd]; simpl; [reflexivity |]. rewrite IHd.
    reflexivity.
  - rewrite IH. reflexivity.
Qed.

Lemma filter_nonzero_zeros n : filter nonzero (repeat 0%Z n) = [].
Proof. induction n as [| n IH]; simpl; [reflexivity | exact IH]. Qed.

Lemma filter_nonzero_id l :
  Forall (fun v => v <> 0%Z) l -> filter nonzero l = l.
Proof.
  induction 1 as [| v l Hv Hl IH]; cbn [filter]; [reflexivity |].
  rewrite IH. unfold nonzero. destruct (Z.eqb_spec v 0); [contradiction |].
  reflexivity.
Qed.

(** Scattering non-zero values at strictly increasing positions of a row
    of zeros leaves them in order. *)
Lemma scatter_row_sorted index :
  forall src pre n,
    length index = length src -> StronglySorted lt index ->
    Forall (fun i => (length pre <= i < length pre + n)%nat) index ->
    Forall (fun v => v <> 0%Z) src ->
    exists r, scatter_row (pre ++ repeat 0%Z n) index src = Ok (pre ++ r) /\
              length r = n /\ filter nonzero r = src.
Proof.
  induction index as [| i index IH]; intros src pre n Hlen Hs Hb Hnz.
  - destruct src; [| discriminate]. exists (repeat 0%Z n).
    split; [reflexivity |]. split; [apply repeat_length |].
    apply filter_nonzero_zeros.
  - destruct src as [| v src]; [discriminate |].
    inversion Hs as [| i' l' Hs' Hi]; subst.
    inversion Hb as [| i' l' Hbi Hb']; subst.
    inversion Hnz as [| v' l' Hv Hnz']; subst.
    set (d := (i - length pre)%nat).
    assert (Hn : n = (d + S (n - d - 1))%nat) by (unfold d; lia).
    assert (Hi' : i = (length pre + d)%nat) by (unfold d; lia).
    cbn [scatter_row]. rewrite length_app, repeat_length.
    destruct (Nat.ltb_spec i (length pre + n)) as [_ | Hge]; [| lia].
    pose proof (upd_app_zeros pre d (n - d - 1) v) as Hu.
    rewrite <- Hn, <- Hi' in Hu. rewrite Hu.
    destruct (IH src (pre ++ repeat 0%Z d ++ [v]) (n - d - 1)%nat)
      as (r & Er & Lr & Fr).
    + simpl in Hlen. lia.
    + exact Hs'.
    + rewrite !length_app, repeat_length. simpl.
      rewrite Forall_forall in Hi, Hb'. apply Forall_forall. intros j Hj.
      specialize (Hi j Hj). specialize (Hb' j Hj). unfold d. lia.
    + exact Hnz'.
    + exists (repeat 0%Z d ++ [v] ++ r). rewrite Er.
      split; [rewrite <- !app_assoc; reflexivity |]. split.
      * rewrite !length_app, repeat_length. simpl. lia.
      * rewrite !filter_app, filter_nonzero_zeros, Fr. cbn [filter app].
        unfold nonzero. destruct (Z.eqb_spec v 0); [contradiction |].
        reflexivity.
Qed.

(** Scattering at the positions [0 .. M - 1] writes the values in front. *)
Lemma scatter_row_arange src :
  forall pre L,
    scatter_row (pre ++ repeat 0%Z (length src + L))
                (seq (length pre) (length src)) src
    = Ok (pre ++ src ++ repeat 0%Z L).
Proof.
  induction src as [| v src IH]; intros pre L; [reflexivity |].
  cbn [length seq scatter_row]. rewrite length_app, repeat_length.
  destruct (Nat.ltb_spec (length pre) (length pre + (S (length src) + L)))
    as [_ | Hge]; [| lia].
  pose proof (upd_app_zeros pre 0 (length src + L) v) as Hu.
  rewrite Nat.add_0_r in Hu. simpl in Hu. simpl. rewrite Hu.
  specialize (IH (pre ++ [v]) L). rewrite length_app in IH. simpl in IH.
  rewrite Nat.add_1_r in IH. rewrite IH, <- app_assoc. reflexivity.
Qed.

(** [scatter_] on rows of the same kind. *)
Lemma scatter_rows (Q : list Z -> list Z -> Prop) z index :
  forall src,
    length index = length src ->
    (forall idx v, In idx index -> In v src ->
                   exists r, scatter_row z idx v = Ok r /\ Q r v) ->
    exists rs, scatter_ (repeat z (length index)) index src = Ok rs /\
               Forall2 Q rs src.
Proof.
  induction index as [| idx index IH]; intros src Hlen Hrow.
  - destruct src; [| discriminate]. exists []. split; [reflexivity |].
    constructor.
  - destruct src as [| v src]; [discriminate |].
    destruct (Hrow idx v (or_introl eq_refl) (or_introl eq_refl))
      as (r & Er & Qr).
    destruct (IH src) as (rs & Ers & Qrs).
    + simpl in Hlen. lia.
    + intros idx' v' Hi Hv. apply Hrow; right; assumption.
    + exists (r :: rs). simpl. rewrite Er. cbn [bind]. rewrite Ers.
      split; [reflexivity |]. constructor; assumption.
Qed.

Lemma cat_last_markers (Q : list Z -> list Z -> Prop) mk rs :
  forall src, Forall2 Q rs src ->
    Forall2 (fun xr yr => exists body, xr = body ++ mk /\ Q body yr)
            (cat_last rs (repeat mk (length src))) src.
Proof.
  induction 1 as [| r v rs src Qr Hrs IH]; simpl; constructor;
    [| exact IH].
  exists r. split; [reflexivity | exact Qr].
Qed.

Lemma draw_inds_spec (gen : Type) (randperm : nat -> gen -> list nat * gen)
  L M :
  randperm_ok randperm ->
  forall total s,
    length (fst (draw_inds gen randperm L M total s)) = total /\
    Forall (fun idx => exists p,
              Permutation (seq 0 (L + M)) p /\ idx = firstn M p)
           (fst (draw_inds gen randperm L M total s)).
Proof.
  intros Hperm. induction total as [| k IH]; intros s; simpl.
  - split; [reflexivity | constructor].
  - pose proof (Hperm (L + M)%nat s) as Hp.
    destruct (randperm (L + M)%nat s) as [p s1]. simpl in Hp.
    destruct (IH s1) as [Hlen Hall].
    destruct (draw_inds gen randperm L M k s1) as [rest s2]. simpl in *.
    split; [lia |]. constructor; [| exact Hall].
    exists p. split; [exact Hp | reflexivity].
Qed.

(** The sorted first [M] values of a permutation of [0 .. L + M - 1]. *)
Lemma sorted_inds_spec L M p :
  Permutation (seq 0 (L + M)) p ->
  length (sort (firstn M p)) = M /\
  StronglySorted lt (sort (firstn M p)) /\
  Forall (fun i => (i < M + L)%nat) (sort (firstn M p)).
Proof.
  intros Hp.
  assert (Hnd : NoDup p)
    by (eapply Permutation_NoDup; [exact Hp | apply seq_NoDup]).
  assert (Hlen : length p = (L + M)%nat)
    by (rewrite <- (Permutation_length Hp); apply length_seq).
  assert (Hnd' : NoDup (firstn M p)).
  { rewrite <- (firstn_skipn M p) in Hnd.
    apply NoDup_app_remove_r in Hnd. exact Hnd. }
  split; [| split].
  - rewrite <- (Permutation_length (sort_perm _)), length_firstn. lia.
  - apply sort_sorted. exact Hnd'.
  - apply Forall_forall. intros i Hi.
    apply (Permutation_in _ (Permutation_sym (sort_perm _))) in Hi.
    assert (Hin : In i p).
    { rewrite <- (firstn_skipn M p). apply in_or_app. left. exact Hi. }
    apply (Permutation_in _ (Permutation_sym Hp)) in Hin.
    apply in_seq in Hin. lia.
Qed.

Lemma tokens_ok_rev M A row : tokens_ok M A row -> tokens_ok M A (rev row).
Proof.
  intros [Hl Hv]. split; [rewrite length_rev; exact Hl |].
  apply Forall_rev. exact Hv.
Qed.

(** The rows returned, from the rows that [scatter_] gives. *)
Lemma copying_data_finish (Q : list Z -> list Z -> Prop) M A mk
  (reverse : bool) zs tokens :
  Forall (tokens_ok M A) tokens -> Forall2 Q zs tokens ->
  Forall2 (fun xr yr =>
             tokens_ok M A yr /\
             exists body, xr = body ++ mk /\
                          Q body (if reverse then rev yr else yr))
          (cat_last zs (repeat mk (length tokens)))
          (if reverse then flip tokens else tokens).
Proof.
  intros Ht Hq. revert Ht.
  induction Hq as [| z v zs tokens Qz Hzs IH]; intros Ht.
  - destruct reverse; constructor.
  - inversion Ht as [| v' l' Hv Ht']; subst. specialize (IH Ht').
    destruct reverse; simpl; (constructor; [| exact IH]).
    + split; [apply tokens_ok_rev; exact Hv |].
      exists z. rewrite rev_involutive. split; [reflexivity | exact Qz].
    + split; [exact Hv |]. exists z. split; [reflexivity | exact Qz].
Qed.

Lemma in_int64_true v :
  (- 2 ^ 63 <= v < 2 ^ 63)%Z -> in_int64 v = true.
Proof.
  intros [Hl Hu]. unfold in_int64. apply andb_true_iff. split.
  - apply Z.leb_le. exact Hl.
  - apply Z.ltb_lt. exact Hu.
Qed.

Lemma randint_tokens (gen : Type)
  (randint : Z -> Z -> nat -> nat -> gen -> list (list Z) * gen)
  M A n s :
  randint_ok randint -> (3 <= A)%Z ->
  length (fst (randint 1%Z (A - 1)%Z n M s)) = n /\
  Forall (tokens_ok M A) (fst (randint 1%Z (A - 1)%Z n M s)).
Proof.
  intros Hri HA. destruct (Hri 1%Z (A - 1)%Z n M s ltac:(lia)) as [Hl Hr].
  split; [exact Hl | exact Hr].
Qed.

Lemma tokens_nonzero M A row :
  tokens_ok M A row -> Forall (fun v => v <> 0%Z) row.
Proof.
  intros [_ Hv]. eapply Forall_impl; [| exact Hv]. intros v Hr. simpl in Hr.
  lia.
Qed.

(** The indices drawn and the rows after [scatter_]: every row has
    [M + L] values, and its non-zero values are the tokens, in order. *)
Lemma copying_data_indices (gen : Type)
  (randperm : nat -> gen -> list nat * gen)
  (L M : nat) (A : Z) (variable : bool) (batch_shape : list nat)
  (tokens : list (list Z)) (s1 : gen) :
  randperm_ok randperm ->
  (variable = true -> numel batch_shape <> O) ->
  length tokens = numel batch_shape -> Forall (tokens_ok M A) tokens ->
  exists inds s2 zs,
    (if variable
     then
       let '(l, s2) := draw_inds gen randperm L M (numel batch_shape) s1 in
       match l with
       | [] => Raise RuntimeError
       | _ :: _ => Ok (map sort l, s2)
       end
     else Ok (repeat (seq 0 M) (numel batch_shape), s1)) = Ok (inds, s2) /\
    scatter_ (repeat (repeat 0%Z (M + L)) (numel batch_shape)) inds tokens
    = Ok zs /\
    Forall2 (fun r v => length r = (M + L)%nat /\ filter nonzero r = v)
            zs tokens.
Proof.
  intros Hrp Hbatch Hlen Htok.
  set (Q := fun r v : list Z =>
              length r = (M + L)%nat /\ filter nonzero r = v).
  destruct variable.
  - destruct (draw_inds_spec gen randperm L M Hrp (numel batch_shape) s1)
      as [Hl Hp].
    destruct (draw_inds gen randperm L M (numel batch_shape) s1)
      as [l s2]. cbn [fst] in Hl, Hp.
    destruct l as [| i0 l'] eqn:El.
    { exfalso. apply (Hbatch eq_refl). rewrite <- Hl. reflexivity. }
    rewrite <- El in *. clear El.
    destruct (scatter_rows Q (repeat 0%Z (M + L)) (map sort l) tokens)
      as (zs & Ezs & Hzs).
    + rewrite length_map. congruence.
    + intros idx v Hi Hv. apply in_map_iff in Hi as (raw & <- & Hraw).
      rewrite Forall_forall in Hp, Htok.
      destruct (Hp raw Hraw) as (p & Hperm & ->).
      destruct (sorted_inds_spec L M p Hperm) as (Hsl & Hss & Hsb).
      pose proof (Htok v Hv) as Hv'.
      destruct (scatter_row_sorted (sort (firstn M p)) v [] (M + L)%nat)
        as (r & Er & Lr & Fr).
      * rewrite Hsl. symmetry. apply Hv'.
      * exact Hss.
      * eapply Forall_impl; [| exact Hsb]. intros j Hj. simpl in *. lia.
      * apply (tokens_nonzero M A). exact Hv'.
      * exists r. split; [exact Er |]. split; assumption.
    + exists (map sort l), s2, zs. rewrite length_map, Hl in Ezs.
      split; [reflexivity |]. split; assumption.
  - destruct (scatter_rows Q (repeat 0%Z (M + L))
                (repeat (seq 0 M) (numel batch_shape)) tokens)
      as (zs & Ezs & Hzs).
    + rewrite repeat_length. congruence.
    + intros idx v Hi Hv. apply repeat_spec in Hi. subst idx.
      rewrite Forall_forall in Htok. pose proof (Htok v Hv) as Hv'.
      destruct Hv' as [Hvl Hvv].
      pose proof (scatter_row_arange v [] L) as Ha. simpl in Ha.
      rewrite Hvl in Ha. exists (v ++ repeat 0%Z L).
      split; [exact Ha |]. split.
      * rewrite length_app, repeat_length. lia.
      * rewrite filter_app, filter_nonzero_zeros, app_nil_r.
        apply filter_nonzero_id. apply (tokens_nonzero M A).
        split; assumption.
    + exists (repeat (seq 0 M) (numel batch_shape)), s1, zs.
      rewrite repeat_length in Ezs.
      split; [reflexivity |]. split; assumption.
Qed.

(** X15: the selective copying task.  For an alphabet of at least three
    and at most 2^63 symbols (the bound [A - 1] given to [torch.randint]
    is then a 64-bit signed integer) and a generator that returns integers in the range asked for
    and permutations, [torch_copying_data] without one-hot encoding
    returns, for every sequence of the batch: a target [y] of [M] tokens,
    none of them the padding 0 or the marker [A - 1]; an input [x] made of
    [M + L] positions followed by [M] markers [A - 1]; and the non-zero
    values among the first [M + L] positions of [x], read from left to
    right, are exactly the tokens of [y] (of [y] reversed when [reverse] is
    set).  With [variable], the batch must not be empty. *)
Theorem copying_data_selective
  (gen : Type)
  (randint : Z -> Z -> nat -> nat -> gen -> list (list Z) * gen)
  (randperm : nat -> gen -> list nat * gen)
  (L M : nat) (A : Z) (variable : bool) (batch_shape : list nat)
  (reverse : bool) (s : gen) :
  randint_ok randint -> randperm_ok randperm -> (3 <= A <= 2 ^ 63)%Z ->
  (variable = true -> numel batch_shape <> O) ->
  exists x y s',
    torch_copying_data gen randint randperm L M A variable batch_shape
                       false reverse s = Ok (XLong x, y, s') /\
    lbatch x = batch_shape /\ lbatch y = batch_shape /\
    length (rows y) = numel batch_shape /\
    Forall2 (fun xr yr =>
               tokens_ok M A yr /\
               exists body,
                 xr = body ++ repeat (A - 1)%Z M /\
                 (length body = (M + L)%nat /\
                  filter nonzero body = if reverse then rev yr else yr))
            (rows x) (rows y).
Proof.
  intros Hri Hrp HA Hbatch. unfold torch_copying_data.
  rewrite (in_int64_true (A - 1)) by lia. cbn [negb].
  destruct (Z.leb_spec (A - 1) 1) as [Hle | _]; [lia |].
  destruct (randint_tokens gen randint M A (numel batch_shape) s Hri (proj1 HA))
    as [Hlen Htok].
  destruct (randint 1%Z (A - 1)%Z (numel batch_shape) M s) as [tokens s1].
  cbn [fst] in Hlen, Htok.
  destruct (copying_data_indices gen randperm L M A variable batch_shape
              tokens s1 Hrp Hbatch Hlen Htok)
    as (inds & s2 & zs & Einds & Ezs & Hzs).
  cbv beta iota zeta. rewrite Einds. cbn [bind]. rewrite Ezs. cbn [bind].
  eexists _, _, _. split; [reflexivity |].
  cbn [lbatch rows]. split; [reflexivity |]. split; [reflexivity |]. split.
  - destruct reverse; [unfold flip; rewrite length_map |]; exact Hlen.
  - rewrite <- Hlen.
    apply (copying_data_finish
             (fun r v => length r = (M + L)%nat /\ filter nonzero r = v)
             M A (repeat (A - 1)%Z M) reverse zs tokens Htok Hzs).
Qed.

Lemma copying_data_selective_witness :
  exists x y s',
    torch_copying_data unit
      (fun low _ n k s => (repeat (repeat low k) n, s))
      (fun k s => (rev (seq 0 k), s))
      2 2 4%Z true [2%nat] false false tt = Ok (XLong x, y, s') /\
    lbatch x = [2%nat] /\ lbatch y = [2%nat] /\
    length (rows y) = numel [2%nat] /\
    Forall2 (fun xr yr =>
               tokens_ok 2 4%Z yr /\
               exists body,
                 xr = body ++ repeat (4 - 1)%Z 2 /\
                 (length body = (2 + 2)%nat /\
                  filter nonzero body = yr))
            (rows x) (rows y).
Proof.
  apply (copying_data_selective unit
           (fun low _ n k s => (repeat (repeat low k) n, s))
           (fun k s => (rev (seq 0 k), s))
           2 2 4%Z true [2%nat] false tt).
  - intros low high n k s Hlt. simpl. split; [apply repeat_length |].
    apply Forall_forall. intros row Hr. apply repeat_spec in Hr. subst row.
    split; [apply repeat_length |].
    apply Forall_forall. intros v Hv. apply repeat_spec in Hv. lia.
  - intros k s. simpl. apply Permutation_rev.
  - lia.
  - intros _. simpl. lia.
Defined.

(** X16: the plain copying task.  For an alphabet of at least three and
    at most 2^63 symbols: without [variable], the generator of
    permutations is not used, and every input sequence is laid out as the
    [M] tokens of its target (of the target reversed when [reverse] is
    set), then [L] zeros, then [M] markers [A - 1]. *)
Theorem copying_data_plain
  (gen : Type)
  (randint : Z -> Z -> nat -> nat -> gen -> list (list Z) * gen)
  (randperm1 randperm2 : nat -> gen -> list nat * gen)
  (L M : nat) (A : Z) (batch_shape : list nat) (reverse : bool) (s : gen) :
  randint_ok randint -> (3 <= A <= 2 ^ 63)%Z ->
  exists x y s',
    torch_copying_data gen randint randperm1 L M A false batch_shape
                       false reverse s = Ok (XLong x, y, s') /\
    torch_copying_data gen randint randperm2 L M A false batch_shape
                       false reverse s = Ok (XLong x, y, s') /\
    Forall2 (fun xr yr =>
               tokens_ok M A yr /\
               xr = (if reverse then rev yr else yr)
                    ++ repeat 0%Z L ++ repeat (A - 1)%Z M)
            (rows x) (rows y).
Proof.
  intros Hri HA. unfold torch_copying_data.
  rewrite (in_int64_true (A - 1)) by lia. cbn [negb].
  destruct (Z.leb_spec (A - 1) 1) as [Hle | _]; [lia |].
  destruct (randint_tokens gen randint M A (numel batch_shape) s Hri (proj1 HA))
    as [Hlen Htok].
  destruct (randint 1%Z (A - 1)%Z (numel batch_shape) M s) as [tokens s1].
  cbn [fst] in Hlen, Htok. cbv beta iota zeta. cbn [bind].
  destruct (scatter_rows (fun r v => r = v ++ repeat 0%Z L)
              (repeat 0%Z (M + L))
              (repeat (seq 0 M) (numel batch_shape)) tokens)
    as (zs & Ezs & Hzs).
  - rewrite repeat_length. congruence.
  - intros idx v Hi Hv. apply repeat_spec in Hi. subst idx.
    rewrite Forall_forall in Htok. destruct (Htok v Hv) as [Hvl _].
    pose proof (scatter_row_arange v [] L) as Ha. simpl in Ha.
    rewrite Hvl in Ha. exists (v ++ repeat 0%Z L).
    split; [exact Ha | reflexivity].
  - rewrite repeat_length in Ezs. rewrite Ezs. cbn [bind].
    eexists _, _, _. split; [reflexivity |]. split; [reflexivity |].
    cbn [rows]. rewrite <- Hlen.
    pose proof (copying_data_finish (fun r v => r = v ++ repeat 0%Z L)
                  M A (repeat (A - 1)%Z M) reverse zs tokens Htok Hzs)
      as Hfin.
    eapply Forall2_impl; [| exact Hfin].
    intros xr yr (Hy & body & -> & ->). split; [exact Hy |].
    rewrite <- app_assoc. reflexivity.
Qed.

Lemma copying_data_plain_witness :
  exists x y s',
    torch_copying_data unit
      (fun low _ n k s => (repeat (repeat low k) n, s))
      (fun k s => (seq 0 k, s))
      2 2 4%Z false [2%nat] false true tt = Ok (XLong x, y, s') /\
    torch_copying_data unit
      (fun low _ n k s => (repeat (repeat low k) n, s))
      (fun k s => ([], s))
      2 2 4%Z false [2%nat] false true tt = Ok (XLong x, y, s') /\
    Forall2 (fun xr yr =>
               tokens_ok 2 4%Z yr /\
               xr = rev yr ++ repeat 0%Z 2 ++ repeat (4 - 1)%Z 2)
            (rows x) (rows y).
Proof.
  apply (copying_data_plain unit
           (fun low _ n k s => (repeat (repeat low k) n, s))
           (fun k s => (seq 0 k, s)) (fun k s => ([], s))
           2 2 4%Z [2%nat] true tt).
  - intros low high n k s Hlt. simpl. split; [apply repeat_length |].
    apply Forall_forall. intros row Hr. apply repeat_spec in Hr. subst row.
    split; [apply repeat_length |].
    apply Forall_forall. intros v Hv. apply repeat_spec in Hv. lia.
  - lia.
Defined.

Lemma one_hot_in_range t A :
  (0 <= A < 2 ^ 63)%Z ->
  Forall (Forall (fun v => (0 <= v < A)%Z)) t ->
  exists vs, one_hot t A = Ok vs.
Proof.
  intros HA Hr. unfold one_hot.
  rewrite (in_int64_true A) by lia. cbn [negb].
  assert (Hb : forallb (forallb (fun v => (0 <=? v)%Z && (v <? A)%Z)) t
               = true).
  { apply forallb_forall. intros row Hrow. apply forallb_forall.
    intros v Hv. rewrite Forall_forall in Hr.
    pose proof (Hr row Hrow) as Hrow'. rewrite Forall_forall in Hrow'.
    specialize (Hrow' v Hv). apply andb_true_iff. split.
    - apply Z.leb_le. lia.
    - apply Z.ltb_lt. lia. }
  rewrite Hb. eexists. reflexivity.
Qed.

(** The values of a row of the input: zero, a token or the marker. *)
Lemma copying_row_in_range M L A body yr :
  (3 <= A)%Z -> tokens_ok M A yr ->
  length body = (M + L)%nat /\ filter nonzero body = yr ->
  Forall (fun v => (0 <= v < A)%Z) (body ++ repeat (A - 1)%Z M).
Proof.
  intros HA [_ Hy] [_ Hf]. apply Forall_app. split.
  - apply Forall_forall. intros v Hv.
    destruct (Z.eq_dec v 0) as [-> | Hne]; [lia |].
    assert (Hin : In v yr).
    { rewrite <- Hf. apply filter_In. split; [exact Hv |].
      unfold nonzero. destruct (Z.eqb_spec v 0); [contradiction |].
      reflexivity. }
    rewrite Forall_forall in Hy. specialize (Hy v Hin). simpl in Hy. lia.
  - apply Forall_forall. intros v Hv. apply repeat_spec in Hv. lia.
Qed.

(** X17: the one-hot encoding never fails.  Under the assumptions of the
    selective copying task and for an alphabet of less than 2^63 symbols
    (the number of classes given to [F.one_hot] is then a 64-bit signed
    integer), every value of the integer input is a class
    of the alphabet, so that with [one_hot] the call returns the one-hot
    encoding of the input it returns without [one_hot], with the same
    target and the same generator state. *)
Theorem copying_data_one_hot
  (gen : Type)
  (randint : Z -> Z -> nat -> nat -> gen -> list (list Z) * gen)
  (randperm : nat -> gen -> list nat * gen)
  (L M : nat) (A : Z) (variable : bool) (batch_shape : list nat)
  (reverse : bool) (s : gen) :
  randint_ok randint -> randperm_ok randperm -> (3 <= A < 2 ^ 63)%Z ->
  (variable = true -> numel batch_shape <> O) ->
  exists x vectors y s',
    torch_copying_data gen randint randperm L M A variable batch_shape
                       false reverse s = Ok (XLong x, y, s') /\
    torch_copying_data gen randint randperm L M A variable batch_shape
                       true reverse s
    = Ok (XOneHot batch_shape vectors, y, s') /\
    one_hot (rows x) A = Ok vectors /\
    Forall (Forall (fun v => (0 <= v < A)%Z)) (rows x).
Proof.
  intros Hri Hrp HA Hbatch. unfold torch_copying_data.
  rewrite (in_int64_true (A - 1)) by lia. cbn [negb].
  destruct (Z.leb_spec (A - 1) 1) as [Hle | _]; [lia |].
  destruct (randint_tokens gen randint M A (numel batch_shape) s Hri (proj1 HA))
    as [Hlen Htok].
  destruct (randint 1%Z (A - 1)%Z (numel batch_shape) M s) as [tokens s1].
  cbn [fst] in Hlen, Htok.
  destruct (copying_data_indices gen randperm L M A variable batch_shape
              tokens s1 Hrp Hbatch Hlen Htok)
    as (inds & s2 & zs & Einds & Ezs & Hzs).
  cbv beta iota zeta. rewrite Einds. cbn [bind]. rewrite Ezs. cbn [bind].
  assert (Hrange : Forall (Forall (fun v => (0 <= v < A)%Z))
                     (cat_last zs (repeat (repeat (A - 1)%Z M)
                                          (numel batch_shape)))).
  { rewrite <- Hlen.
    pose proof (copying_data_finish
                  (fun r v => length r = (M + L)%nat /\ filter nonzero r = v)
                  M A (repeat (A - 1)%Z M) false zs tokens Htok Hzs) as Hfin.
    cbv beta iota in Hfin. clear - Hfin HA.
    induction Hfin as [| xr yr xs ys (Hy & body & -> & Hq) Hrest IH];
      constructor; [| exact IH].
    apply (copying_row_in_range M L A body yr (proj1 HA) Hy Hq). }
  destruct (one_hot_in_range _ A ltac:(lia) Hrange) as (vs & Evs).
  rewrite Evs. cbn [bind].
  eexists _, vs, _, _. split; [reflexivity |]. split; [reflexivity |].
  cbn [rows]. split; [exact Evs | exact Hrange].
Qed.

Lemma copying_data_one_hot_witness :
  exists x vectors y s',
    torch_copying_data unit
      (fun low _ n k s => (repeat (repeat low k) n, s))
      (fun k s => (rev (seq 0 k), s))
      2 2 4%Z true [2%nat] false false tt = Ok (XLong x, y, s') /\
    torch_copying_data unit
      (fun low _ n k s => (repeat (repeat low k) n, s))
      (fun k s => (rev (seq 0 k), s))
      2 2 4%Z true [2%nat] true false tt
    = Ok (XOneHot [2%nat] vectors, y, s') /\
    one_hot (rows x) 4%Z = Ok vectors /\
    Forall (Forall (fun v => (0 <= v < 4)%Z)) (rows x).
Proof.
  apply (copying_data_one_hot unit
           (fun low _ n k s => (repeat (repeat low k) n, s))
           (fun k s => (rev (seq 0 k), s))
           2 2 4%Z true [2%nat] false tt).
  - intros low high n k s Hlt. simpl. split; [apply repeat_length |].
    apply Forall_forall. intros row Hr. apply repeat_spec in Hr. subst row.
    split; [apply repeat_length |].
    apply Forall_forall. intros v Hv. apply repeat_spec in Hv. lia.
  - intros k s. simpl. apply Permutation_rev.
  - lia.
  - intros _. simpl. lia.
Defined.

(** X18: an empty batch.  For an alphabet of at least three and less
    than 2^63 symbols: when the batch shape has a zero dimension, the
    call without [variable] returns an input and a target with no row,
    but the call with [variable] raises RuntimeError: the list of
    permutations that it stacks is empty. *)
Theorem copying_data_empty_batch
  (gen : Type)
  (randint : Z -> Z -> nat -> nat -> gen -> list (list Z) * gen)
  (randperm : nat -> gen -> list nat * gen)
  (L M : nat) (A : Z) (batch_shape : list nat) (one_hot_arg reverse : bool)
  (s : gen) :
  randint_ok randint -> (3 <= A < 2 ^ 63)%Z -> In O batch_shape ->
  torch_copying_data gen randint randperm L M A true batch_shape
                     one_hot_arg reverse s = Raise RuntimeError /\
  exists s',
    torch_copying_data gen randint randperm L M A false batch_shape
                       one_hot_arg reverse s
    = Ok (if one_hot_arg then XOneHot batch_shape []
          else XLong (mkL batch_shape []),
          mkL batch_shape [], s').
Proof.
  intros Hri HA Hz.
  assert (Hn : numel batch_shape = O).
  { clear - Hz. induction batch_shape as [| d r IH]; [contradiction |].
    unfold numel in *. simpl. destruct Hz as [-> | Hz]; [reflexivity |].
    rewrite (IH Hz). lia. }
  unfold torch_copying_data.
  rewrite (in_int64_true (A - 1)) by lia. cbn [negb].
  destruct (Z.leb_spec (A - 1) 1) as [Hle | _]; [lia |].
  destruct (randint_tokens gen randint M A (numel batch_shape) s Hri (proj1 HA))
    as [Hlen _].
  destruct (randint 1%Z (A - 1)%Z (numel batch_shape) M s) as [tokens s1].
  cbn [fst] in Hlen. rewrite Hn in *.
  destruct tokens; [| discriminate]. split.
  - reflexivity.
  - exists s1. cbn [repeat bind scatter_ cat_last]. unfold one_hot.
    rewrite (in_int64_true A) by lia.
    destruct one_hot_arg, reverse; reflexivity.
Qed.

Lemma copying_data_empty_batch_witness :
  torch_copying_data unit
    (fun low _ n k s => (repeat (repeat low k) n, s))
    (fun k s => (seq 0 k, s))
    2 2 4%Z true [3; 0]%nat false false tt = Raise RuntimeError /\
  exists s',
    torch_copying_data unit
      (fun low _ n k s => (repeat (repeat low k) n, s))
      (fun k s => (seq 0 k, s))
      2 2 4%Z false [3; 0]%nat false false tt
    = Ok (XLong (mkL [3; 0]%nat []), mkL [3; 0]%nat [], s').
Proof.
  apply (copying_data_empty_batch unit
           (fun low _ n k s => (repeat (repeat low k) n, s))
           (fun k s => (seq 0 k, s))
           2 2 4%Z [3; 0]%nat false false tt).
  - intros low high n k s Hlt. simpl. split; [apply repeat_length |].
    apply Forall_forall. intros row Hr. apply repeat_spec in Hr. subst row.
    split; [apply repeat_length |].
    apply Forall_forall. intros v Hv. apply repeat_spec in Hv. lia.
  - lia.
  - right. left. reflexivity.
Defined.

(** ** A list of hidden states that is too short *)

Lemma skipn_nil_nth {A : Type} (l : list A) n :
  skipn n l = [] -> nth_error l n = None.
Proof.
  revert l. induction n as [| n IH]; intros l H.
  - simpl in H. subst l. reflexivity.
  - destruct l as [| a l]; [reflexivity |]. simpl in *. apply IH. exact H.
Qed.

(** One iteration of the loop of [forward] on a well-formed layer. *)
Lemma forward_loop_step (gen : Type)
  (bernoulli : tensor -> gen -> tensor * gen)
  (self : MinGRU) (h : list tensor) (B T : nat) :
  (forall p s, finite p ->
     shape (fst (bernoulli p s)) = shape p /\ finite (fst (bernoulli p s))) ->
  (1 <= T)%nat ->
  forall w b rest ind outd lidx inp out acc s h_prev,
    nth_error h lidx = Some h_prev -> state_ok B outd h_prev ->
    linear_ok ind (2 * outd) (w, b) ->
    (residual self = true ->
     exists al, nth_error (align_layers self) lidx = Some al /\
                align_ok ind outd al) ->
    shape inp = [B; T; ind] -> finite inp ->
    exists o' final s1,
      forward_loop gen bernoulli self h ((w, b) :: rest) lidx inp out acc s
      = forward_loop gen bernoulli self h rest (S lidx) o' (Some o')
                     (acc ++ [final]) s1 /\
      shape o' = [B; T; outd] /\ finite o' /\ state_ok B outd final.
Proof.
  intros Hbern HT w b rest ind outd lidx inp out acc s h_prev
         Hnth Hst Hwb Hal Hi Fi.
  destruct (forward_layer_ok B T ind outd inp h_prev w b HT Hi Fi Hst Hwb)
    as (o & final & Ho & Hso & Po & Hfinal & Hsf).
  assert (Hres : exists o', (if residual self
            then match nth_error (align_layers self) lidx with
                 | None => Raise IndexError
                 | Some al => a <- align_forward al inp;; add o a
                 end
            else Ok o) = Ok o' /\ shape o' = [B; T; outd] /\ finite o').
  { destruct (residual self) eqn:Hr.
    - destruct (Hal eq_refl) as (al & Hna & Hok). rewrite Hna.
      destruct (align_forward_ok B T ind outd al inp Hi Fi Hok)
        as (a & Ha & Hsa & Fa).
      rewrite Ha. cbn [bind].
      destruct (tzip_finite fadd o a) as (o' & Ho' & Hso' & Fo').
      + intros u v. reflexivity.
      + congruence.
      + apply positive_finite. exact Po.
      + exact Fa.
      + exists o'. repeat split; [exact Ho' | congruence | exact Fo'].
    - exists o. repeat split; [assumption |].
      apply positive_finite. exact Po. }
  destruct Hres as (o' & Hres & Hso' & Fo').
  cbn [forward_loop]. rewrite Hnth, Ho. cbn [bind]. rewrite Hfinal.
  cbn [bind]. rewrite Hres. cbn [bind].
  destruct ((lidx <? num_layers self - 1)%nat
            && (if Rlt_dec 0 (dropout self) then true else false))%bool.
  - destruct (bernoulli (full_like o' (1 - dropout self)) s)
      as [mask s1] eqn:Hm.
    assert (Ffull : finite (full_like o' (1 - dropout self))).
    { intros idx _. eexists. reflexivity. }
    destruct (Hbern _ s Ffull) as [Hsm Fm]. rewrite Hm in Hsm, Fm.
    simpl in Hsm, Fm.
    destruct (tzip_finite fmul o' mask) as (o2 & Ho2 & Hso2 & Fo2).
    + intros u v. reflexivity.
    + congruence.
    + exact Fo'.
    + exact Fm.
    + unfold mul. rewrite Ho2. cbn [bind]. exists o2, final, s1.
      split; [reflexivity |]. split; [congruence |]. split; assumption.
  - exists o', final, s. split; [reflexivity |]. split; [assumption |].
    split; assumption.
Qed.

Lemma forward_loop_short (gen : Type)
  (bernoulli : tensor -> gen -> tensor * gen)
  (self : MinGRU) (h : list tensor) (B T : nat) :
  (forall p s, finite p ->
     shape (fst (bernoulli p s)) = shape p /\ finite (fst (bernoulli p s))) ->
  (1 <= T)%nat ->
  forall sizes layers ind lidx inp out acc s,
    layers_ok ind sizes layers ->
    (length (skipn lidx h) < length sizes)%nat ->
    Forall2 (state_ok B) (firstn (length (skipn lidx h)) sizes)
            (skipn lidx h) ->
    (residual self = true ->
     aligns_ok ind sizes (skipn lidx (align_layers self))) ->
    shape inp = [B; T; ind] -> finite inp ->
    forward_loop gen bernoulli self h layers lidx inp out acc s
    = Raise IndexError.
Proof.
  intros Hbern HT.
  induction sizes as [| outd sizes IH];
    intros layers ind lidx inp out acc s Hl Hlt Hh Hal Hi Fi.
  - simpl in Hlt. lia.
  - destruct layers as [| [w b] rest]; [contradiction |].
    destruct Hl as [Hwb Hrest].
    destruct (skipn lidx h) as [| h_prev tl] eqn:Hsk.
    + cbn [forward_loop]. rewrite (skipn_nil_nth _ _ Hsk). reflexivity.
    + destruct (skipn_cons_nth _ _ _ _ Hsk) as [Hnth Hskip].
      simpl in Hh, Hlt. apply Forall2_cons_iff in Hh as [Hst Hh'].
      destruct (forward_loop_step gen bernoulli self h B T Hbern HT
                  w b rest ind outd lidx inp out acc s h_prev
                  Hnth Hst Hwb) as (o' & final & s1 & Estep & So' & Fo' & _).
      * intros Hr. specialize (Hal Hr).
        destruct (skipn lidx (align_layers self)) as [| al als] eqn:Hska;
          [contradiction |].
        destruct (skipn_cons_nth _ _ _ _ Hska) as [Hna _].
        exists al. split; [exact Hna | apply Hal].
      * exact Hi.
      * exact Fi.
      * rewrite Estep. apply (IH rest outd); try assumption.
        -- rewrite Hskip. lia.
        -- rewrite Hskip. exact Hh'.
        -- intros Hr. specialize (Hal Hr).
           destruct (skipn lidx (align_layers self)) as [| al als] eqn:Hska;
             [contradiction |].
           destruct (skipn_cons_nth _ _ _ _ Hska) as [_ Hska'].
           rewrite Hska'. apply Hal.
Qed.

(** X19: too few hidden states.  When [forward] of a constructed module is
    given a list of hidden states that is shorter than the number of layers
    (its states being valid for the first layers), it raises IndexError,
    after the layers that have a state were computed. *)
Theorem forward_missing_hidden_state
  (gen : Type) (init_values : list nat -> gen -> tensor * gen)
  (bernoulli : tensor -> gen -> tensor * gen)
  (input_size : nat) (hidden_sizes : list nat) (dropout_arg : R)
  (residual_arg bias : bool) (s0 s : gen)
  (x : tensor) (h : list tensor) (B T : nat) :
  (forall shp s, shape (fst (init_values shp s)) = shp /\
                 finite (fst (init_values shp s))) ->
  (forall p s, finite p ->
     shape (fst (bernoulli p s)) = shape p /\ finite (fst (bernoulli p s))) ->
  shape x = [B; T; input_size] -> (1 <= T)%nat -> finite x ->
  (length h < length hidden_sizes)%nat ->
  Forall2 (state_ok B) (firstn (length h) hidden_sizes) h ->
  let self := fst (MinGRU_init gen init_values input_size
                     (SizeList hidden_sizes) dropout_arg residual_arg bias
                     s0) in
  forward gen bernoulli self x (Some h) s = Raise IndexError.
Proof.
  intros Hinit Hbern Hx HT Fx Hlen Hh self.
  destruct (init_layers_ok gen init_values bias Hinit hidden_sizes input_size
              s0) as [Hl Ha].
  subst self. unfold MinGRU_init.
  destruct (init_layers gen init_values input_size hidden_sizes bias s0)
    as [[gh_layers als] s1]. cbn [fst snd] in Hl, Ha.
  set (self := mkMinGRU _ _ _ _ _ _). cbn [fst].
  unfold forward, forward_assert. rewrite Hx. simpl.
  rewrite Nat.eqb_refl. cbn [bind].
  apply (forward_loop_short gen bernoulli self h B T Hbern HT hidden_sizes
           gh_layers input_size 0 x None [] s); try assumption.
  intros Hr. simpl in Hr. subst residual_arg. exact Ha.
Qed.

Lemma forward_missing_hidden_state_witness :
  let self := fst (MinGRU_init unit (fun shp s => (new_zeros shp, s)) 1
                     (SizeList [2; 3]%nat) 0 true true tt) in
  forward unit (fun p s => (new_zeros (shape p), s)) self x_demo
          (Some (map (fun hidden_size => g (new_zeros [1; 1; hidden_size]%nat))
                     [2%nat])) tt
  = Raise IndexError.
Proof.
  apply (forward_missing_hidden_state unit (fun shp s => (new_zeros shp, s))
           (fun p s => (new_zeros (shape p), s)) 1 [2; 3]%nat 0 true true
           tt tt x_demo
           (map (fun hidden_size => g (new_zeros [1; 1; hidden_size]%nat))
                [2%nat]) 1 3).
  - intros shp s. split; [reflexivity |]. intros idx _. exists 0. reflexivity.
  - intros p s _. split; [reflexivity |]. intros idx _. exists 0. reflexivity.
  - reflexivity.
  - lia.
  - exact demo_x_finite.
  - simpl. lia.
  - exact (init_hidden_states_ok 1 [2%nat]).
Defined.

(** ** The spatial variant on a sequence given in two pieces *)

Lemma rsum_ext n f f' :
  (forall i, (i < n)%nat -> f i = f' i) -> rsum n f = rsum n f'.
Proof.
  induction n as [| n IH]; intros H; simpl; [reflexivity |].
  rewrite IH by (intros; apply H; lia). rewrite H by lia. reflexivity.
Qed.

Lemma conv_r_ext Cin H W k1 k2 img img' w bias o i j :
  (forall c p q, img c p q = img' c p q) ->
  conv_r Cin H W k1 k2 img w bias o i j
  = conv_r Cin H W k1 k2 img' w bias o i j.
Proof.
  intros He. unfold conv_r. f_equal.
  apply rsum_ext. intros c _. apply rsum_ext. intros u _.
  apply rsum_ext. intros v _. rewrite He. reflexivity.
Qed.

Lemma narrow1_shape5 B T Cin H W s len x :
  shape x = [B; T; Cin; H; W] ->
  shape (narrow 1 s len x) = [B; len; Cin; H; W].
Proof. intros Hx. unfold narrow. simpl. rewrite Hx. reflexivity. Qed.

Lemma narrow1_finite5 B T Cin H W s len x :
  shape x = [B; T; Cin; H; W] -> (s + len <= T)%nat -> finite x ->
  finite (narrow 1 s len x).
Proof.
  intros Hx Hle Fx idx Hi. rewrite (narrow1_shape5 _ _ _ _ _ _ _ _ Hx) in Hi.
  split_range Hi. simpl. apply Fx. rewrite Hx. solve_range.
Qed.

Lemma last1_spec5 B T Hd H W o :
  shape o = [B; T; Hd; H; W] -> (1 <= T)%nat ->
  exists hn, last1 o = Ok hn /\ shape hn = [B; 1%nat; Hd; H; W] /\
    forall b c i j,
      data hn [b; O; c; i; j] = data o [b; (T - 1)%nat; c; i; j].
Proof.
  intros Ho HT. unfold last1. rewrite Ho. cbn [nth_error].
  eexists. split; [reflexivity |]. unfold narrow. rewrite Ho.
  cbn [shape data set_at shift_at]. split.
  - rewrite Nat.min_r by lia. reflexivity.
  - intros b c i j. reflexivity.
Qed.

(** X20: the spatial variant can be fed a sequence in two pieces.  For a
    contiguous finite input of n + m frames (n >= 1), a positive initial
    state and finite parameters of any kernel size, [conv_mingru] on the
    first n frames, then on the remaining m frames from the last state of
    the first call, the two pieces being passed as contiguous copies of the
    slices, gives outputs whose concatenation along the time axis equals,
    over exact real arithmetic, the output of one call on the whole
    input. *)
Theorem conv_mingru_in_pieces B n m Cin Hd H W k1 k2 x h w bias :
  (1 <= n)%nat ->
  shape x = [B; (n + m)%nat; Cin; H; W] ->
  shape h = [B; 1%nat; Hd; H; W] ->
  shape w = [(2 * Hd)%nat; Cin; k1; k2] ->
  contiguous x ->
  finite x -> positive h -> finite w -> bias_ok bias (2 * Hd) ->
  exists o1 hn o2 o12 o,
    conv_mingru (contiguous_copy (narrow 1 0 n x)) h w bias = Ok o1 /\
    last1 o1 = Ok hn /\
    conv_mingru (contiguous_copy (narrow 1 n m x)) hn w bias = Ok o2 /\
    cat1 o1 o2 = Ok o12 /\
    conv_mingru x h w bias = Ok o /\
    teq o o12.
Proof.
  intros Hn Hx Hh Hw Hcx Fx Ph Fw Hb.
  set (G := fun b c i j k =>
              conv_r Cin H W k1 k2 (frame_r x b k) w bias c i j).
  destruct (conv_mingru_spec _ _ _ _ _ _ _ _ _ _ _ _ Hx Hh Hw Fx Ph Fw Hb
              (or_introl Hcx))
    as (o & Eo & So & Do).
  assert (Hx1 : shape (contiguous_copy (narrow 1 0 n x))
                = [B; n; Cin; H; W])
    by apply (narrow1_shape5 _ _ _ _ _ 0 n _ Hx).
  assert (Hx2 : shape (contiguous_copy (narrow 1 n m x))
                = [B; m; Cin; H; W])
    by apply (narrow1_shape5 _ _ _ _ _ n m _ Hx).
  assert (Fx1 : finite (contiguous_copy (narrow 1 0 n x)))
    by apply (narrow1_finite5 _ _ _ _ _ 0 n _ Hx ltac:(lia) Fx).
  assert (Fx2 : finite (contiguous_copy (narrow 1 n m x)))
    by apply (narrow1_finite5 _ _ _ _ _ n m _ Hx ltac:(lia) Fx).
  destruct (conv_mingru_spec _ _ _ _ _ _ _ _ _ _ _ _ Hx1 Hh Hw Fx1 Ph Fw Hb
              (or_introl eq_refl))
    as (o1 & Eo1 & So1 & Do1).
  assert (Do1' : forall b t c i j,
            (b < B)%nat -> (t < n)%nat -> (c < Hd)%nat ->
            (i < H)%nat -> (j < W)%nat ->
            data o1 [b; t; c; i; j]
            = Fin (hseq (G b c i j) (G b (c + Hd)%nat i j)
                        (toR (data h [b; O; c; i; j])) (S t))).
  { intros b t c i j Hb' Ht Hc Hi Hj. rewrite Do1 by assumption. f_equal.
    apply hseq_ext; intros k Hk; unfold G; apply conv_r_ext;
      intros c0 p q; unfold frame_r; simpl; rewrite Nat.add_0_r;
      reflexivity. }
  destruct (last1_spec5 _ _ _ _ _ _ So1 Hn) as (hn & Ehn & Shn & Dhn).
  assert (Dhn' : forall b c i j,
            (b < B)%nat -> (c < Hd)%nat -> (i < H)%nat -> (j < W)%nat ->
            data hn [b; O; c; i; j]
            = Fin (hseq (G b c i j) (G b (c + Hd)%nat i j)
                        (toR (data h [b; O; c; i; j])) n)).
  { intros b c i j Hb' Hc Hi Hj. rewrite Dhn, Do1' by (assumption || lia).
    replace (S (n - 1)) with n by lia. reflexivity. }
  assert (Phn : positive hn).
  { intros idx Hi. rewrite Shn in Hi.
    apply in_range_state5 in Hi as (b & c & i & j & -> & Hb' & Hc & Hi & Hj).
    rewrite Dhn' by assumption. eexists; split; [reflexivity |].
    apply hseq_pos.
    destruct (Ph [b; O; c; i; j]) as (r & -> & Hr);
      [rewrite Hh; solve_range |].
    assumption. }
  destruct (conv_mingru_spec _ _ _ _ _ _ _ _ _ _ _ _ Hx2 Shn Hw Fx2 Phn Fw Hb
              (or_introl eq_refl))
    as (o2 & Eo2 & So2 & Do2).
  destruct (cat1_spec B n m [Hd; H; W] o1 o2 So1 So2)
    as (o12 & E12 & S12 & D12).
  exists o1, hn, o2, o12, o. repeat split; try assumption.
  - congruence.
  - intros idx Hi. rewrite So in Hi. split_range Hi.
    rewrite Do, D12 by assumption.
    destruct (Nat.ltb_spec i0 n) as [Hlt | Hge].
    + rewrite Do1' by assumption. reflexivity.
    + rewrite Do2, Dhn' by (assumption || lia). f_equal.
      replace (S i0) with (n + S (i0 - n))%nat by lia.
      rewrite hseq_app. cbn [toR].
      apply hseq_ext; intros k Hk; unfold G; apply conv_r_ext;
        intros c0 p q; reflexivity.
Qed.

Lemma conv_mingru_in_pieces_witness :
  exists o1 hn o2 o12 o,
    conv_mingru (contiguous_copy (narrow 1 0 2 x_batch_img)) h_batch_img
                weight_demo_img None = Ok o1 /\
    last1 o1 = Ok hn /\
    conv_mingru (contiguous_copy (narrow 1 2 1 x_batch_img)) hn
                weight_demo_img None = Ok o2 /\
    cat1 o1 o2 = Ok o12 /\
    conv_mingru x_batch_img h_batch_img weight_demo_img None = Ok o /\
    teq o o12.
Proof.
  apply (conv_mingru_in_pieces 2 2 1 1 1 2 2 3 3 x_batch_img h_batch_img
           weight_demo_img None).
  - lia.
  - reflexivity.
  - reflexivity.
  - reflexivity.
  - reflexivity.
  - exact batch_img_x_finite.
  - exact batch_img_h_positive.
  - exact demo_img_weight_finite.
  - exact I.
Defined.

(** The slice itself, two of the three frames of each sequence of the
    batch, is not contiguous, and [conv_mingru] refuses it: the [view] of
    the parallel evaluation raises. *)
Lemma conv_mingru_slice_raises :
  shape (narrow 1 0 2 x_batch_img) = [2; 2; 1; 2; 2]%nat /\
  conv_mingru (narrow 1 0 2 x_batch_img) h_batch_img weight_demo_img None
  = Raise RuntimeError.
Proof. split; reflexivity. Qed.

(** ** What the constructor establishes *)

Lemma new_Linear_built (gen : Type)
  (init_values : list nat -> gen -> tensor * gen) ind outd bias s :
  (forall shp s, shape (fst (init_values shp s)) = shp /\
                 finite (fst (init_values shp s))) ->
  linear_built bias ind outd
    (fst (new_Linear gen init_values ind outd bias s)).
Proof.
  intros Hinit. split; [apply new_Linear_ok; exact Hinit |].
  unfold new_Linear. destruct (init_values [outd; ind] s) as [w s1].
  destruct bias; [| reflexivity].
  destruct (init_values [outd] s1) as [b s2]. discriminate.
Qed.

Lemma init_layers_built (gen : Type)
  (init_values : list nat -> gen -> tensor * gen) bias :
  (forall shp s, shape (fst (init_values shp s)) = shp /\
                 finite (fst (init_values shp s))) ->
  forall hidden_sizes ind s,
    layers_built bias ind hidden_sizes
      (fst (fst (init_layers gen init_values ind hidden_sizes bias s))) /\
    aligns_built bias ind hidden_sizes
      (snd (fst (init_layers gen init_values ind hidden_sizes bias s))).
Proof.
  intros Hinit. induction hidden_sizes as [| outd rest IH]; intros ind s.
  - split; exact I.
  - cbn [init_layers].
    pose proof (new_Linear_built gen init_values ind (outd * 2) bias s Hinit)
      as Hgh.
    destruct (new_Linear gen init_values ind (outd * 2) bias s) as [gh s1].
    assert (Hal : forall s2 al,
              (if negb (ind =? outd)%nat
               then let '((w, b), s') :=
                      new_Linear gen init_values ind outd bias s1 in
                    (AlignLinear w b, s')
               else (AlignIdentity, s1)) = (al, s2) ->
              align_built bias ind outd al).
    { intros s2 al. destruct (Nat.eqb_spec ind outd) as [He | Hne]; simpl.
      - intros H. inversion H. exact He.
      - pose proof (new_Linear_built gen init_values ind outd bias s1 Hinit)
          as Hl.
        destruct (new_Linear gen init_values ind outd bias s1) as [[w b] s'].
        intros H. inversion H. subst. split; [exact Hne | exact Hl]. }
    destruct (if negb (ind =? outd)%nat
              then let '((w, b), s') :=
                     new_Linear gen init_values ind outd bias s1 in
                   (AlignLinear w b, s')
              else (AlignIdentity, s1)) as [al s2] eqn:Eal.
    specialize (Hal s2 al eq_refl).
    destruct (IH outd s2) as [IH1 IH2].
    destruct (init_layers gen init_values outd rest bias s2)
      as [[gh_layers als] s3].
    cbn [fst snd layers_built aligns_built] in *.
    rewrite (Nat.mul_comm 2 outd). split; split; assumption.
Qed.

(** X21: the module that the constructor returns.  Whatever the arguments,
    with initial values of the shape asked for: the layer sizes are the
    input size followed by the hidden sizes (an integer standing for a list
    of one size); [num_layers] is the number of hidden sizes; there is one
    gate-hidden layer for each hidden size, with a weight of shape
    (2 * size, previous size) and a bias of 2 * size values exactly when
    [bias] is set; with [residual] there is one alignment layer for each
    layer, the identity exactly between equal sizes and else a linear map
    from the previous size to the size, and without [residual] there is
    none; the dropout rate is the argument clamped into [0, 1], that is 0
    below 0, 1 above 1 and the argument in between; and [residual] is
    stored as given. *)
Theorem MinGRU_init_invariants
  (gen : Type) (init_values : list nat -> gen -> tensor * gen)
  (input_size : nat) (hidden_sizes : sizes_arg) (dropout_arg : R)
  (residual_arg bias : bool) (s0 : gen) :
  (forall shp s, shape (fst (init_values shp s)) = shp /\
                 finite (fst (init_values shp s))) ->
  let self := fst (MinGRU_init gen init_values input_size hidden_sizes
                               dropout_arg residual_arg bias s0) in
  let sizes := match hidden_sizes with
               | OneSize n => [n]
               | SizeList l => l
               end in
  layer_sizes self = input_size :: sizes /\
  num_layers self = length sizes /\
  layers_built bias input_size sizes (gate_hidden_layers self) /\
  (if residual_arg
   then aligns_built bias input_size sizes (align_layers self)
   else align_layers self = []) /\
  dropout self = (if Rlt_dec dropout_arg 0 then 0
                  else if Rlt_dec 1 dropout_arg then 1 else dropout_arg) /\
  residual self = residual_arg.
Proof.
  intros Hinit self sizes.
  destruct (init_layers_built gen init_values bias Hinit sizes input_size s0)
    as [Hl Ha].
  subst self. unfold MinGRU_init. fold sizes.
  destruct (init_layers gen init_values input_size sizes bias s0)
    as [[gh_layers als] s1]. cbn [fst snd] in *.
  cbn [layer_sizes num_layers gate_hidden_layers align_layers dropout
       residual].
  split; [reflexivity |]. split; [reflexivity |].
  split; [exact Hl |]. split.
  - destruct residual_arg; [exact Ha | reflexivity].
  - split; [| reflexivity]. unfold Rmax, Rmin.
    destruct (Rlt_dec dropout_arg 0); destruct (Rlt_dec 1 dropout_arg);
      destruct (Rle_dec dropout_arg 1); destruct (Rle_dec _ 0); lra.
Qed.

Lemma MinGRU_init_invariants_witness :
  let self := fst (MinGRU_init unit (fun shp s => (new_zeros shp, s)) 1
                               (SizeList [2; 2]%nat) 7 true true tt) in
  layer_sizes self = [1; 2; 2]%nat /\
  num_layers self = 2%nat /\
  layers_built true 1 [2; 2]%nat (gate_hidden_layers self) /\
  aligns_built true 1 [2; 2]%nat (align_layers self) /\
  dropout self = (if Rlt_dec 7 0 then 0
                  else if Rlt_dec 1 7 then 1 else 7) /\
  residual self = true.
Proof.
  apply (MinGRU_init_invariants unit (fun shp s => (new_zeros shp, s)) 1
           (SizeList [2; 2]%nat) 7 true true tt).
  intros shp s. split; [reflexivity |]. intros idx _. exists 0. reflexivity.
Defined.

(** ** Float32 rounding *)

Lemma ln2_pos : 0 < ln 2.
Proof. rewrite <- ln_1. apply ln_increasing; lra. Qed.

Lemma ln2_lt_1 : ln 2 < 1.
Proof.
  rewrite <- (ln_exp 1). apply ln_increasing; [lra |].
  pose proof (exp_ineq1 1). lra.
Qed.

Lemma bpow_pos k : 0 < bpow k.
Proof. apply exp_pos. Qed.

Lemma bpow_add a b : bpow (a + b) = bpow a * bpow b.
Proof.
  unfold bpow. rewrite plus_IZR, Rmult_plus_distr_r. apply exp_plus.
Qed.


Lemma bpow_1 : bpow 1 = 2.
Proof. unfold bpow. rewrite Rmult_1_l. apply exp_ln. lra. Qed.

Lemma bpow_opp k : bpow (- k) = / bpow k.
Proof.
  unfold bpow. rewrite opp_IZR, Ropp_mult_distr_l_reverse. apply exp_Ropp.
Qed.

Lemma bpow_neg p : bpow (Z.neg p) = / bpow (Z.pos p).
Proof. apply (bpow_opp (Z.pos p)). Qed.




Lemma log2_lt x k : 0 < x -> x < bpow k -> ln x / ln 2 < IZR k.
Proof.
  intros Hx Hlt. apply (Rmult_lt_reg_r (ln 2)); [apply ln2_pos |].
  unfold Rdiv. rewrite Rmult_assoc, Rinv_l, Rmult_1_r
    by (pose proof ln2_pos; lra).
  rewrite <- (ln_exp (IZR k * ln 2)). apply ln_increasing; assumption.
Qed.



Lemma Int_part_lt r k : r < IZR k -> (Int_part r < k)%Z.
Proof.
  intros H. apply lt_IZR. destruct (base_Int_part r) as [Hle _]. lra.
Qed.


(** The result of [round32] from the exponent and the rounded mantissa. *)
Lemma round32_eq x e m :
  x <> 0 -> ulp_exp32 x = e -> rne (x / bpow e) = m ->
  Rabs (IZR m * bpow e) < bpow 128 ->
  round32 x = Fin (IZR m * bpow e).
Proof.
  intros Hx He Hm Hb. unfold round32.
  destruct (Rlt_dec 0 (Rabs x)) as [_ | Hn];
    [| exfalso; apply Hn; apply Rabs_pos_lt; exact Hx].
  cbv zeta. rewrite He, Hm.
  destruct (Rle_dec (bpow 128) (Rabs (IZR m * bpow e))); [lra | reflexivity].
Qed.



(** A positive number below half of the smallest binary32 number is
    rounded to zero. *)
Lemma round32_tiny x : 0 < x -> x < bpow (-150) -> round32 x = Fin 0.
Proof.
  intros Hx Hlt.
  assert (He : ulp_exp32 x = (-149)%Z).
  { unfold ulp_exp32. rewrite Rabs_pos_eq by lra. apply Z.max_r.
    pose proof (Int_part_lt _ _ (log2_lt _ _ Hx Hlt)). lia. }
  assert (Hy : 0 < x / bpow (-149) < 1 / 2).
  { pose proof (bpow_pos (-149)) as Hp. split.
    - apply Rdiv_lt_0_compat; assumption.
    - apply (Rmult_lt_reg_r (bpow (-149))); [exact Hp |].
      unfold Rdiv at 1. rewrite Rmult_assoc, Rinv_l, Rmult_1_r by lra.
      replace (1 / 2 * bpow (-149)) with (bpow (-150)); [exact Hlt |].
      replace (-150)%Z with (-1 + -149)%Z by lia.
      rewrite bpow_add. f_equal. rewrite bpow_neg, bpow_1. lra. }
  assert (Hm : rne (x / bpow (-149)) = 0%Z).
  { unfold rne.
    assert (Hi : Int_part (x / bpow (-149)) = 0%Z)
      by (symmetry; apply Int_part_spec; simpl; lra).
    rewrite Hi. simpl.
    destruct (Rlt_dec (x / bpow (-149) - 0) (1 / 2)); [reflexivity | lra]. }
  rewrite (round32_eq x (-149) 0); try assumption.
  - f_equal. ring.
  - lra.
  - rewrite Rmult_0_l, Rabs_R0. apply bpow_pos.
Qed.



Lemma sigmoid_m200_rounds_to_0 : round32 (sigmoid (- 200)) = Fin 0.
Proof.
  assert (Hp : 0 < exp 200) by apply exp_pos.
  unfold sigmoid. replace (- - 200) with 200 by lra.
  apply round32_tiny.
  - apply Rinv_0_lt_compat. lra.
  - apply Rlt_trans with (/ exp 200).
    + apply Rinv_lt_contravar; [nra | lra].
    + rewrite <- exp_Ropp. unfold bpow. apply exp_increasing.
      pose proof ln2_lt_1. simpl. lra.
Qed.



(** ** The sequential step in float32 *)








Lemma fsigmoid32_Fin a : fsigmoid32 (Fin a) = round32 (sigmoid a).
Proof. reflexivity. Qed.

Lemma g_elem32_m200 : g_elem32 (Fin (-200)) = Fin 0.
Proof.
  unfold g_elem32, fge0. destruct (Rle_dec 0 (-200)) as [H | _]; [lra |].
  rewrite fsigmoid32_Fin. exact sigmoid_m200_rounds_to_0.
Qed.




(** C3 (the claim as stated fails): in float32 the range of [g] is not
    inside (0, oo).  The sigmoid of -200 is below half of the smallest
    float32 number and is rounded to zero, so that [g] returns exactly 0
    there. *)
Lemma g_float32_returns_zero :
  data (full_like x_single (-200)) [O; O; O] = Fin (-200) /\
  data (g32 (full_like x_single (-200))) [O; O; O] = Fin 0 /\
  ~ (exists v, data (g32 (full_like x_single (-200))) [O; O; O] = Fin v /\
               0 < v).
Proof.
  split; [reflexivity |].
  change (data (g32 (full_like x_single (-200))) [O; O; O])
    with (g_elem32 (Fin (-200))).
  rewrite g_elem32_m200. split; [reflexivity |].
  intros (v & Ev & Hv). inversion Ev. lra.
Qed.
